(** * A double-hashing hash table over a lazily initialised array

    Shallow embedding of [initialized-array.hpp] (namespace [InitArr]) and
    [hash-table.hpp] (namespace [HTable]).

    Conventions of the embedding.
    - The template parameter [Number] is [long long int]; it is modelled by
      [Z].  Signed overflow is undefined behaviour in C++, and every quantity
      the code computes is bounded by a small multiple of the capacity, so
      no wrap-around is written out.  Keys are integral and modelled by [Z].
    - The C++ operator [%] truncates towards zero: it is [Z.rem].
    - [new T[n]] returns uninitialised storage.  A buffer is a function from
      indices to contents, and every allocation receives its initial contents
      from the outside, so that every statement holds for all of them.
    - [throw std::out_of_range] is the result [OutOfRange].  The only
      unbounded loop ([FindNextPrime]) and the mutual recursion of [Insert]
      and [ReHash] are driven by a fuel argument; [OutOfFuel] marks its
      exhaustion.  A write past the end of a buffer is [Overrun], a member
      access through a NULL cell pointer is [NullDeref]. *)

From Stdlib Require Import ZArith QArith Qround List Bool Lia String Znumtheory.
From Stdlib Require Import Permutation.
Import ListNotations.
Local Open Scope Z_scope.

(** ** Results of fallible operations *)

Inductive error : Type :=
| OutOfRange   (* std::out_of_range thrown by the array *)
| Overrun      (* store past the end of a buffer *)
| NullDeref    (* member access through a NULL cell pointer *)
| OutOfFuel.   (* the fuel of the model ran out *)

Inductive result (A : Type) : Type :=
| Ok (a : A)
| Err (e : error).

Arguments Ok {A} a.
Arguments Err {A} e.

Definition bind {A B : Type} (r : result A) (f : A -> result B) : result B :=
  match r with
  | Ok a => f a
  | Err e => Err e
  end.

Notation "x <- c1 ;; c2" := (bind c1 (fun x => c2))
  (at level 61, c1 at next level, right associativity).

(** Functional update of a buffer at one index. *)
Definition upd {A : Type} (f : Z -> A) (i : Z) (v : A) : Z -> A :=
  fun j => if j =? i then v else f j.

(** ** The lazily initialised array *)

Module InitArr.

Section Array.
Variable Value : Type.

(** Contents of the three buffers right after [new]: arbitrary. *)
Record RawMem : Type := {
  raw_values : Z -> Value;
  raw_short_cuts : Z -> Z;
  raw_init_indexes : Z -> Z
}.

Record InitializedArray : Type := {
  values : Z -> Value;
  short_cuts : Z -> Z;
  init_indexes : Z -> Z;
  top : Z;
  length : Z;
  def : Value
}.

Definition IsInitialized (a : InitializedArray) (index : Z) : result bool :=
  if (index >=? length a) || (index <? 0) then Err OutOfRange
  else if top a =? 0 then Ok false
  else Ok ((short_cuts a index <? top a)
           && (short_cuts a index >=? 0)
           && (init_indexes a (short_cuts a index) =? index)).

(** Constructor [InitializedArray(length, def)]. *)
Definition New (m : RawMem) (len : Z) (d : Value) : InitializedArray :=
  {| values := raw_values m;
     short_cuts := raw_short_cuts m;
     init_indexes := raw_init_indexes m;
     top := 0;
     length := len;
     def := d |}.

(** The loop of the copy constructor: [for (i = 0; i < top; i++)] copies
    entry [i] of each of the three buffers. *)
Fixpoint copy_loop (n : nat) (i : Z) (src dst : InitializedArray)
  : InitializedArray :=
  match n with
  | O => dst
  | S n' =>
      copy_loop n' (i + 1) src
        {| values := upd (values dst) i (values src i);
           short_cuts := upd (short_cuts dst) i (short_cuts src i);
           init_indexes := upd (init_indexes dst) i (init_indexes src i);
           top := top dst;
           length := length dst;
           def := def dst |}
  end.

(** Copy constructor. *)
Definition Copy (m : RawMem) (arr : InitializedArray) : InitializedArray :=
  copy_loop (Z.to_nat (top arr)) 0 arr
    {| values := raw_values m;
       short_cuts := raw_short_cuts m;
       init_indexes := raw_init_indexes m;
       top := top arr;
       length := length arr;
       def := def arr |}.

Definition Get (a : InitializedArray) (index : Z) : result Value :=
  b <- IsInitialized a index ;;
  if b then Ok (values a index) else Ok (def a).

(** [Set]: the store [init_indexes[top] = index] lands inside the buffer
    only when [top < length]. *)
Definition Set_ (a : InitializedArray) (index : Z) (value : Value)
  : result InitializedArray :=
  b <- IsInitialized a index ;;
  if b then
    Ok {| values := upd (values a) index value;
          short_cuts := short_cuts a;
          init_indexes := init_indexes a;
          top := top a;
          length := length a;
          def := def a |}
  else if top a <? length a then
    Ok {| values := upd (values a) index value;
          short_cuts := upd (short_cuts a) index (top a);
          init_indexes := upd (init_indexes a) (top a) index;
          top := top a + 1;
          length := length a;
          def := def a |}
  else Err Overrun.

Definition Default (a : InitializedArray) : Value := def a.
Definition Length (a : InitializedArray) : Z := length a.

(** A history of [Set] calls, applied from left to right. *)
Fixpoint SetAll (a : InitializedArray) (ws : list (Z * Value))
  : result InitializedArray :=
  match ws with
  | [] => Ok a
  | (i, v) :: ws' => a' <- Set_ a i v ;; SetAll a' ws'
  end.

End Array.

Arguments raw_values {Value}.
Arguments raw_short_cuts {Value}.
Arguments raw_init_indexes {Value}.
Arguments values {Value}.
Arguments short_cuts {Value}.
Arguments init_indexes {Value}.
Arguments top {Value}.
Arguments length {Value}.
Arguments def {Value}.
Arguments IsInitialized {Value}.
Arguments New {Value}.
Arguments Copy {Value}.
Arguments Get {Value}.
Arguments Set_ {Value}.
Arguments Default {Value}.
Arguments Length {Value}.
Arguments SetAll {Value}.

End InitArr.

(** ** The hash table *)

Module HTable.

Definition INIT_SIZE : Z := 7.
Definition CONST_C : Z := 7.
Definition MAX_RATIO : Q := 3 # 4.       (* 0.75 *)
Definition MIN_RATIO : Q := 1 # 4.       (* 0.25 *)
Definition EXPAND_SIZE : Z := 2.
Definition REDUCE_SIZE : Q := 1 # 2.     (* 0.5 *)

Inductive DIRECTION : Type := DOWN | UP.

Inductive CELL_STATE : Type := EMPTY | FULL.

(** Integral value of an enumerator, used where the source compares a key
    with [EMPTY]. *)
Definition CELL_STATE_value (s : CELL_STATE) : Z :=
  match s with EMPTY => 0 | FULL => 1 end.

Definition CELL_STATE_eqb (s1 s2 : CELL_STATE) : bool :=
  match s1, s2 with
  | EMPTY, EMPTY | FULL, FULL => true
  | _, _ => false
  end.

Definition DIRECTION_eqb (d1 d2 : DIRECTION) : bool :=
  match d1, d2 with
  | DOWN, DOWN | UP, UP => true
  | _, _ => false
  end.

(** [IsPrime]: the loop [while (div*div - 2*div + 1 <= number)] advances
    [div] by 6, so [number] iterations always suffice. *)
Fixpoint IsPrime_loop (n : nat) (div number : Z) : result bool :=
  match n with
  | O => Err OutOfFuel
  | S n' =>
      if div * div - 2 * div + 1 <=? number then
        if (Z.rem number (div - 1) =? 0) || (Z.rem number (div + 1) =? 0)
        then Ok false
        else IsPrime_loop n' (div + 6) number
      else Ok true
  end.

Definition IsPrime (number : Z) : result bool :=
  if (number =? 1) || (Z.rem number 2 =? 0) || (Z.rem number 3 =? 0)
  then Ok false
  else IsPrime_loop (S (Z.to_nat number)) 6 number.

(** [FindNextPrime]: [while (!IsPrime(++number)) {}]. *)
Fixpoint FindNextPrime (fuel : nat) (number : Z) : result Z :=
  match fuel with
  | O => Err OutOfFuel
  | S fuel' =>
      let number := number + 1 in
      p <- IsPrime number ;;
      if p then Ok number else FindNextPrime fuel' number
  end.

Section Table.
Variable Value : Type.

Record HTableCell : Type := {
  key : Z;
  value : Value;
  state : CELL_STATE
}.

(** [HTableCell(key, value)] *)
Definition mkFull (k : Z) (v : Value) : HTableCell :=
  {| key := k; value := v; state := FULL |}.

Definition GetKey (c : HTableCell) : Z := key c.
Definition GetValue (c : HTableCell) : Value := value c.
Definition GetCellState (c : HTableCell) : CELL_STATE := state c.
Definition SetCellState (c : HTableCell) (s : CELL_STATE) : HTableCell :=
  {| key := key c; value := value c; state := s |}.

(** A slot holds a cell pointer, of type [option HTableCell]: [None] is
    [NULL].  Each cell is owned by
    exactly one slot, so the pointee is stored in the slot itself.  (The
    source writes the template arguments of the array in the order
    [<Number, HTableCell*>]; the array is used with [Number] as index
    type and the pointer as value type.) *)

Record HashTable : Type := {
  elements : InitArr.InitializedArray (option HTableCell);
  size : Z;
  total_elements : Z
}.

(** Contents of freshly allocated buffers, by requested length. *)
Variable alloc : Z -> InitArr.RawMem (option HTableCell).

Definition new_elements (len : Z)
  : InitArr.InitializedArray (option HTableCell) :=
  InitArr.New (alloc len) len None.

Definition Hash (t : HashTable) (key : Z) (k : Z) : Z :=
  Z.rem (Z.rem key (size t) + k * (1 + Z.rem key CONST_C)) (size t).

(** The probing loop of [FindKey]; at most [size] iterations. *)
Fixpoint FindKey_loop (n : nat) (t : HashTable) (key k hash : Z)
         (elem : option HTableCell) : result (Z * Z * option HTableCell) :=
  match n with
  | O => Err OutOfFuel
  | S n' =>
      match elem with
      | Some c =>
          if k <? size t then
            if GetKey c =? key then Ok (k, hash, elem)
            else
              let k := k + 1 in
              let hash := Hash t key k in
              elem <- InitArr.Get (elements t) hash ;;
              FindKey_loop n' t key k hash elem
          else Ok (k, hash, elem)
      | None => Ok (k, hash, elem)
      end
  end.

Definition FindKey (t : HashTable) (key : Z) : result Z :=
  let k := 0 in
  let hash := Hash t key k in
  elem <- InitArr.Get (elements t) hash ;;
  r <- FindKey_loop (S (Z.to_nat (size t))) t key k hash elem ;;
  let '(k, hash, elem) := r in
  match elem with
  | None => Ok (-1)
  | Some c =>
      if k >=? size t then Ok (-1)
      else if GetKey c =? CELL_STATE_value EMPTY then Ok (-1)
      else Ok hash
  end.

(** [HashTable()] *)
Definition HashTable_new : HashTable :=
  {| elements := new_elements INIT_SIZE;
     size := INIT_SIZE;
     total_elements := 0 |}.

Definition GetSize (t : HashTable) : Z := size t.
Definition GetTotalElements (t : HashTable) : Z := total_elements t.

(** The probing loop of [Insert]; at most [size + 1] iterations. *)
Fixpoint Insert_loop (n : nat) (t : HashTable) (key k hash : Z)
         (elem : option HTableCell) : result (Z * Z * option HTableCell) :=
  match n with
  | O => Err OutOfFuel
  | S n' =>
      match elem with
      | Some c =>
          if k <=? size t then
            if (GetKey c =? key) || CELL_STATE_eqb (GetCellState c) EMPTY
            then Ok (k, hash, elem)
            else
              let k := k + 1 in
              let hash := Hash t key k in
              elem <- InitArr.Get (elements t) hash ;;
              Insert_loop n' t key k hash elem
          else Ok (k, hash, elem)
      | None => Ok (k, hash, elem)
      end
  end.

(** The rebuild loop of [ReHash]: [for (i = 0; i < old_size; ++i)], with
    [ins] the insertion it calls on the table under construction. *)
Fixpoint ReHash_loop (ins : HashTable -> Z -> Value -> result HashTable)
         (n : nat) (i : Z)
         (old_elements : InitArr.InitializedArray (option HTableCell))
         (t : HashTable)
  : result HashTable :=
  match n with
  | O => Ok t
  | S n' =>
      elem <- InitArr.Get old_elements i ;;
      match elem with
      | None => ReHash_loop ins n' (i + 1) old_elements t
      | Some c =>
          if CELL_STATE_eqb (GetCellState c) EMPTY then
            old_elements <- InitArr.Set_ old_elements i None ;;
            ReHash_loop ins n' (i + 1) old_elements t
          else
            t <- ins t (GetKey c) (GetValue c) ;;
            ReHash_loop ins n' (i + 1) old_elements t
      end
  end.

(** [ReHash(dir)].  The comparisons with [size * MAX_RATIO] and
    [size * MIN_RATIO] and the products under [floor] are computed in
    [double] by the source; they are exact there, and are taken over the
    rationals here. *)
Definition ReHash_with (fuel : nat)
           (ins : HashTable -> Z -> Value -> result HashTable)
           (dir : DIRECTION) (t : HashTable) : result HashTable :=
  let old_size := size t in
  let rebuild (new_size : Z) :=
    ReHash_loop ins (Z.to_nat old_size) 0 (elements t)
      {| elements := new_elements new_size;
         size := new_size;
         total_elements := 0 |}
  in
  if DIRECTION_eqb dir UP
     && Qle_bool (inject_Z (size t) * MAX_RATIO) (inject_Z (total_elements t))
  then
    new_size <- FindNextPrime fuel (Qfloor (inject_Z (size t * EXPAND_SIZE))) ;;
    rebuild new_size
  else if DIRECTION_eqb dir DOWN
          && (size t >? INIT_SIZE)
          && negb (Qle_bool (inject_Z (size t) * MIN_RATIO)
                            (inject_Z (total_elements t)))
  then
    new_size <- FindNextPrime fuel (Qfloor (inject_Z (size t) * REDUCE_SIZE)) ;;
    rebuild new_size
  else Ok t.

(** [Insert(key, value)].  [Insert] calls [ReHash], whose rebuild loop
    calls [Insert] again: the recursion is on the fuel. *)
Fixpoint Insert (fuel : nat) (t : HashTable) (key : Z) (value : Value)
  : result HashTable :=
  match fuel with
  | O => Err OutOfFuel
  | S fuel' =>
      is_exist <- FindKey t key ;;
      if is_exist >? 0 then
        let hash := is_exist in
        _ <- InitArr.Get (elements t) hash ;;
        els <- InitArr.Set_ (elements t) hash (Some (mkFull key value)) ;;
        Ok {| elements := els;
              size := size t;
              total_elements := total_elements t |}
      else
        let k := 0 in
        let hash := Hash t key k in
        elem <- InitArr.Get (elements t) hash ;;
        r <- Insert_loop (S (S (Z.to_nat (size t)))) t key k hash elem ;;
        let '(_, hash, elem) := r in
        let total :=
          match elem with
          | Some _ => total_elements t - 1
          | None => total_elements t
          end in
        let total := total + 1 in
        els <- InitArr.Set_ (elements t) hash (Some (mkFull key value)) ;;
        ReHash_with fuel' (Insert fuel') UP
          {| elements := els; size := size t; total_elements := total |}
  end.

Definition ReHash (fuel : nat) (dir : DIRECTION) (t : HashTable)
  : result HashTable :=
  ReHash_with fuel (Insert fuel) dir t.

(** [Find(key)]: [NULL] or a copy of the cell found. *)
Definition Find (t : HashTable) (key : Z) : result (option HTableCell) :=
  new_key <- FindKey t key ;;
  if new_key <? 0 then Ok None
  else
    elem <- InitArr.Get (elements t) new_key ;;
    match elem with
    | None => Err NullDeref
    | Some c => Ok (Some c)
    end.

Definition Exists (t : HashTable) (key : Z) : result bool :=
  found_key <- FindKey t key ;;
  Ok (found_key >? 0).

(** [Remove(key)].  [SetCellState] writes through the pointer held by the
    slot: the slot keeps its pointer and the array its bookkeeping. *)
Definition Remove (fuel : nat) (t : HashTable) (key : Z)
  : result HashTable :=
  is_exist <- FindKey t key ;;
  if is_exist <? 0 then Ok t
  else
    elem <- InitArr.Get (elements t) is_exist ;;
    match elem with
    | None => Err NullDeref
    | Some c =>
        if CELL_STATE_eqb (GetCellState c) FULL then
          let els :=
            {| InitArr.values :=
                 upd (InitArr.values (elements t)) is_exist
                     (Some (SetCellState c EMPTY));
               InitArr.short_cuts := InitArr.short_cuts (elements t);
               InitArr.init_indexes := InitArr.init_indexes (elements t);
               InitArr.top := InitArr.top (elements t);
               InitArr.length := InitArr.length (elements t);
               InitArr.def := InitArr.def (elements t) |} in
          ReHash fuel DOWN
            {| elements := els;
               size := size t;
               total_elements := total_elements t - 1 |}
        else Ok t
    end.

(** One of the two loops of the merging constructor:
    [for (i = 0; i < src.size; ++i)] inserts the FULL cells of [src]. *)
Fixpoint Merge_loop (fuel : nat) (n : nat) (i : Z) (src : HashTable)
         (t : HashTable) : result HashTable :=
  match n with
  | O => Ok t
  | S n' =>
      elem <- InitArr.Get (elements src) i ;;
      match elem with
      | None => Merge_loop fuel n' (i + 1) src t
      | Some c =>
          if CELL_STATE_eqb (GetCellState c) EMPTY then
            Merge_loop fuel n' (i + 1) src t
          else
            t <- Insert fuel t (GetKey c) (GetValue c) ;;
            Merge_loop fuel n' (i + 1) src t
      end
  end.

(** [HashTable(ht1, ht2)] *)
Definition Merge (fuel : nat) (ht1 ht2 : HashTable) : result HashTable :=
  new_size <- FindNextPrime fuel (2 * (size ht1 + size ht2)) ;;
  let t := {| elements := new_elements new_size;
              size := new_size;
              total_elements := 0 |} in
  t <- Merge_loop fuel (Z.to_nat (size ht1)) 0 ht1 t ;;
  Merge_loop fuel (Z.to_nat (size ht2)) 0 ht2 t.

(** A sequence of mutations, as a caller issues them. *)
Inductive operation : Type :=
| OpInsert (key : Z) (value : Value)
| OpRemove (key : Z).

Definition apply_op (fuel : nat) (t : HashTable) (o : operation)
  : result HashTable :=
  match o with
  | OpInsert k v => Insert fuel t k v
  | OpRemove k => Remove fuel t k
  end.

Fixpoint run (fuel : nat) (t : HashTable) (os : list operation)
  : result HashTable :=
  match os with
  | [] => Ok t
  | o :: os' => t' <- apply_op fuel t o ;; run fuel t' os'
  end.

(** Number of slots whose cell is FULL, over slots [i .. i + n - 1]. *)
Fixpoint count_full (n : nat) (i : Z)
         (els : InitArr.InitializedArray (option HTableCell)) : result Z :=
  match n with
  | O => Ok 0
  | S n' =>
      elem <- InitArr.Get els i ;;
      rest <- count_full n' (i + 1) els ;;
      match elem with
      | Some c =>
          if CELL_STATE_eqb (GetCellState c) FULL then Ok (1 + rest)
          else Ok rest
      | None => Ok rest
      end
  end.

Definition full_slots (t : HashTable) : result Z :=
  count_full (Z.to_nat (size t)) 0 (elements t).

End Table.

Arguments key {Value}.
Arguments value {Value}.
Arguments state {Value}.
Arguments mkFull {Value}.
Arguments GetKey {Value}.
Arguments GetValue {Value}.
Arguments GetCellState {Value}.
Arguments SetCellState {Value}.
Arguments elements {Value}.
Arguments size {Value}.
Arguments total_elements {Value}.
Arguments new_elements {Value}.
Arguments Hash {Value}.
Arguments FindKey_loop {Value}.
Arguments FindKey {Value}.
Arguments HashTable_new {Value}.
Arguments GetSize {Value}.
Arguments GetTotalElements {Value}.
Arguments Insert_loop {Value}.
Arguments ReHash_loop {Value}.
Arguments ReHash_with {Value}.
Arguments Insert {Value}.
Arguments ReHash {Value}.
Arguments Find {Value}.
Arguments Exists {Value}.
Arguments Remove {Value}.
Arguments Merge_loop {Value}.
Arguments Merge {Value}.
Arguments OpInsert {Value}.
Arguments OpRemove {Value}.
Arguments apply_op {Value}.
Arguments run {Value}.
Arguments count_full {Value}.
Arguments full_slots {Value}.

End HTable.

(** * Vocabulary of the statements *)

(** ** The array *)

Section ArrayVocabulary.
Import InitArr.
Context {Value : Type}.
Implicit Types (a : InitializedArray Value) (i j p : Z) (v : Value).

(** Slot [i] is recorded as written. *)
Definition is_init a i : Prop :=
  0 <= short_cuts a i < top a /\ init_indexes a (short_cuts a i) = i.

(** Representation invariant: the first [top] entries of [init_indexes]
    are in-range indices, and [short_cuts] points back at them. *)
Definition wf a : Prop :=
  0 <= top a /\
  forall p, 0 <= p < top a ->
    0 <= init_indexes a p < length a /\ short_cuts a (init_indexes a p) = p.

(** The value last written at [j] by a history of [Set] calls, if any. *)
Fixpoint last_write (ws : list (Z * Value)) (j : Z) : option Value :=
  match ws with
  | [] => None
  | (i, v) :: ws' =>
      match last_write ws' j with
      | Some x => Some x
      | None => if i =? j then Some v else None
      end
  end.

(** The first [top] entries of [init_indexes], in write order. *)
Definition written_list a : list Z :=
  map (fun n : nat => init_indexes a (Z.of_nat n)) (seq 0 (Z.to_nat (top a))).

End ArrayVocabulary.

(** ** Results *)

(** Two results agree: the same error, or related values. *)
Definition res_rel {A B : Type} (R : A -> B -> Prop)
           (r1 : result A) (r2 : result B) : Prop :=
  match r1, r2 with
  | Ok x, Ok y => R x y
  | Err e1, Err e2 => e1 = e2
  | _, _ => False
  end.

(** ** The table *)

Section TableVocabulary.
Import InitArr HTable.
Context {Value : Type}.
Implicit Types (a b : InitializedArray (option (HTableCell Value))).
Implicit Types (t u : HashTable Value) (c d : HTableCell Value).
Implicit Types (i j k ky hash : Z) (elem : option (HTableCell Value)).

(** Two arrays that answer every [Get] alike. *)
Definition arr_sim a b : Prop :=
  wf a /\ wf b /\ length a = length b /\
  def a = None /\ def b = None /\
  forall j, Get a j = Get b j.

Definition tbl_sim t u : Prop :=
  arr_sim (elements t) (elements u) /\
  size t = size u /\ total_elements t = total_elements u.

(** Writing through the pointer of a non-NULL slot. *)
Definition poke a i c : InitializedArray (option (HTableCell Value)) :=
  {| values := upd (values a) i (Some c);
     short_cuts := short_cuts a;
     init_indexes := init_indexes a;
     top := top a;
     length := length a;
     def := def a |}.

(** Insertion functions that agree on tables that agree. *)
Definition ins_sim (ins1 ins2 : HashTable Value -> Z -> Value ->
                                result (HashTable Value)) : Prop :=
  forall t u ky v, tbl_sim t u -> res_rel tbl_sim (ins1 t ky v) (ins2 u ky v).

Definition cap_ok t : Prop := Z.prime (size t) /\ INIT_SIZE <= size t.

(** An insertion function that keeps the capacity invariant. *)
Definition ins_cap (ins : HashTable Value -> Z -> Value ->
                          result (HashTable Value)) : Prop :=
  forall t ky v t', cap_ok t -> ins t ky v = Ok t' -> cap_ok t'.

(** What the operations need of a table to return: a well-formed array
    with NULL as default and as many slots as the capacity, a prime
    capacity, and no negative key in a cell. *)
Definition keys_nonneg a : Prop :=
  forall j c, Get a j = Ok (Some c) -> 0 <= key c.

Definition tbl_inv t : Prop :=
  wf (elements t) /\ def (elements t) = None /\
  length (elements t) = size t /\ cap_ok t /\ keys_nonneg (elements t).

(** What the rebuild loops need of the array they read. *)
Definition old_inv a (len : Z) : Prop :=
  wf a /\ length a = len /\ keys_nonneg a.

(** The key an operation is about. *)
Definition op_key (o : operation Value) : Z :=
  match o with
  | OpInsert ky _ => ky
  | OpRemove ky => ky
  end.

End TableVocabulary.

(** Tables a caller can build: the empty table, and what [Insert], [Remove]
    and the merging constructor return, whatever fuel each call is given. *)
Inductive reachable {Value : Type}
          (alloc : Z -> InitArr.RawMem (option (HTable.HTableCell Value)))
  : HTable.HashTable Value -> Prop :=
| reach_new : reachable alloc (HTable.HashTable_new alloc)
| reach_insert fuel t ky v t' :
    reachable alloc t ->
    HTable.Insert alloc fuel t ky v = Ok t' ->
    reachable alloc t'
| reach_remove fuel t ky t' :
    reachable alloc t ->
    HTable.Remove alloc fuel t ky = Ok t' ->
    reachable alloc t'
| reach_merge fuel t1 t2 t' :
    reachable alloc t1 ->
    reachable alloc t2 ->
    HTable.Merge alloc fuel t1 t2 = Ok t' ->
    reachable alloc t'.

(** ** Probe paths, slots and what the operations keep *)

Section PathVocabulary.
Import InitArr HTable.
Context {Value : Type}.
Variable alloc : Z -> RawMem (option (HTableCell Value)).
Implicit Types (a : InitializedArray (option (HTableCell Value))).
Implicit Types (t u : HashTable Value) (c d : HTableCell Value).
Implicit Types (i j k ky hash s h : Z) (elem : option (HTableCell Value)).

(** The probes [lo .. hi - 1] of key [ky] all read a cell of another key. *)
Definition passes t ky (lo hi : Z) : Prop :=
  forall i, lo <= i < hi ->
    exists c, Get (elements t) (Hash t ky i) = Ok (Some c) /\ GetKey c <> ky.

(** Key [ky] is met at probe [j], in slot [s], which holds cell [c]. *)
Definition finds t ky j s c : Prop :=
  0 <= j < size t /\ Hash t ky j = s /\
  Get (elements t) s = Ok (Some c) /\ GetKey c = ky /\ passes t ky 0 j.

(** What the probing loop of [Insert] stops on within the probe limit: a
    NULL slot, a cell of the key, or a tombstone. *)
Definition stops_here ky elem : Prop :=
  match elem with
  | None => True
  | Some c => GetKey c = ky \/ GetCellState c = EMPTY
  end.

(** The probes [lo .. hi - 1] of key [ky] all read a FULL cell of another
    key. *)
Definition passes_full t ky (lo hi : Z) : Prop :=
  forall i, lo <= i < hi ->
    exists c, Get (elements t) (Hash t ky i) = Ok (Some c) /\
              GetKey c <> ky /\ GetCellState c = FULL.

(** The key a read of a slot shows, if any. *)
Definition key_of (r : result (option (HTableCell Value)))
  : result (option Z) :=
  match r with
  | Ok (Some c) => Ok (Some (GetKey c))
  | Ok None => Ok None
  | Err e => Err e
  end.

(** Two tables of the same capacity whose slots show the same keys. *)
Definition same_keys t u : Prop :=
  size t = size u /\
  forall j, key_of (Get (elements t) j) = key_of (Get (elements u) j).

(** Two states of a probing loop that show the same key. *)
Definition same_probe (x y : Z * Z * option (HTableCell Value)) : Prop :=
  fst (fst x) = fst (fst y) /\ snd (fst x) = snd (fst y) /\
  option_map GetKey (snd x) = option_map GetKey (snd y).

(** Table [u] is table [t] with slot [h] set to cell [c]. *)
Definition slot_set t u h c : Prop :=
  size u = size t /\
  Get (elements u) h = Ok (Some c) /\
  (forall j, j <> h -> Get (elements u) j = Get (elements t) j) /\
  wf (elements u) /\ def (elements u) = def (elements t) /\
  length (elements u) = length (elements t).

(** The array of the table is well formed, has NULL as default and as many
    slots as the capacity, and the capacity is a prime, at least 7. *)
Definition shape_ok t : Prop :=
  wf (elements t) /\ def (elements t) = None /\
  length (elements t) = size t /\ cap_ok t.

(** [shape_ok], and the count is below three quarters of the capacity. *)
Definition load_ok t : Prop :=
  shape_ok t /\ 4 * total_elements t < 3 * size t.

(** An insertion function that keeps [load_ok]. *)
Definition ins_load (ins : HashTable Value -> Z -> Value ->
                           result (HashTable Value)) : Prop :=
  forall t ky v t', load_ok t -> ins t ky v = Ok t' -> load_ok t'.

(** [Insert] took its update path: it replaced the record of the key in
    the slot [FindKey] gave. *)
Definition Insert_updated t ky v t' : Prop :=
  exists h d,
    FindKey t ky = Ok h /\ 0 < h /\
    Get (elements t) h = Ok (Some d) /\ GetKey d = ky /\
    slot_set t t' h (mkFull ky v) /\
    total_elements t' = total_elements t.

(** [Insert] took its insertion path: it wrote the record in the slot
    where its probing loop stopped, adjusted the count, and called
    [ReHash(UP)]. *)
Definition Insert_wrote t ky v (fuel : nat) t' : Prop :=
  exists r k' elem' t1,
    FindKey t ky = Ok r /\ r <= 0 /\
    0 <= k' <= size t + 1 /\
    Get (elements t) (Hash t ky k') = Ok elem' /\
    passes_full t ky 0 k' /\
    (k' <= size t -> stops_here ky elem') /\
    slot_set t t1 (Hash t ky k') (mkFull ky v) /\
    total_elements t1 =
      match elem' with
      | Some _ => total_elements t - 1
      | None => total_elements t
      end + 1 /\
    ReHash_with alloc fuel (Insert alloc fuel) UP t1 = Ok t'.

(** Every record outside slot 0, live or tombstone, of a key other than 0
    is the first record of its key that the probe sequence of the key
    meets. *)
Definition first_ok t : Prop :=
  forall s c, 0 < s -> Get (elements t) s = Ok (Some c) -> GetKey c <> 0 ->
    exists j, finds t (GetKey c) j s c.

(** The invariant of the tables built with non-negative keys. *)
Definition sound t : Prop := tbl_inv t /\ first_ok t.

(** An insertion function that keeps [sound]. *)
Definition ins_sound (ins : HashTable Value -> Z -> Value ->
                            result (HashTable Value)) : Prop :=
  forall t ky v t', sound t -> 0 <= ky -> ins t ky v = Ok t' -> sound t'.

(** The slots [0 .. n - 1]. *)
Definition slots (n : nat) : list Z := map Z.of_nat (seq 0 n).

(** The slots that hold a record are at most as many as the count. *)
Definition counted t : Prop :=
  exists l : list Z,
    (forall s c, Get (elements t) s = Ok (Some c) -> In s l) /\
    Z.of_nat (List.length l) <= total_elements t.

(** A table as [ReHash(UP)] and the merging constructor build it. *)
Definition fresh t : Prop := shape_ok t /\ 7 < size t /\ counted t.

(** From slot [i] on, the live records of [ky] in [a] have value [v]. *)
Definition later_same a ky (v : Value) i : Prop :=
  forall s c, i <= s -> Get a s = Ok (Some c) ->
    GetCellState c = FULL -> GetKey c = ky -> GetValue c = v.

(** A rebuild loop at slot [i] with [n] slots to go: the key is already
    found with the value in the table under construction, or a live record
    of it is still to come in [a]; in both cases the live records of the
    key that are still to come from there on have the value. *)
Definition pending a t ky (v : Value) i (n : nat) : Prop :=
  (Find t ky = Ok (Some (mkFull ky v)) /\ later_same a ky v i) \/
  (exists h c, i <= h < i + Z.of_nat n /\ Get a h = Ok (Some c) /\
               GetCellState c = FULL /\ GetKey c = ky /\
               later_same a ky v h).

(** No tombstone, and the count is the number of FULL slots. *)
Definition count_ok t : Prop :=
  shape_ok t /\
  (forall s c, Get (elements t) s = Ok (Some c) -> GetCellState c = FULL) /\
  full_slots t = Ok (total_elements t).

(** An insertion function that keeps [count_ok]. *)
Definition ins_count (ins : HashTable Value -> Z -> Value ->
                            result (HashTable Value)) : Prop :=
  forall t ky v t', count_ok t -> ins t ky v = Ok t' -> count_ok t'.

End PathVocabulary.

(** Tables built with non-negative keys: the empty table, and what
    [Insert] of a non-negative key, [Remove] and the merging constructor
    return, whatever fuel each call is given. *)
Inductive built {Value : Type}
          (alloc : Z -> InitArr.RawMem (option (HTable.HTableCell Value)))
  : HTable.HashTable Value -> Prop :=
| built_new : built alloc (HTable.HashTable_new alloc)
| built_insert fuel t ky v t' :
    built alloc t -> 0 <= ky ->
    HTable.Insert alloc fuel t ky v = Ok t' ->
    built alloc t'
| built_remove fuel t ky t' :
    built alloc t ->
    HTable.Remove alloc fuel t ky = Ok t' ->
    built alloc t'
| built_merge fuel t1 t2 t' :
    built alloc t1 ->
    built alloc t2 ->
    HTable.Merge alloc fuel t1 t2 = Ok t' ->
    built alloc t'.

(** Tables built by insertions alone. *)
Inductive inserted {Value : Type}
          (alloc : Z -> InitArr.RawMem (option (HTable.HTableCell Value)))
  : HTable.HashTable Value -> Prop :=
| inserted_new : inserted alloc (HTable.HashTable_new alloc)
| inserted_insert fuel t ky v t' :
    inserted alloc t ->
    HTable.Insert alloc fuel t ky v = Ok t' ->
    inserted alloc t'.

(** The step of the probe sequence of a key. *)
Definition step (ky : Z) : Z := 1 + Z.rem ky HTable.CONST_C.

(** No divisor strictly between 1 and [b]. *)
Definition no_divisor_below (n b : Z) : Prop :=
  forall d, 1 < d < b -> ~ (d | n).

Fixpoint zfact (n : nat) : Z :=
  match n with
  | O => 1
  | S n' => Z.of_nat n * zfact n'
  end.

(** ** Buffer contents and inputs of the scenarios *)

(** Buffer contents chosen against the array: every [short_cuts] entry
    points at position 0 and every [init_indexes] entry names index 3. *)
Definition hostile_mem : InitArr.RawMem Z :=
  {| InitArr.raw_values := fun _ => 99;
     InitArr.raw_short_cuts := fun _ => 0;
     InitArr.raw_init_indexes := fun _ => 3 |}.

(** Fresh buffers that hold zeroes and NULL: the allocator on which runs
    are evaluated; [run_transfer] carries the outcome to every other. *)
Definition zero_mem (Value : Type)
  : Z -> InitArr.RawMem (option (HTable.HTableCell Value)) :=
  fun _ => {| InitArr.raw_values := fun _ => None;
              InitArr.raw_short_cuts := fun _ => 0;
              InitArr.raw_init_indexes := fun _ => 0 |}.

Local Open Scope string_scope.

(** The six insertions of the resize scenario. *)
Definition six_inserts : list (HTable.operation string) :=
  [HTable.OpInsert 1 "a"; HTable.OpInsert 2 "b"; HTable.OpInsert 3 "c";
   HTable.OpInsert 4 "d"; HTable.OpInsert 5 "e"; HTable.OpInsert 6 "f"].

Local Close Scope string_scope.

(** * Properties of the lazily initialised array *)

Lemma upd_same {A} (f : Z -> A) i v : upd f i v i = v.
Proof. unfold upd. now rewrite Z.eqb_refl. Qed.

Lemma upd_other {A} (f : Z -> A) i j v : j <> i -> upd f i v j = f j.
Proof. unfold upd. intros H. apply Z.eqb_neq in H. now rewrite H. Qed.

Lemma bind_Ok {A B} (r : result A) (f : A -> result B) (b : B) :
  bind r f = Ok b -> exists a, r = Ok a /\ f a = Ok b.
Proof. destruct r as [a|e]; simpl; [eauto | discriminate]. Qed.

(** Turns boolean comparisons on [Z] into propositions. *)
Ltac zify_bool :=
  repeat match goal with
  | |- context [?a <? ?b] => destruct (Z.ltb_spec a b)
  | |- context [?a <=? ?b] => destruct (Z.leb_spec a b)
  | |- context [?a >=? ?b] => rewrite (Z.geb_leb a b)
  | |- context [?a >? ?b] => rewrite (Z.gtb_ltb a b)
  | |- context [?a =? ?b] => destruct (Z.eqb_spec a b)
  | H : context [?a <? ?b] |- _ => destruct (Z.ltb_spec a b)
  | H : context [?a <=? ?b] |- _ => destruct (Z.leb_spec a b)
  | H : context [?a >=? ?b] |- _ => rewrite (Z.geb_leb a b) in H
  | H : context [?a >? ?b] |- _ => rewrite (Z.gtb_ltb a b) in H
  | H : context [?a =? ?b] |- _ => destruct (Z.eqb_spec a b)
  end.

Section ArrayFacts.
Import InitArr.
Context {Value : Type}.
Implicit Types (a : InitializedArray Value) (i j p : Z) (v : Value).

Lemma IsInitialized_out a i :
  ~ 0 <= i < length a -> IsInitialized a i = Err OutOfRange.
Proof.
  intros H. unfold IsInitialized.
  destruct (i >=? length a) eqn:E1; destruct (i <? 0) eqn:E2; simpl; auto.
  zify_bool; lia.
Qed.

Lemma IsInitialized_true a i :
  0 <= i < length a -> is_init a i -> IsInitialized a i = Ok true.
Proof.
  intros H [H1 H2]. unfold IsInitialized.
  zify_bool; simpl; try reflexivity; try lia.
Qed.

Lemma IsInitialized_false a i :
  0 <= i < length a -> ~ is_init a i -> IsInitialized a i = Ok false.
Proof.
  intros H N. unfold IsInitialized, is_init in *.
  zify_bool; simpl; try reflexivity; try lia.
Qed.

Lemma IsInitialized_inv a i b :
  IsInitialized a i = Ok b ->
  0 <= i < length a /\ (b = true <-> is_init a i).
Proof.
  unfold IsInitialized, is_init.
  zify_bool; simpl; try discriminate; intros [= <-];
    (split; [lia | split; [ try discriminate | ]; intros; try lia; auto]).
Qed.

Lemma wf_New (m : RawMem Value) len d : wf (New m len d).
Proof. split; simpl; [lia | intros; lia]. Qed.

(** The recorded indices are pairwise distinct, hence fewer than [length];
    an index not recorded leaves room for one more. *)
Lemma top_lt_length a i :
  wf a -> 0 <= i < length a -> ~ is_init a i -> top a < length a.
Proof.
  intros [Ht Hwf] Hi Hn.
  set (f := fun n : nat => Z.to_nat (init_indexes a (Z.of_nat n))).
  set (l := map f (seq 0 (Z.to_nat (top a)))).
  assert (Hin : forall n : nat, In n (seq 0 (Z.to_nat (top a))) ->
                                0 <= Z.of_nat n < top a).
  { intros n Hp. apply in_seq in Hp. lia. }
  assert (Hnd : NoDup (Z.to_nat i :: l)).
  { constructor.
    - intros Hmem. apply in_map_iff in Hmem as (p & Hp & Hps).
      apply Hin in Hps. destruct (Hwf _ Hps) as [Hr Hs].
      apply Hn. unfold f in Hp.
      assert (init_indexes a (Z.of_nat p) = i) by lia.
      subst i. red. rewrite Hs. split; [lia | reflexivity].
    - apply NoDup_map_NoDup_ForallPairs; [ | apply seq_NoDup].
      intros p q Hp Hq Heq. apply Hin in Hp, Hq.
      destruct (Hwf _ Hp) as [Hrp Hsp], (Hwf _ Hq) as [Hrq Hsq].
      unfold f in Heq.
      assert (E : init_indexes a (Z.of_nat p) = init_indexes a (Z.of_nat q))
        by lia.
      rewrite E in Hsp. rewrite Hsp in Hsq. lia. }
  assert (Hincl : incl (Z.to_nat i :: l) (seq 0 (Z.to_nat (length a)))).
  { intros x [<- | Hx]; apply in_seq.
    - lia.
    - apply in_map_iff in Hx as (p & <- & Hps).
      apply Hin in Hps. destruct (Hwf _ Hps) as [Hr _]. unfold f. lia. }
  pose proof (NoDup_incl_length Hnd Hincl) as Hlen.
  simpl in Hlen. unfold l in Hlen.
  rewrite length_map, !length_seq in Hlen. lia.
Qed.

Lemma Get_init a i :
  0 <= i < length a -> is_init a i -> Get a i = Ok (values a i).
Proof. intros. unfold Get. now rewrite IsInitialized_true. Qed.

Lemma Get_not_init a i :
  0 <= i < length a -> ~ is_init a i -> Get a i = Ok (def a).
Proof. intros. unfold Get. now rewrite IsInitialized_false. Qed.

Lemma Get_out a i : ~ 0 <= i < length a -> Get a i = Err OutOfRange.
Proof. intros. unfold Get. now rewrite IsInitialized_out. Qed.

Lemma Get_New (m : RawMem Value) len d i :
  0 <= i < len -> Get (New m len d) i = Ok d.
Proof.
  intros. apply Get_not_init; [assumption | ].
  unfold is_init; simpl; lia.
Qed.

Lemma is_init_dec a i : is_init a i \/ ~ is_init a i.
Proof. unfold is_init. lia. Qed.

(** [Set] on an in-range index succeeds, keeps the invariant, makes the
    index read back the value written and changes no other read. *)
Lemma Set_spec a i v :
  wf a -> 0 <= i < length a ->
  exists a',
    Set_ a i v = Ok a' /\ wf a' /\
    length a' = length a /\ def a' = def a /\
    is_init a' i /\ values a' i = v /\
    forall j, j <> i ->
      (is_init a' j <-> is_init a j) /\ values a' j = values a j.
Proof.
  intros Hwf Hi. unfold Set_.
  destruct (is_init_dec a i) as [Hy | Hn].
  - rewrite IsInitialized_true by assumption. simpl.
    eexists; split; [reflexivity | ].
    split; [exact Hwf | ].
    split; [reflexivity | split; [reflexivity | ]].
    split; [exact Hy | ].
    split; [apply upd_same | ].
    intros j Hj. split; [reflexivity | now apply upd_other].
  - rewrite IsInitialized_false by assumption. simpl.
    pose proof (top_lt_length a i Hwf Hi Hn) as Hlt.
    destruct (Z.ltb_spec (top a) (length a)); [ | lia].
    destruct Hwf as [Ht Hwf].
    eexists; split; [reflexivity | ].
    split; [ | split; [reflexivity | split; [reflexivity | ]]].
    { split; simpl; [lia | ]. intros p Hp. unfold upd.
      destruct (Z.eqb_spec p (top a)) as [-> | Hne].
      - now rewrite Z.eqb_refl.
      - destruct (Hwf p ltac:(lia)) as [Hr Hs].
        destruct (Z.eqb_spec (init_indexes a p) i) as [E | E].
        + exfalso. apply Hn. red. rewrite <- E, Hs. split; [lia | reflexivity].
        + auto. }
    unfold is_init; simpl. rewrite !upd_same.
    split; [split; [lia | reflexivity] | ].
    split; [reflexivity | ].
    intros j Hj. rewrite !(upd_other (short_cuts a) i j (top a) Hj),
      (upd_other (values a) i j v Hj). split; [ | reflexivity].
    unfold upd.
    destruct (Z.eqb_spec (short_cuts a j) (top a)) as [E | E]; split;
      intros [H1 H2]; try lia; split; auto; lia.
Qed.

Lemma Set_Get a i v :
  wf a -> 0 <= i < length a ->
  exists a',
    Set_ a i v = Ok a' /\ wf a' /\
    length a' = length a /\ def a' = def a /\
    Get a' i = Ok v /\
    forall j, j <> i -> Get a' j = Get a j.
Proof.
  intros Hwf Hi.
  destruct (Set_spec a i v Hwf Hi)
    as (a' & HS & Hwf' & Hl & Hd & Hii & Hv & Ho).
  exists a'. do 4 (split; [assumption | ]). split.
  - rewrite Get_init by (rewrite ?Hl; assumption). now rewrite Hv.
  - intros j Hj. destruct (Ho j Hj) as [Hiff Hval].
    assert (Hr : 0 <= j < length a \/ ~ 0 <= j < length a) by lia.
    destruct Hr as [Hr | Hr].
    + destruct (is_init_dec a j) as [Hy | Hn].
      * rewrite !Get_init by (rewrite ?Hl; tauto). now rewrite Hval.
      * rewrite !Get_not_init by (rewrite ?Hl; tauto). now rewrite Hd.
    + rewrite !Get_out by (rewrite ?Hl; assumption). reflexivity.
Qed.

Lemma last_write_None (ws : list (Z * Value)) j :
  ~ In j (map fst ws) -> last_write ws j = None.
Proof.
  induction ws as [ | [i v] ws IH]; simpl; intros H; [reflexivity | ].
  rewrite IH by tauto.
  destruct (Z.eqb_spec i j); [tauto | reflexivity].
Qed.

Lemma SetAll_Get (ws : list (Z * Value)) : forall a,
  wf a -> (forall w, In w ws -> 0 <= fst w < length a) ->
  exists a',
    SetAll a ws = Ok a' /\ wf a' /\
    length a' = length a /\ def a' = def a /\
    forall j, Get a' j = match last_write ws j with
                         | Some x => if (0 <=? j) && (j <? length a)
                                     then Ok x else Err OutOfRange
                         | None => Get a j
                         end.
Proof.
  induction ws as [ | [i v] ws IH]; intros a Hwf Hr; simpl.
  - exists a. auto.
  - assert (Hi : 0 <= i < length a) by (apply (Hr (i, v)); now left).
    destruct (Set_Get a i v Hwf Hi) as (a1 & HS & Hwf1 & Hl1 & Hd1 & Hg & Ho).
    rewrite HS; simpl.
    destruct (IH a1 Hwf1) as (a' & HA & Hwf' & Hl' & Hd' & Hget).
    { intros w Hw. rewrite Hl1. apply Hr. now right. }
    exists a'. split; [exact HA | ]. split; [exact Hwf' | ].
    do 2 (split; [congruence | ]).
    intros j. rewrite Hget, Hl1.
    destruct (last_write ws j); [reflexivity | ].
    destruct (Z.eqb_spec i j) as [<- | Hne].
    + rewrite Hg. zify_bool; simpl; try lia; reflexivity.
    + apply Ho. congruence.
Qed.

End ArrayFacts.


(** C2 (lazy-array default read).  For every freshly constructed array, of
    any length [len], default [d] and initial buffer contents [m], and every
    history [ws] of [Set] calls on in-range indices: the calls succeed;
    [Get] on an in-range index that was never passed to [Set] returns the
    default (with [ws = []]: every read of the fresh array does); and after
    one more [Set(i, v)], [Get(i)] returns [v] while [Get(j)] on every other
    never-written in-range index [j] still returns the default. *)
Theorem lazy_array_default_read :
  forall (Value : Type) (m : InitArr.RawMem Value) (len : Z) (d : Value)
         (ws : list (Z * Value)),
    (forall w, In w ws -> 0 <= fst w < len) ->
    exists a,
      InitArr.SetAll (InitArr.New m len d) ws = Ok a /\
      (forall j, 0 <= j < len -> ~ In j (map fst ws) ->
                 InitArr.Get a j = Ok d) /\
      (forall i v, 0 <= i < len ->
         exists a',
           InitArr.Set_ a i v = Ok a' /\
           InitArr.Get a' i = Ok v /\
           forall j, 0 <= j < len -> j <> i -> ~ In j (map fst ws) ->
                     InitArr.Get a' j = Ok d).
Proof.
  intros Value m len d ws Hr.
  destruct (SetAll_Get ws (InitArr.New m len d) (wf_New m len d) Hr)
    as (a & HS & Hwf & Hl & Hd & Hget).
  simpl in Hl, Hd.
  assert (Hdef : forall j, 0 <= j < len -> ~ In j (map fst ws) ->
                           InitArr.Get a j = Ok d).
  { intros j Hj Hn. rewrite Hget, (last_write_None ws j Hn).
    now apply Get_New. }
  exists a. split; [exact HS | ]. split; [exact Hdef | ].
  intros i v Hi.
  destruct (Set_Get a i v Hwf) as (a' & HS' & _ & _ & _ & Hg & Ho).
  { now rewrite Hl. }
  exists a'. split; [exact HS' | ]. split; [exact Hg | ].
  intros j Hj Hne Hn. rewrite (Ho j Hne). now apply Hdef.
Qed.

(** The example of the specification: length 5, default -1. *)
Lemma lazy_array_default_read_witness :
  InitArr.Get (InitArr.New hostile_mem 5 (-1)) 3 = Ok (-1) /\
  exists a',
    InitArr.Set_ (InitArr.New hostile_mem 5 (-1)) 3 42 = Ok a' /\
    InitArr.Get a' 3 = Ok 42 /\
    InitArr.Get a' 2 = Ok (-1).
Proof.
  destruct (lazy_array_default_read Z hostile_mem 5 (-1) [])
    as (a & HS & Hdef & Hset).
  { intros w []. }
  injection HS as <-.
  split.
  - apply Hdef; [lia | intros []].
  - destruct (Hset 3 42 ltac:(lia)) as (a' & HS' & Hg & Ho).
    exists a'. split; [exact HS' | ]. split; [exact Hg | ].
    apply Ho; [lia | lia | intros []].
Defined.

(** C9 (copy constructor).  The copy constructor copies entries
    [0 .. top - 1] of all three buffers, but [values] and [short_cuts] are
    indexed by array index, not by write position.  On the array of length
    5 and default -1 after [Set(4, 42)], whatever the fresh buffers hold:
    the source reads 42 at index 4, and the copy reads there either the
    default or what its own uninitialised [values] buffer holds. *)
Theorem copy_loses_written_slot :
  forall (m m' : InitArr.RawMem Z),
  exists a,
    InitArr.Set_ (InitArr.New m 5 (-1)) 4 42 = Ok a /\
    InitArr.Get a 4 = Ok 42 /\
    InitArr.Length (InitArr.Copy m' a) = InitArr.Length a /\
    InitArr.Default (InitArr.Copy m' a) = InitArr.Default a /\
    (InitArr.Get (InitArr.Copy m' a) 4 = Ok (-1) \/
     InitArr.Get (InitArr.Copy m' a) 4 = Ok (InitArr.raw_values m' 4)).
Proof.
  intros m m'. eexists. split; [reflexivity | ].
  split; [reflexivity | ]. split; [reflexivity | ]. split; [reflexivity | ].
  unfold InitArr.Get, InitArr.IsInitialized, InitArr.Copy; simpl.
  unfold upd; simpl.
  destruct (Z.ltb_spec (InitArr.raw_short_cuts m' 4) 1); simpl; auto.
  destruct (Z.geb_spec (InitArr.raw_short_cuts m' 4) 0); simpl; auto.
  replace (InitArr.raw_short_cuts m' 4) with 0 by lia. simpl. auto.
Qed.

(** * The table does not depend on what fresh buffers hold *)

Lemma res_rel_bind {A B C D : Type} (R : A -> B -> Prop) (S : C -> D -> Prop)
      (r1 : result A) (r2 : result B) (f : A -> result C) (g : B -> result D) :
  res_rel R r1 r2 ->
  (forall x y, R x y -> res_rel S (f x) (g y)) ->
  res_rel S (bind r1 f) (bind r2 g).
Proof.
  destruct r1, r2; simpl; intros H Hf; try contradiction; auto.
Qed.

Lemma res_rel_eq_bind {A C D : Type} (S : C -> D -> Prop)
      (r : result A) (f : A -> result C) (g : A -> result D) :
  (forall x, r = Ok x -> res_rel S (f x) (g x)) ->
  res_rel S (bind r f) (bind r g).
Proof. destruct r; simpl; auto. Qed.

Section TableFacts.
Import InitArr HTable.
Context {Value : Type}.
Implicit Types (a b : InitializedArray (option (HTableCell Value))).
Implicit Types (t u : HashTable Value) (c d : HTableCell Value).
Implicit Types (i j k ky hash : Z) (elem : option (HTableCell Value)).

Lemma New_sim (m m' : RawMem (option (HTableCell Value))) len :
  arr_sim (New m len None) (New m' len None).
Proof.
  split; [apply wf_New | ]. split; [apply wf_New | ].
  do 3 (split; [reflexivity | ]). intros j.
  assert (H : 0 <= j < len \/ ~ 0 <= j < len) by lia.
  destruct H as [H | H].
  - now rewrite !Get_New.
  - now rewrite !Get_out.
Qed.

Lemma Set_sim a b i v :
  arr_sim a b -> res_rel arr_sim (Set_ a i v) (Set_ b i v).
Proof.
  intros (Hwa & Hwb & Hl & Hda & Hdb & Hg).
  assert (H : 0 <= i < length a \/ ~ 0 <= i < length a) by lia.
  destruct H as [H | H].
  - destruct (Set_Get a i v Hwa H) as (a' & -> & Hwa' & Hla & Hda' & Hga & Hoa).
    destruct (Set_Get b i v Hwb) as (b' & -> & Hwb' & Hlb & Hdb' & Hgb & Hob).
    { now rewrite <- Hl. }
    simpl. split; [exact Hwa' | ]. split; [exact Hwb' | ].
    split; [congruence | ]. split; [congruence | ]. split; [congruence | ].
    intros j. destruct (Z.eq_dec j i) as [-> | Hne].
    + now rewrite Hga, Hgb.
    + now rewrite Hoa, Hob.
  - unfold Set_. rewrite !IsInitialized_out by (rewrite <- ?Hl; assumption).
    reflexivity.
Qed.

Lemma Get_Some_init a i c :
  def a = None -> Get a i = Ok (Some c) -> 0 <= i < length a /\ is_init a i.
Proof.
  intros Hd Hg. unfold Get in Hg.
  apply bind_Ok in Hg as (b & Hb & Hv).
  apply IsInitialized_inv in Hb as [Hr Hb]. split; [exact Hr | ].
  destruct b; [now apply Hb | ]. rewrite Hd in Hv. discriminate.
Qed.

Lemma poke_Get a i c d :
  wf a -> def a = None -> Get a i = Ok (Some d) ->
  wf (poke a i c) /\ Get (poke a i c) i = Ok (Some c) /\
  forall j, j <> i -> Get (poke a i c) j = Get a j.
Proof.
  intros Hwf Hd Hg. destruct (Get_Some_init a i d Hd Hg) as [Hr Hi].
  split; [exact Hwf | ]. split.
  - rewrite Get_init; [simpl; now rewrite upd_same | exact Hr | exact Hi].
  - intros j Hj. unfold Get, IsInitialized; simpl.
    now rewrite upd_other.
Qed.

Lemma poke_sim a b i c d :
  arr_sim a b -> Get a i = Ok (Some d) ->
  arr_sim (poke a i c) (poke b i c).
Proof.
  intros (Hwa & Hwb & Hl & Hda & Hdb & Hg) Hc.
  destruct (poke_Get a i c d Hwa Hda Hc) as (Hwa' & Hga & Hoa).
  rewrite Hg in Hc.
  destruct (poke_Get b i c d Hwb Hdb Hc) as (Hwb' & Hgb & Hob).
  split; [exact Hwa' | ]. split; [exact Hwb' | ].
  do 3 (split; [assumption | ]).
  intros j. destruct (Z.eq_dec j i) as [-> | Hne].
  - now rewrite Hga, Hgb.
  - now rewrite Hoa, Hob.
Qed.

Section Probing.
Variables t u : HashTable Value.
Hypothesis Hsize : size t = size u.
Hypothesis Hget : forall j, Get (elements t) j = Get (elements u) j.

Lemma Hash_eq ky k : Hash t ky k = Hash u ky k.
Proof. unfold Hash. now rewrite Hsize. Qed.

Lemma FindKey_loop_eq n : forall ky k hash elem,
  FindKey_loop n t ky k hash elem = FindKey_loop n u ky k hash elem.
Proof.
  induction n as [ | n IH]; intros; simpl; [reflexivity | ].
  destruct elem as [c | ]; [ | reflexivity].
  rewrite Hsize, Hash_eq, Hget.
  destruct (k <? size u); [ | reflexivity].
  destruct (GetKey c =? ky); [reflexivity | ].
  destruct (Get (elements u) (Hash u ky (k + 1))); simpl; auto.
Qed.

Lemma FindKey_eq ky : FindKey t ky = FindKey u ky.
Proof.
  unfold FindKey. rewrite Hash_eq, Hget.
  destruct (Get (elements u) (Hash u ky 0)); [ | reflexivity].
  cbn [bind]. now rewrite FindKey_loop_eq, Hsize.
Qed.

Lemma Insert_loop_eq n : forall ky k hash elem,
  Insert_loop n t ky k hash elem = Insert_loop n u ky k hash elem.
Proof.
  induction n as [ | n IH]; intros; simpl; [reflexivity | ].
  destruct elem as [c | ]; [ | reflexivity].
  rewrite Hsize, Hash_eq, Hget.
  destruct (k <=? size u); [ | reflexivity].
  destruct ((GetKey c =? ky) || CELL_STATE_eqb (GetCellState c) EMPTY);
    [reflexivity | ].
  destruct (Get (elements u) (Hash u ky (k + 1))); simpl; auto.
Qed.

Lemma Find_eq ky : Find t ky = Find u ky.
Proof.
  unfold Find. rewrite FindKey_eq.
  destruct (FindKey u ky) as [new_key | e]; [ | reflexivity].
  cbn [bind]. destruct (new_key <? 0); [reflexivity | ].
  now rewrite Hget.
Qed.

Lemma Exists_eq ky : Exists t ky = Exists u ky.
Proof. unfold Exists. now rewrite FindKey_eq. Qed.

Lemma count_full_eq n : forall i,
  count_full n i (elements t) = count_full n i (elements u).
Proof.
  induction n as [ | n IH]; intros; simpl; [reflexivity | ].
  rewrite Hget. destruct (Get (elements u) i); [ | reflexivity].
  cbn [bind]. now rewrite IH.
Qed.

Lemma full_slots_eq : full_slots t = full_slots u.
Proof. unfold full_slots. now rewrite Hsize, count_full_eq. Qed.

End Probing.

Lemma tbl_sim_get t u :
  tbl_sim t u -> forall j, Get (elements t) j = Get (elements u) j.
Proof. intros H. apply H. Qed.

Lemma tbl_sim_size t u : tbl_sim t u -> size t = size u.
Proof. intros H. apply H. Qed.

Lemma ReHash_loop_sim ins1 ins2 n :
  ins_sim ins1 ins2 ->
  forall i a b t u,
    arr_sim a b -> tbl_sim t u ->
    res_rel tbl_sim (ReHash_loop ins1 n i a t) (ReHash_loop ins2 n i b u).
Proof.
  intros Hins. induction n as [ | n IH]; intros i a b t u Hab Htu;
    cbn [ReHash_loop].
  - exact Htu.
  - assert (Hg : Get a i = Get b i) by apply Hab. rewrite Hg.
    apply res_rel_eq_bind. intros [c | ] _.
    + destruct (CELL_STATE_eqb (GetCellState c) EMPTY).
      * apply res_rel_bind with (R := arr_sim); [now apply Set_sim | ].
        intros; now apply IH.
      * apply res_rel_bind with (R := tbl_sim); [now apply Hins | ].
        intros; now apply IH.
    + now apply IH.
Qed.

Lemma ReHash_with_sim (al1 al2 : Z -> RawMem (option (HTableCell Value)))
      fuel ins1 ins2 dir t u :
  ins_sim ins1 ins2 -> tbl_sim t u ->
  res_rel tbl_sim (ReHash_with al1 fuel ins1 dir t)
                  (ReHash_with al2 fuel ins2 dir u).
Proof.
  intros Hins Htu. pose proof Htu as (Hel & Hs & Ht).
  unfold ReHash_with. rewrite Hs, Ht.
  assert (Hrebuild : forall new_size,
    res_rel tbl_sim
      (ReHash_loop ins1 (Z.to_nat (size u)) 0 (elements t)
         {| elements := new_elements al1 new_size; size := new_size;
            total_elements := 0 |})
      (ReHash_loop ins2 (Z.to_nat (size u)) 0 (elements u)
         {| elements := new_elements al2 new_size; size := new_size;
            total_elements := 0 |})).
  { intros ns. apply ReHash_loop_sim; [exact Hins | exact Hel | ].
    split; [apply New_sim | split; reflexivity]. }
  destruct (_ && _).
  - apply res_rel_eq_bind. intros; apply Hrebuild.
  - destruct (_ && _).
    + apply res_rel_eq_bind. intros; apply Hrebuild.
    + exact Htu.
Qed.

Lemma Insert_sim (al1 al2 : Z -> RawMem (option (HTableCell Value)))
      fuel :
  ins_sim (Insert al1 fuel) (Insert al2 fuel).
Proof.
  induction fuel as [ | fuel IH]; intros t u ky v Htu; cbn [Insert];
    [reflexivity | ].
  pose proof Htu as (Hel & Hs & Ht).
  pose proof (tbl_sim_get t u Htu) as Hg.
  rewrite (FindKey_eq t u Hs Hg).
  apply res_rel_eq_bind. intros is_exist _.
  destruct (is_exist >? 0).
  - rewrite Hg. apply res_rel_eq_bind. intros _ _.
    apply res_rel_bind with (R := arr_sim); [now apply Set_sim | ].
    intros x y Hxy. simpl. now split.
  - rewrite (Hash_eq t u Hs), Hg. apply res_rel_eq_bind. intros elem _.
    rewrite (Insert_loop_eq t u Hs Hg), Hs.
    apply res_rel_eq_bind. intros [[k hash] elem'] _.
    apply res_rel_bind with (R := arr_sim); [now apply Set_sim | ].
    intros x y Hxy. apply ReHash_with_sim; [exact IH | ].
    split; [exact Hxy | ]. simpl. split; [reflexivity | now rewrite Ht].
Qed.

Lemma ReHash_sim (al1 al2 : Z -> RawMem (option (HTableCell Value)))
      fuel dir t u :
  tbl_sim t u ->
  res_rel tbl_sim (ReHash al1 fuel dir t) (ReHash al2 fuel dir u).
Proof. intros. apply ReHash_with_sim; [apply Insert_sim | assumption]. Qed.

Lemma Remove_sim (al1 al2 : Z -> RawMem (option (HTableCell Value)))
      fuel t u ky :
  tbl_sim t u ->
  res_rel tbl_sim (Remove al1 fuel t ky) (Remove al2 fuel u ky).
Proof.
  intros Htu. pose proof Htu as (Hel & Hs & Ht).
  pose proof (tbl_sim_get t u Htu) as Hg.
  unfold Remove. rewrite (FindKey_eq t u Hs Hg).
  apply res_rel_eq_bind. intros is_exist _.
  destruct (is_exist <? 0); [exact Htu | ].
  rewrite Hg. apply res_rel_eq_bind. intros [c | ] Hc; [ | reflexivity].
  destruct (CELL_STATE_eqb (GetCellState c) FULL); [ | exact Htu].
  apply ReHash_sim. split; [ | simpl; split; congruence].
  rewrite <- Hg in Hc.
  exact (poke_sim _ _ is_exist (SetCellState c EMPTY) c Hel Hc).
Qed.

Lemma Merge_loop_sim (al1 al2 : Z -> RawMem (option (HTableCell Value)))
      fuel n src1 src2 :
  tbl_sim src1 src2 ->
  forall i t u,
    tbl_sim t u ->
    res_rel tbl_sim (Merge_loop al1 fuel n i src1 t)
                    (Merge_loop al2 fuel n i src2 u).
Proof.
  intros Hsrc. induction n as [ | n IH]; intros i t u Htu; cbn [Merge_loop].
  - exact Htu.
  - rewrite (tbl_sim_get _ _ Hsrc).
    apply res_rel_eq_bind. intros [c | ] _; [ | now apply IH].
    destruct (CELL_STATE_eqb (GetCellState c) EMPTY); [now apply IH | ].
    apply res_rel_bind with (R := tbl_sim); [now apply Insert_sim | ].
    intros; now apply IH.
Qed.

Lemma Merge_sim (al1 al2 : Z -> RawMem (option (HTableCell Value)))
      fuel t1 t2 u1 u2 :
  tbl_sim t1 u1 -> tbl_sim t2 u2 ->
  res_rel tbl_sim (Merge al1 fuel t1 t2) (Merge al2 fuel u1 u2).
Proof.
  intros H1 H2. unfold Merge.
  rewrite (tbl_sim_size _ _ H1), (tbl_sim_size _ _ H2).
  apply res_rel_eq_bind. intros ns _.
  apply res_rel_bind with (R := tbl_sim).
  - apply Merge_loop_sim; [exact H1 | ].
    split; [apply New_sim | split; reflexivity].
  - intros. now apply Merge_loop_sim.
Qed.

Lemma run_sim (al1 al2 : Z -> RawMem (option (HTableCell Value)))
      fuel os :
  forall t u,
    tbl_sim t u -> res_rel tbl_sim (run al1 fuel t os) (run al2 fuel u os).
Proof.
  induction os as [ | o os IH]; intros t u Htu; cbn [run]; [exact Htu | ].
  apply res_rel_bind with (R := tbl_sim); [ | exact IH].
  destruct o; cbn [apply_op]; [now apply Insert_sim | now apply Remove_sim].
Qed.

Lemma HashTable_new_sim (al1 al2 : Z -> RawMem (option (HTableCell Value)))
  : tbl_sim (HashTable_new al1) (HashTable_new al2).
Proof. split; [apply New_sim | split; reflexivity]. Qed.

(** A run from the empty table on one allocator is matched on any other. *)
Lemma run_transfer (al1 al2 : Z -> RawMem (option (HTableCell Value)))
      fuel os u :
  run al2 fuel (HashTable_new al2) os = Ok u ->
  exists t, run al1 fuel (HashTable_new al1) os = Ok t /\ tbl_sim t u.
Proof.
  intros Hu.
  pose proof (run_sim al1 al2 fuel os _ _ (HashTable_new_sim al1 al2)) as H.
  rewrite Hu in H.
  destruct (run al1 fuel (HashTable_new al1) os) as [t | e];
    [ | contradiction].
  now exists t.
Qed.

End TableFacts.

(** * Runs of the table from the empty state *)

Lemma step_transfer {Value : Type} al1 al2 fuel
      (t u u' : HTable.HashTable Value) o :
  tbl_sim t u ->
  HTable.apply_op al2 fuel u o = Ok u' ->
  exists t', HTable.apply_op al1 fuel t o = Ok t' /\ tbl_sim t' u'.
Proof.
  intros Htu Hu.
  assert (H : res_rel tbl_sim (HTable.apply_op al1 fuel t o)
                              (HTable.apply_op al2 fuel u o)).
  { destruct o; [now apply Insert_sim | now apply Remove_sim]. }
  rewrite Hu in H.
  destruct (HTable.apply_op al1 fuel t o) as [t' | e]; [ | contradiction].
  now exists t'.
Qed.

Section Scenarios.
Import HTable.
Context {Value : Type}.
Variable alloc : Z -> InitArr.RawMem (option (HTableCell Value)).

Lemma sim_Find (t u : HashTable Value) ky r :
  tbl_sim t u -> Find u ky = r -> Find t ky = r.
Proof.
  intros H <-. apply Find_eq; [apply H | apply (tbl_sim_get _ _ H)].
Qed.

Lemma sim_Exists (t u : HashTable Value) ky r :
  tbl_sim t u -> Exists u ky = r -> Exists t ky = r.
Proof.
  intros H <-. apply Exists_eq; [apply H | apply (tbl_sim_get _ _ H)].
Qed.

Lemma sim_full_slots (t u : HashTable Value) r :
  tbl_sim t u -> full_slots u = r -> full_slots t = r.
Proof.
  intros H <-. apply full_slots_eq; [apply H | apply (tbl_sim_get _ _ H)].
Qed.

Lemma sim_Get (t u : HashTable Value) j r :
  tbl_sim t u -> InitArr.Get (elements u) j = r ->
  InitArr.Get (elements t) j = r.
Proof. intros H <-. apply (tbl_sim_get _ _ H). Qed.

Lemma sim_GetSize (t u : HashTable Value) r :
  tbl_sim t u -> GetSize u = r -> GetSize t = r.
Proof. intros H <-. apply H. Qed.

Lemma sim_GetTotalElements (t u : HashTable Value) r :
  tbl_sim t u -> GetTotalElements u = r -> GetTotalElements t = r.
Proof. intros H <-. apply H. Qed.

End Scenarios.

(** C1 (round trip).  On the empty table, with any contents of the fresh
    buffers, [Insert(0, v)] stores the record in slot 0, and [Find(0)]
    returns NULL: [FindKey] compares the key it found with [EMPTY], that is
    with 0, and reports "absent". *)
Theorem insert_zero_then_find_null :
  forall (Value : Type)
         (alloc : Z -> InitArr.RawMem (option (HTable.HTableCell Value)))
         (v : Value) (fuel : nat),
  exists t,
    HTable.Insert alloc (S fuel) (HTable.HashTable_new alloc) 0 v = Ok t /\
    InitArr.Get (HTable.elements t) 0 = Ok (Some (HTable.mkFull 0 v)) /\
    HTable.Find t 0 = Ok None.
Proof.
  intros Value alloc v fuel.
  destruct (step_transfer alloc (zero_mem Value) (S fuel) _ _ _
              (HTable.OpInsert 0 v)
              (HashTable_new_sim alloc (zero_mem Value)) eq_refl)
    as (t & Ht & Hs).
  exists t. split; [exact Ht | ]. split.
  - apply (sim_Get _ _ _ _ Hs). reflexivity.
  - apply (sim_Find _ _ _ _ Hs). reflexivity.
Qed.

(** C4 (live count).  [Insert(1, v); Remove(1); Insert(1, w)] on the empty
    table: the second insertion finds the tombstone of key 1 through
    [FindKey] and takes the update path, which leaves [total_elements]
    alone.  The table then has one FULL slot and reports 0 elements, and
    one more [Remove(1)] brings the count to -1. *)
Theorem live_count_drifts_after_reinsert :
  forall (Value : Type)
         (alloc : Z -> InitArr.RawMem (option (HTable.HTableCell Value)))
         (v w : Value) (fuel : nat),
  exists t t',
    HTable.run alloc (S fuel) (HTable.HashTable_new alloc)
      [HTable.OpInsert 1 v; HTable.OpRemove 1; HTable.OpInsert 1 w] = Ok t /\
    HTable.full_slots t = Ok 1 /\
    HTable.GetTotalElements t = 0 /\
    HTable.Remove alloc (S fuel) t 1 = Ok t' /\
    HTable.full_slots t' = Ok 0 /\
    HTable.GetTotalElements t' = -1.
Proof.
  intros Value alloc v w fuel.
  destruct (run_transfer alloc (zero_mem Value) (S fuel)
              [HTable.OpInsert 1 v; HTable.OpRemove 1; HTable.OpInsert 1 w]
              _ eq_refl) as (t & Ht & Hs).
  destruct (step_transfer alloc (zero_mem Value) (S fuel) _ _ _
              (HTable.OpRemove 1) Hs eq_refl) as (t' & Ht' & Hs').
  exists t, t'. split; [exact Ht | ].
  split; [apply (sim_full_slots _ _ _ Hs); reflexivity | ].
  split; [apply (sim_GetTotalElements _ _ _ Hs); reflexivity | ].
  split; [exact Ht' | ].
  split; [apply (sim_full_slots _ _ _ Hs'); reflexivity | ].
  apply (sim_GetTotalElements _ _ _ Hs'); reflexivity.
Qed.

(** The other path to the same drift: a tombstone reused for a different
    key.  [Insert(1, v); Remove(1); Insert(8, w)]: the insertion loop stops
    at the tombstone of key 1, and the count is decremented for it a second
    time before it is incremented. *)
Lemma live_count_drifts_after_reuse :
  forall (Value : Type)
         (alloc : Z -> InitArr.RawMem (option (HTable.HTableCell Value)))
         (v w : Value) (fuel : nat),
  exists t,
    HTable.run alloc (S fuel) (HTable.HashTable_new alloc)
      [HTable.OpInsert 1 v; HTable.OpRemove 1; HTable.OpInsert 8 w] = Ok t /\
    HTable.full_slots t = Ok 1 /\
    HTable.GetTotalElements t = 0.
Proof.
  intros Value alloc v w fuel.
  destruct (run_transfer alloc (zero_mem Value) (S fuel)
              [HTable.OpInsert 1 v; HTable.OpRemove 1; HTable.OpInsert 8 w]
              _ eq_refl) as (t & Ht & Hs).
  exists t. split; [exact Ht | ].
  split; [apply (sim_full_slots _ _ _ Hs); reflexivity | ].
  apply (sim_GetTotalElements _ _ _ Hs); reflexivity.
Qed.

(** C5 (lookup after removal).  [Insert(1, v); Remove(1)] on the empty
    table: [Find(1)] returns the tombstone, a record of key 1, value [v] and
    state EMPTY, not NULL, and [Exists(1)] returns true.  [FindKey] tests
    the key of the cell against [EMPTY] where the state was meant. *)
Theorem find_returns_tombstone :
  forall (Value : Type)
         (alloc : Z -> InitArr.RawMem (option (HTable.HTableCell Value)))
         (v : Value) (fuel : nat),
  exists t,
    HTable.run alloc (S fuel) (HTable.HashTable_new alloc)
      [HTable.OpInsert 1 v; HTable.OpRemove 1] = Ok t /\
    HTable.Find t 1 =
      Ok (Some {| HTable.key := 1; HTable.value := v;
                  HTable.state := HTable.EMPTY |}) /\
    HTable.Exists t 1 = Ok true /\
    HTable.GetTotalElements t = 0.
Proof.
  intros Value alloc v fuel.
  destruct (run_transfer alloc (zero_mem Value) (S fuel)
              [HTable.OpInsert 1 v; HTable.OpRemove 1]
              _ eq_refl) as (t & Ht & Hs).
  exists t. split; [exact Ht | ].
  split; [apply (sim_Find _ _ _ _ Hs); reflexivity | ].
  split; [apply (sim_Exists _ _ _ _ Hs); reflexivity | ].
  apply (sim_GetTotalElements _ _ _ Hs); reflexivity.
Qed.

(** C6 (presence flag).  [Insert(7, v)] on the empty table of capacity 7
    stores key 7 in slot 0.  [Find(7)] returns the record, since [Find]
    tests [FindKey(key) < 0]; [Exists(7)] returns false, since [Exists]
    tests [FindKey(key) > 0]. *)
Theorem exists_false_for_live_key_in_slot_0 :
  forall (Value : Type)
         (alloc : Z -> InitArr.RawMem (option (HTable.HTableCell Value)))
         (v : Value) (fuel : nat),
  exists t,
    HTable.Insert alloc (S fuel) (HTable.HashTable_new alloc) 7 v = Ok t /\
    HTable.FindKey t 7 = Ok 0 /\
    HTable.Find t 7 = Ok (Some (HTable.mkFull 7 v)) /\
    HTable.Exists t 7 = Ok false.
Proof.
  intros Value alloc v fuel.
  destruct (step_transfer alloc (zero_mem Value) (S fuel) _ _ _
              (HTable.OpInsert 7 v)
              (HashTable_new_sim alloc (zero_mem Value)) eq_refl)
    as (t & Ht & Hs).
  exists t. split; [exact Ht | ]. split.
  - rewrite (FindKey_eq _ _ (tbl_sim_size _ _ Hs) (tbl_sim_get _ _ Hs)).
    reflexivity.
  - split; [apply (sim_Find _ _ _ _ Hs); reflexivity | ].
    apply (sim_Exists _ _ _ _ Hs); reflexivity.
Qed.

(** C10 (insert frame).  On the empty table, [Insert(6, v1)] makes key 6
    live in slot 6.  [Insert(13, v2)] then probes with step
    [1 + 13 % 7 = 7], a multiple of the capacity 7: every probe lands on
    slot 6, the loop runs out, and the record of key 6 is replaced by that
    of key 13.  Key 6 is gone, and the count is still 1. *)
Theorem insert_overwrites_other_key :
  forall (Value : Type)
         (alloc : Z -> InitArr.RawMem (option (HTable.HTableCell Value)))
         (v1 v2 : Value) (fuel : nat),
  exists t1 t2,
    HTable.Insert alloc (S fuel) (HTable.HashTable_new alloc) 6 v1 = Ok t1 /\
    HTable.Find t1 6 = Ok (Some (HTable.mkFull 6 v1)) /\
    HTable.Insert alloc (S fuel) t1 13 v2 = Ok t2 /\
    HTable.Find t2 6 = Ok None /\
    HTable.Find t2 13 = Ok (Some (HTable.mkFull 13 v2)) /\
    HTable.GetTotalElements t2 = 1.
Proof.
  intros Value alloc v1 v2 fuel.
  destruct (step_transfer alloc (zero_mem Value) (S fuel) _ _ _
              (HTable.OpInsert 6 v1)
              (HashTable_new_sim alloc (zero_mem Value)) eq_refl)
    as (t1 & Ht1 & Hs1).
  destruct (step_transfer alloc (zero_mem Value) (S fuel) _ _ _
              (HTable.OpInsert 13 v2) Hs1 eq_refl) as (t2 & Ht2 & Hs2).
  exists t1, t2. split; [exact Ht1 | ].
  split; [apply (sim_Find _ _ _ _ Hs1); reflexivity | ].
  split; [exact Ht2 | ].
  split; [apply (sim_Find _ _ _ _ Hs2); reflexivity | ].
  split; [apply (sim_Find _ _ _ _ Hs2); reflexivity | ].
  apply (sim_GetTotalElements _ _ _ Hs2); reflexivity.
Qed.

(** * The primality test and the search for the next prime *)

Section Primality.
Import HTable.

Lemma rem_eqb_divide n d :
  0 <= n -> 0 < d -> (Z.rem n d =? 0) = true <-> (d | n).
Proof.
  intros Hn Hd. rewrite Z.rem_mod_nonneg by assumption.
  rewrite Z.eqb_eq. apply Z.mod_divide. lia.
Qed.

Lemma rem_eqb_not_divide n d :
  0 <= n -> 0 < d -> (Z.rem n d =? 0) = false <-> ~ (d | n).
Proof.
  intros Hn Hd. rewrite <- (rem_eqb_divide n d Hn Hd).
  destruct (Z.rem n d =? 0); split; congruence.
Qed.

Lemma not_prime_divisor n d : 1 < d < n -> (d | n) -> ~ Z.prime n.
Proof. intros Hd Hdiv [_ Hp]. exact (Hp d Hd Hdiv). Qed.

Lemma no_divisor_prime n b :
  1 < n -> n < b * b -> 0 <= b -> no_divisor_below n b -> Z.prime n.
Proof.
  intros Hn Hb Hb0 Hnd. split; [exact Hn | ].
  intros x Hx [q Hq].
  assert (Hq1 : 1 < q < n) by nia.
  destruct (Z_lt_le_dec x b) as [Hlt | Hge].
  - apply (Hnd x); [lia | now exists q].
  - apply (Hnd q); [nia | exists x; lia].
Qed.

Lemma IsPrime_loop_spec n : 4 <= n ->
  forall f div m,
    (1 <= f)%nat -> n + 2 < Z.of_nat f + div ->
    div = 6 * m -> 1 <= m ->
    no_divisor_below n (div - 1) ->
    exists b, IsPrime_loop f div n = Ok b /\ (b = true <-> Z.prime n).
Proof.
  intros Hn. induction f as [ | f IH]; intros div m Hf Hfuel Hdiv Hm Hnd;
    [lia | ].
  cbn [IsPrime_loop].
  destruct (Z.leb_spec (div * div - 2 * div + 1) n) as [Hc | Hc].
  - assert (Hdn : div + 1 < n) by nia.
    destruct (Z.rem n (div - 1) =? 0) eqn:E1; cbn [orb].
    { exists false. split; [reflexivity | ].
      apply rem_eqb_divide in E1; [ | lia | lia].
      split; [discriminate | ]. intros Hp. exfalso.
      now apply (not_prime_divisor n (div - 1)); [lia | | ]. }
    destruct (Z.rem n (div + 1) =? 0) eqn:E2.
    { exists false. split; [reflexivity | ].
      apply rem_eqb_divide in E2; [ | lia | lia].
      split; [discriminate | ]. intros Hp. exfalso.
      now apply (not_prime_divisor n (div + 1)); [lia | | ]. }
    apply rem_eqb_not_divide in E1; [ | lia | lia].
    apply rem_eqb_not_divide in E2; [ | lia | lia].
    apply (IH (div + 6) (m + 1)); try lia.
    assert (H2 : ~ (2 | n)) by (apply Hnd; lia).
    assert (H3 : ~ (3 | n)) by (apply Hnd; lia).
    intros d Hd Hdn'.
    assert (Hcases : d < div - 1 \/ d = div - 1 \/ d = 2 * (3 * m) \/
                     d = div + 1 \/ d = 2 * (3 * m + 1) \/
                     d = 3 * (2 * m + 1) \/ d = 2 * (3 * m + 2)) by lia.
    destruct Hcases as [H | [-> | [-> | [-> | [-> | [-> | ->]]]]]].
    + now apply (Hnd d); [lia | ].
    + contradiction.
    + apply H2. eapply Z.divide_trans; [ | exact Hdn'].
      apply Z.divide_factor_l.
    + contradiction.
    + apply H2. eapply Z.divide_trans; [ | exact Hdn'].
      apply Z.divide_factor_l.
    + apply H3. eapply Z.divide_trans; [ | exact Hdn'].
      apply Z.divide_factor_l.
    + apply H2. eapply Z.divide_trans; [ | exact Hdn'].
      apply Z.divide_factor_l.
  - exists true. split; [reflexivity | ]. split; [intros _ | reflexivity].
    apply (no_divisor_prime n (div - 1)); [lia | nia | lia | exact Hnd].
Qed.

(** [IsPrime] decides primality of every number from 4 on. *)
Lemma IsPrime_spec n :
  4 <= n -> exists b, IsPrime n = Ok b /\ (b = true <-> Z.prime n).
Proof.
  intros Hn. unfold IsPrime.
  destruct (Z.eqb_spec n 1) as [H1 | _]; [lia | ]. cbn [orb].
  destruct (Z.rem n 2 =? 0) eqn:E2; cbn [orb].
  { exists false. split; [reflexivity | ].
    apply rem_eqb_divide in E2; [ | lia | lia].
    split; [discriminate | ]. intros Hp. exfalso.
    now apply (not_prime_divisor n 2); [lia | | ]. }
  destruct (Z.rem n 3 =? 0) eqn:E3.
  { exists false. split; [reflexivity | ].
    apply rem_eqb_divide in E3; [ | lia | lia].
    split; [discriminate | ]. intros Hp. exfalso.
    now apply (not_prime_divisor n 3); [lia | | ]. }
  apply rem_eqb_not_divide in E2; [ | lia | lia].
  apply rem_eqb_not_divide in E3; [ | lia | lia].
  apply (IsPrime_loop_spec n Hn _ 6 1); try lia.
  intros d Hd Hdn.
  assert (Hcases : d = 2 \/ d = 3 \/ d = 2 * 2) by lia.
  destruct Hcases as [-> | [-> | ->]]; try contradiction.
  apply E2. eapply Z.divide_trans; [ | exact Hdn]. apply Z.divide_factor_l.
Qed.

Lemma IsPrime_true n : 4 <= n -> IsPrime n = Ok true <-> Z.prime n.
Proof.
  intros Hn. destruct (IsPrime_spec n Hn) as (b & -> & Hb).
  rewrite <- Hb. split; congruence.
Qed.

Lemma IsPrime_false n : 4 <= n -> IsPrime n = Ok false <-> ~ Z.prime n.
Proof.
  intros Hn. destruct (IsPrime_spec n Hn) as (b & -> & Hb).
  rewrite <- Hb. destruct b; split; congruence.
Qed.

(** The loop of [IsPrime] never runs out of its [number + 1] rounds. *)
Lemma IsPrime_loop_total n : forall f div,
  (1 <= f)%nat -> n + 2 < Z.of_nat f + div -> 6 <= div ->
  exists b, IsPrime_loop f div n = Ok b.
Proof.
  induction f as [ | f IH]; intros div Hf Hfuel Hdiv; [lia | ].
  cbn [IsPrime_loop].
  destruct (Z.leb_spec (div * div - 2 * div + 1) n) as [Hc | Hc];
    [ | now exists true].
  destruct (_ || _); [now exists false | ].
  apply IH; nia.
Qed.

Lemma IsPrime_total n : exists b, IsPrime n = Ok b.
Proof.
  unfold IsPrime. destruct (_ || _); [now exists false | ].
  apply IsPrime_loop_total; lia.
Qed.

(** [FindNextPrime] returns the least prime above its argument. *)
Lemma FindNextPrime_spec fuel : forall n p,
  3 <= n -> FindNextPrime fuel n = Ok p ->
  n < p /\ Z.prime p /\ forall q, n < q < p -> ~ Z.prime q.
Proof.
  induction fuel as [ | fuel IH]; intros n p Hn H; [discriminate | ].
  cbn [FindNextPrime] in H.
  destruct (IsPrime_spec (n + 1) ltac:(lia)) as (b & Hb & Hpb).
  rewrite Hb in H. cbn [bind] in H. destruct b.
  - injection H as <-. split; [lia | ]. split; [now apply Hpb | ].
    intros q Hq. lia.
  - destruct (IH (n + 1) p ltac:(lia) H) as (Hlt & Hp & Hmin).
    split; [lia | ]. split; [exact Hp | ].
    intros q Hq. destruct (Z.eq_dec q (n + 1)) as [-> | Hne].
    + intros Hq1. apply Hpb in Hq1. discriminate.
    + apply Hmin. lia.
Qed.

Lemma FindNextPrime_mono fuel : forall n p fuel',
  FindNextPrime fuel n = Ok p -> (fuel <= fuel')%nat ->
  FindNextPrime fuel' n = Ok p.
Proof.
  induction fuel as [ | fuel IH]; intros n p fuel' H Hle; [discriminate | ].
  destruct fuel' as [ | fuel']; [lia | ].
  cbn [FindNextPrime] in *.
  destruct (IsPrime (n + 1)) as [[ | ] | e]; cbn [bind] in *;
    try assumption.
  apply IH; [assumption | lia].
Qed.

(** Every number above 1 has a prime divisor, and there is a prime above
    every number: the search of [FindNextPrime] ends. *)
Lemma divisor_below_dec m b :
  0 <= b ->
  no_divisor_below m b \/ exists d, 1 < d < b /\ (d | m).
Proof.
  intros Hb. pattern b. apply natlike_ind; [ | | exact Hb].
  - left. intros d Hd. lia.
  - intros x Hx [IH | (d & Hd & Hdm)].
    + destruct (Z_le_gt_dec x 1) as [Hx1 | Hx1].
      * left. intros d Hd. apply IH. lia.
      * destruct (Z.eqb_spec (m mod x) 0) as [E | E].
        -- right. exists x. split; [lia | ].
           apply Z.mod_divide; [lia | exact E].
        -- left. intros d Hd Hdm.
           destruct (Z.eq_dec d x) as [-> | Hne].
           ++ apply E. apply Z.mod_divide; [lia | exact Hdm].
           ++ apply (IH d); [lia | exact Hdm].
    + right. exists d. split; [lia | exact Hdm].
Qed.

Lemma prime_divisor_exists m : 1 < m -> exists p, Z.prime p /\ (p | m).
Proof.
  intros Hm. assert (H0 : 0 <= m) by lia. revert Hm.
  pattern m. apply Z_lt_induction; [ | exact H0].
  clear m H0. intros m IH Hm.
  destruct (divisor_below_dec m m ltac:(lia)) as [Hnd | (d & Hd & Hdm)].
  - exists m. split; [ | apply Z.divide_refl].
    split; [exact Hm | exact Hnd].
  - destruct (IH d ltac:(lia) ltac:(lia)) as (p & Hp & Hpd).
    exists p. split; [exact Hp | ]. now apply Z.divide_trans with d.
Qed.

Lemma zfact_pos n : 0 < zfact n.
Proof. induction n as [ | n IH]; cbn [zfact]; lia. Qed.

Lemma zfact_divide n : forall k, 1 <= k <= Z.of_nat n -> (k | zfact n).
Proof.
  induction n as [ | n IH]; intros k Hk; [lia | ]. cbn [zfact].
  destruct (Z.eq_dec k (Z.of_nat (S n))) as [-> | Hne].
  - apply Z.divide_factor_l.
  - apply Z.divide_mul_r. apply IH. lia.
Qed.

Lemma prime_above n : exists p, n < p /\ Z.prime p.
Proof.
  destruct (Z_lt_le_dec n 1) as [Hn | Hn].
  - exists 2. split; [lia | exact Z.prime_2].
  - pose proof (zfact_pos (Z.to_nat n)) as Hpos.
    destruct (prime_divisor_exists (zfact (Z.to_nat n) + 1) ltac:(lia))
      as (p & Hp & Hpd).
    exists p. split; [ | exact Hp].
    destruct (Z_lt_le_dec n p) as [ | Hle]; [assumption | exfalso].
    pose proof (Z.prime_ge_2 p Hp) as Hp2.
    assert (Hpf : (p | zfact (Z.to_nat n))) by (apply zfact_divide; lia).
    pose proof (Z.divide_add_cancel_r _ _ _ Hpf Hpd) as H1.
    apply Z.divide_1_r in H1. lia.
Qed.

Lemma FindNextPrime_reaches d : forall n p,
  3 <= n -> Z.prime p -> n < p <= n + Z.of_nat d ->
  exists q, FindNextPrime d n = Ok q.
Proof.
  induction d as [ | d IH]; intros n p Hn Hp Hr; [lia | ].
  cbn [FindNextPrime].
  destruct (IsPrime_spec (n + 1) ltac:(lia)) as (b & -> & Hb).
  cbn [bind]. destruct b; [now exists (n + 1) | ].
  apply (IH (n + 1) p); [lia | exact Hp | ].
  destruct (Z.eq_dec p (n + 1)) as [-> | Hne]; [ | lia].
  apply Hb in Hp. discriminate.
Qed.

(** With enough fuel, [FindNextPrime] returns. *)
Lemma FindNextPrime_total n :
  3 <= n ->
  exists fuel p, forall fuel', (fuel <= fuel')%nat ->
                               FindNextPrime fuel' n = Ok p.
Proof.
  intros Hn. destruct (prime_above n) as (p & Hlt & Hp).
  destruct (FindNextPrime_reaches (Z.to_nat (p - n)) n p Hn Hp ltac:(lia))
    as (q & Hq).
  exists (Z.to_nat (p - n)), q. intros fuel' Hle.
  now apply (FindNextPrime_mono _ _ _ _ Hq).
Qed.

End Primality.

(** * The capacity stays a prime, at least the initial capacity *)

Section Capacity.
Import HTable.
Context {Value : Type}.
Variable alloc : Z -> InitArr.RawMem (option (HTableCell Value)).
Implicit Types (t u : HashTable Value).

Lemma Qfloor_expand s : Qfloor (inject_Z (s * EXPAND_SIZE)) = 2 * s.
Proof. rewrite Qfloor_Z. unfold EXPAND_SIZE. lia. Qed.

Lemma Qfloor_reduce s : Qfloor (inject_Z s * REDUCE_SIZE) = s / 2.
Proof. unfold Qfloor, REDUCE_SIZE, Qmult, inject_Z. simpl. f_equal. lia. Qed.

Lemma prime_7 : Z.prime 7.
Proof. apply IsPrime_true; [lia | reflexivity]. Qed.

Lemma prime_above_7 s : Z.prime s -> 7 < s -> 11 <= s.
Proof.
  intros Hp Hs.
  destruct (Z_lt_le_dec s 11) as [Hlt | ]; [exfalso | assumption].
  assert (Hc : s = 2 * 4 \/ s = 3 * 3 \/ s = 2 * 5) by lia.
  destruct Hc as [-> | [-> | ->]];
    (eapply not_prime_divisor; [ | apply Z.divide_factor_l | exact Hp]; lia).
Qed.

Lemma prime_above_5 p : Z.prime p -> 5 < p -> 7 <= p.
Proof.
  intros Hp Hs.
  destruct (Z.eq_dec p (2 * 3)) as [-> | ]; [exfalso | lia].
  eapply not_prime_divisor; [ | apply Z.divide_factor_l | exact Hp]. lia.
Qed.

Lemma ReHash_loop_cap ins n :
  ins_cap ins ->
  forall i old t t',
    cap_ok t -> ReHash_loop ins n i old t = Ok t' -> cap_ok t'.
Proof.
  intros Hins. induction n as [ | n IH]; intros i old t t' Ht H;
    cbn [ReHash_loop] in H.
  - now injection H as <-.
  - apply bind_Ok in H as (elem & _ & H). destruct elem as [c | ].
    + destruct (CELL_STATE_eqb (GetCellState c) EMPTY).
      * apply bind_Ok in H as (old' & _ & H). now apply (IH _ _ _ _ Ht H).
      * apply bind_Ok in H as (t1 & H1 & H).
        apply (IH _ _ _ _ (Hins _ _ _ _ Ht H1) H).
    + now apply (IH _ _ _ _ Ht H).
Qed.

Lemma ReHash_with_cap fuel ins dir t t' :
  ins_cap ins -> cap_ok t ->
  ReHash_with alloc fuel ins dir t = Ok t' -> cap_ok t'.
Proof.
  intros Hins Ht H. pose proof Ht as [Hp H7]. unfold INIT_SIZE in H7.
  unfold ReHash_with in H.
  destruct (DIRECTION_eqb dir UP && _).
  - apply bind_Ok in H as (p & Hfp & H). rewrite Qfloor_expand in Hfp.
    apply FindNextPrime_spec in Hfp as (Hlt & Hpp & _); [ | lia].
    apply (ReHash_loop_cap _ _ Hins _ _ _ _) in H; [exact H | ].
    split; [exact Hpp | simpl; unfold INIT_SIZE; lia].
  - destruct (DIRECTION_eqb dir DOWN && (size t >? INIT_SIZE) && _) eqn:E.
    + apply andb_prop in E as [E _]. apply andb_prop in E as [_ E].
      unfold INIT_SIZE in E. apply Z.gtb_lt in E.
      pose proof (prime_above_7 _ Hp E) as H11.
      apply bind_Ok in H as (p & Hfp & H). rewrite Qfloor_reduce in Hfp.
      assert (H5 : 5 <= size t / 2) by (apply Z.div_le_lower_bound; lia).
      apply FindNextPrime_spec in Hfp as (Hlt & Hpp & _); [ | lia].
      pose proof (prime_above_5 p Hpp ltac:(lia)) as Hp7.
      apply (ReHash_loop_cap _ _ Hins _ _ _ _) in H; [exact H | ].
      split; [exact Hpp | exact Hp7].
    + now injection H as <-.
Qed.

Lemma Insert_cap fuel : ins_cap (Insert alloc fuel).
Proof.
  induction fuel as [ | fuel IH]; intros t ky v t' Ht H; [discriminate | ].
  cbn [Insert] in H.
  apply bind_Ok in H as (is_exist & _ & H).
  destruct (is_exist >? 0).
  - apply bind_Ok in H as (? & _ & H). apply bind_Ok in H as (els & _ & H).
    injection H as <-. exact Ht.
  - apply bind_Ok in H as (elem & _ & H).
    apply bind_Ok in H as ([[k hash] elem'] & _ & H).
    apply bind_Ok in H as (els & _ & H).
    apply (ReHash_with_cap _ _ _ _ _ IH) in H; [exact H | exact Ht].
Qed.

Lemma Remove_cap fuel t ky t' :
  cap_ok t -> Remove alloc fuel t ky = Ok t' -> cap_ok t'.
Proof.
  intros Ht H. unfold Remove in H.
  apply bind_Ok in H as (is_exist & _ & H).
  destruct (is_exist <? 0); [now injection H as <- | ].
  apply bind_Ok in H as (elem & _ & H).
  destruct elem as [c | ]; [ | discriminate].
  destruct (CELL_STATE_eqb (GetCellState c) FULL);
    [ | now injection H as <-].
  apply (ReHash_with_cap _ _ _ _ _ (Insert_cap fuel)) in H;
    [exact H | exact Ht].
Qed.

Lemma Merge_loop_cap fuel n src : forall i t t',
  cap_ok t -> Merge_loop alloc fuel n i src t = Ok t' -> cap_ok t'.
Proof.
  induction n as [ | n IH]; intros i t t' Ht H; cbn [Merge_loop] in H.
  - now injection H as <-.
  - apply bind_Ok in H as (elem & _ & H). destruct elem as [c | ].
    + destruct (CELL_STATE_eqb (GetCellState c) EMPTY).
      * now apply (IH _ _ _ Ht H).
      * apply bind_Ok in H as (t1 & H1 & H).
        apply (IH _ _ _ (Insert_cap fuel _ _ _ _ Ht H1) H).
    + now apply (IH _ _ _ Ht H).
Qed.

Lemma Merge_cap fuel t1 t2 t' :
  cap_ok t1 -> cap_ok t2 -> Merge alloc fuel t1 t2 = Ok t' -> cap_ok t'.
Proof.
  intros [_ H1] [_ H2] H. unfold INIT_SIZE in *. unfold Merge in H.
  apply bind_Ok in H as (p & Hfp & H).
  apply FindNextPrime_spec in Hfp as (Hlt & Hpp & _); [ | lia].
  apply bind_Ok in H as (t & Ht & H).
  apply (Merge_loop_cap _ _ _ _ _ _) in Ht;
    [ | split; [exact Hpp | simpl; unfold INIT_SIZE; lia]].
  now apply (Merge_loop_cap _ _ _ _ _ _ Ht H).
Qed.

Lemma HashTable_new_cap : cap_ok (HashTable_new alloc).
Proof. split; [exact prime_7 | simpl; lia]. Qed.

Lemma run_cap fuel os : forall t t',
  cap_ok t -> run alloc fuel t os = Ok t' -> cap_ok t'.
Proof.
  induction os as [ | o os IH]; intros t t' Ht H; cbn [run] in H.
  - now injection H as <-.
  - apply bind_Ok in H as (t1 & H1 & H). apply (IH t1 t'); [ | exact H].
    destruct o; cbn [apply_op] in H1.
    + now apply (Insert_cap fuel _ _ _ _ Ht H1).
    + now apply (Remove_cap fuel _ _ _ Ht H1).
Qed.

End Capacity.

(** C7 (capacity invariant).  After construction and after every [Insert],
    [Remove] and merging construction, with the resizes they trigger,
    [GetSize()] is a prime and at least the initial capacity 7; and the
    trial-division test is right on every candidate a resize of such a table
    can hand to it, which are all above half the capacity. *)
Theorem capacity_prime_after_every_operation :
  forall (Value : Type)
         (alloc : Z -> InitArr.RawMem (option (HTable.HTableCell Value)))
         (t : HTable.HashTable Value),
    reachable alloc t ->
    Z.prime (HTable.GetSize t) /\
    HTable.INIT_SIZE <= HTable.GetSize t /\
    forall n, HTable.GetSize t / 2 < n ->
              (HTable.IsPrime n = Ok true <-> Z.prime n) /\
              (HTable.IsPrime n = Ok false <-> ~ Z.prime n).
Proof.
  intros Value alloc t Hr.
  assert (Hcap : cap_ok t).
  { induction Hr as [ | fuel t ky v t' _ IH H | fuel t ky t' _ IH H
                      | fuel t1 t2 t' _ IH1 _ IH2 H].
    - apply HashTable_new_cap.
    - exact (Insert_cap alloc fuel _ _ _ _ IH H).
    - exact (Remove_cap alloc fuel _ _ _ IH H).
    - exact (Merge_cap alloc fuel _ _ _ IH1 IH2 H). }
  destruct Hcap as [Hp H7]. split; [exact Hp | ]. split; [exact H7 | ].
  intros n Hn. unfold HTable.GetSize, HTable.INIT_SIZE in *.
  assert (H3 : 3 <= HTable.size t / 2)
    by (apply Z.div_le_lower_bound; lia).
  split; [apply IsPrime_true | apply IsPrime_false]; lia.
Qed.

Local Open Scope string_scope.

Lemma run_reachable {Value : Type} alloc fuel os :
  forall (t t' : HTable.HashTable Value),
    reachable alloc t -> HTable.run alloc fuel t os = Ok t' ->
    reachable alloc t'.
Proof.
  induction os as [ | o os IH]; intros t t' Hr H; cbn [HTable.run] in H.
  - now injection H as <-.
  - apply bind_Ok in H as (t1 & H1 & H). apply (IH t1 t'); [ | exact H].
    destruct o; cbn [HTable.apply_op] in H1.
    + exact (reach_insert alloc fuel _ _ _ _ Hr H1).
    + exact (reach_remove alloc fuel _ _ _ Hr H1).
Qed.

(** Reading an observation off an evaluated run. *)
Lemma eval_at {A B : Type} (r : result A) (a : A) (f : A -> B) (b : B) :
  r = Ok a -> (x <- r ;; Ok (f x)) = Ok b -> f a = b.
Proof. intros -> H. now injection H. Qed.

(** The invariant at work: the table after the six insertions, which has
    been resized once. *)
Lemma capacity_prime_after_every_operation_witness :
  exists t,
    HTable.run (zero_mem string) 4 (HTable.HashTable_new (zero_mem string))
               six_inserts = Ok t /\
    HTable.GetSize t = 17 /\
    Z.prime (HTable.GetSize t) /\
    HTable.INIT_SIZE <= HTable.GetSize t.
Proof.
  destruct (HTable.run (zero_mem string) 4
              (HTable.HashTable_new (zero_mem string)) six_inserts)
    as [t | e] eqn:E.
  - exists t. split; [reflexivity | ].
    split; [apply (eval_at _ _ HTable.GetSize _ E); vm_compute; reflexivity | ].
    refine (let H := capacity_prime_after_every_operation string
                       (zero_mem string) t _ in
            conj (proj1 H) (proj1 (proj2 H))).
    exact (run_reachable _ _ _ _ _ (reach_new _) E).
  - vm_compute in E. discriminate E.
Defined.

(** C8 (resize scenario), as the code runs it.  From the empty table of
    capacity 7, with the keys 1..6 and the values "a".."f": after each of
    the first five insertions the capacity is still 7 and the count is the
    number of insertions (5 is below 0.75 * 7); the sixth insertion grows
    the table to capacity 17, the least prime from 14 on, and all six
    entries are found afterwards. *)
Theorem resize_scenario :
  forall (alloc : Z -> InitArr.RawMem (option (HTable.HTableCell string)))
         (fuel : nat),
    (forall n, (n <= 5)%nat ->
       exists t,
         HTable.run alloc (4 + fuel) (HTable.HashTable_new alloc)
                    (firstn n six_inserts) = Ok t /\
         HTable.GetSize t = 7 /\
         HTable.GetTotalElements t = Z.of_nat n) /\
    exists t,
      HTable.run alloc (4 + fuel) (HTable.HashTable_new alloc) six_inserts
        = Ok t /\
      HTable.GetSize t = 17 /\
      (Z.prime 17 /\ forall q, 14 <= q < 17 -> ~ Z.prime q) /\
      HTable.GetTotalElements t = 6 /\
      HTable.Find t 1 = Ok (Some (HTable.mkFull 1 "a")) /\
      HTable.Find t 2 = Ok (Some (HTable.mkFull 2 "b")) /\
      HTable.Find t 3 = Ok (Some (HTable.mkFull 3 "c")) /\
      HTable.Find t 4 = Ok (Some (HTable.mkFull 4 "d")) /\
      HTable.Find t 5 = Ok (Some (HTable.mkFull 5 "e")) /\
      HTable.Find t 6 = Ok (Some (HTable.mkFull 6 "f")).
Proof.
  intros alloc fuel. split.
  - intros n Hn.
    destruct (HTable.run (zero_mem string) (4 + fuel)
                (HTable.HashTable_new (zero_mem string))
                (firstn n six_inserts)) as [u | e] eqn:E.
    + destruct (run_transfer alloc _ _ _ _ E) as (t & Ht & Hs).
      exists t. split; [exact Ht | ].
      split; [apply (sim_GetSize _ _ _ Hs)
             | apply (sim_GetTotalElements _ _ _ Hs)];
        apply (eval_at _ _ _ _ E);
        do 6 (destruct n as [ | n]; [vm_compute; reflexivity | ]); lia.
    + exfalso.
      do 6 (destruct n as [ | n]; [vm_compute in E; discriminate E | ]); lia.
  - destruct (HTable.run (zero_mem string) (4 + fuel)
                (HTable.HashTable_new (zero_mem string)) six_inserts)
      as [u | e] eqn:E; [ | vm_compute in E; discriminate E].
    destruct (run_transfer alloc _ _ _ _ E) as (t & Ht & Hs).
    exists t. split; [exact Ht | ].
    split; [apply (sim_GetSize _ _ _ Hs), (eval_at _ _ _ _ E);
            vm_compute; reflexivity | ].
    split.
    { split; [apply IsPrime_true; [lia | reflexivity] | ].
      intros q Hq. apply IsPrime_false; [lia | ].
      assert (Hc : q = 14 \/ q = 15 \/ q = 16) by lia.
      destruct Hc as [-> | [-> | ->]]; reflexivity. }
    split; [apply (sim_GetTotalElements _ _ _ Hs), (eval_at _ _ _ _ E);
            vm_compute; reflexivity | ].
    repeat split; apply (sim_Find _ _ _ _ Hs);
      apply (eval_at _ _ (fun x => HTable.Find x _) _ E);
      vm_compute; reflexivity.
Qed.

(** The first part of the scenario after five insertions, on zeroed
    buffers. *)
Lemma resize_scenario_witness :
  exists t,
    HTable.run (zero_mem string) 4 (HTable.HashTable_new (zero_mem string))
               (firstn 5 six_inserts) = Ok t /\
    HTable.GetSize t = 7 /\
    HTable.GetTotalElements t = 5.
Proof.
  exact (proj1 (resize_scenario (zero_mem string) 0) 5%nat (le_n 5)).
Defined.

(** The capacity after the sixth insertion is not the 11 that the
    scenario names. *)
Lemma resize_scenario_capacity_is_not_11 :
  ~ exists t,
      HTable.run (zero_mem string) 4 (HTable.HashTable_new (zero_mem string))
                 six_inserts = Ok t /\
      HTable.GetSize t = 11.
Proof.
  intros (t & Ht & Hs).
  pose proof (eval_at _ _ HTable.GetSize 17 Ht) as H.
  rewrite H in Hs; [discriminate Hs | vm_compute; reflexivity].
Qed.

Local Close Scope string_scope.

(** * The probe sequence *)

Section ProbeSequence.
Import HTable.
Context {Value : Type}.
Implicit Types (t : HashTable Value).

Lemma Hash_mod t ky k :
  0 < size t -> 0 <= ky -> 0 <= k ->
  Hash t ky k = (ky mod size t + k * step ky) mod size t.
Proof.
  intros Hs Hk Hk0. unfold Hash, step, CONST_C.
  pose proof (Z.rem_bound_pos ky 7 Hk ltac:(lia)).
  pose proof (Z.rem_bound_pos ky (size t) Hk Hs).
  rewrite (Z.rem_mod_nonneg ky (size t)) in * by lia.
  rewrite Z.rem_mod_nonneg by nia. reflexivity.
Qed.

Lemma mod_eq_divide a b p :
  0 < p -> a mod p = b mod p -> (p | a - b).
Proof.
  intros Hp H. exists (a / p - b / p).
  pose proof (Z.div_mod a p ltac:(lia)). pose proof (Z.div_mod b p ltac:(lia)).
  nia.
Qed.

Lemma divide_small p x : 0 < p -> (p | x) -> - p < x < p -> x = 0.
Proof.
  intros Hp [q Hq] Hx. assert (Hq0 : -1 < q < 1) by nia.
  assert (q = 0) by lia. subst q. lia.
Qed.

(** Above the initial capacity the probe sequence of a non-negative key
    stays inside the table and visits [size] different slots. *)
Lemma Hash_probes_distinct t ky :
  Z.prime (size t) -> 7 < size t -> 0 <= ky ->
  ~ (size t | step ky) /\
  (forall k, 0 <= k -> 0 <= Hash t ky k < size t) /\
  (forall k1 k2, 0 <= k1 < size t -> 0 <= k2 < size t ->
                 Hash t ky k1 = Hash t ky k2 -> k1 = k2).
Proof.
  intros Hp Hs Hk.
  assert (Hst : 1 <= step ky <= 7).
  { unfold step, CONST_C. pose proof (Z.rem_bound_pos ky 7 Hk ltac:(lia)).
    lia. }
  assert (Hnd : ~ (size t | step ky)).
  { intros Hd. apply Z.divide_pos_le in Hd; lia. }
  split; [exact Hnd | ]. split.
  - intros k Hk0. rewrite Hash_mod by lia. apply Z.mod_pos_bound. lia.
  - intros k1 k2 H1 H2 He. rewrite !Hash_mod in He by lia.
    apply mod_eq_divide in He; [ | lia].
    replace (ky mod size t + k1 * step ky - (ky mod size t + k2 * step ky))
      with ((k1 - k2) * step ky) in He by ring.
    apply (Z.divide_prime_mul _ _ _ Hp) in He as [Hd | Hd];
      [ | contradiction].
    apply divide_small in Hd; lia.
Qed.

End ProbeSequence.

(** C3 (double-hashing step).  At the initial capacity 7, a prime, the step
    of key 6 is [1 + 6 % 7 = 7], a multiple of the capacity: every probe of
    key 6 lands on slot 6, and so does every probe of key 13. *)
Theorem step_is_multiple_of_initial_capacity :
  forall (Value : Type)
         (alloc : Z -> InitArr.RawMem (option (HTable.HTableCell Value))),
    let t := HTable.HashTable_new alloc in
    Z.prime (HTable.GetSize t) /\
    step 6 mod HTable.GetSize t = 0 /\
    (forall k, 0 <= k -> HTable.Hash t 6 k = 6) /\
    (forall k, 0 <= k -> HTable.Hash t 13 k = 6).
Proof.
  intros Value alloc t. split; [exact prime_7 | ]. split; [reflexivity | ].
  split; intros k Hk; rewrite Hash_mod by (simpl; unfold HTable.INIT_SIZE; lia);
    change (HTable.size t) with 7;
    [change (step 6) with (1 * 7) | change (step 13) with (1 * 7)];
    rewrite Z.mul_assoc, Z.mod_add by lia; reflexivity.
Qed.

(** * The operations return *)

Section Totality.
Import InitArr HTable.
Context {Value : Type}.
Variable alloc : Z -> RawMem (option (HTableCell Value)).
Implicit Types (a : InitializedArray (option (HTableCell Value))).
Implicit Types (t : HashTable Value) (c : HTableCell Value).
Implicit Types (i j k ky hash : Z) (elem : option (HTableCell Value)).

(** The array throws nothing but [out_of_range]. *)
Lemma Get_in_range a i : 0 <= i < length a -> exists x, Get a i = Ok x.
Proof.
  intros Hi. destruct (is_init_dec a i).
  - rewrite Get_init by assumption. eauto.
  - rewrite Get_not_init by assumption. eauto.
Qed.

Lemma Get_Err a i e : Get a i = Err e -> e = OutOfRange.
Proof.
  intros H. assert (Hr : 0 <= i < length a \/ ~ 0 <= i < length a) by lia.
  destruct Hr as [Hr | Hr].
  - destruct (Get_in_range a i Hr) as (x & Hx). congruence.
  - rewrite Get_out in H by assumption. congruence.
Qed.

(** The probing loops end within the rounds they are given, on every
    table and key. *)
Lemma FindKey_loop_fuel n t ky : forall k hash elem,
  (Z.to_nat (size t - k) < n)%nat ->
  FindKey_loop n t ky k hash elem <> Err OutOfFuel.
Proof.
  induction n as [ | n IH]; intros k hash elem Hn; [lia | ].
  cbn [FindKey_loop]. destruct elem as [c | ]; [ | discriminate].
  destruct (Z.ltb_spec k (size t)); [ | discriminate].
  destruct (GetKey c =? ky); [discriminate | ].
  destruct (Get (elements t) (Hash t ky (k + 1))) as [elem' | e] eqn:E.
  - cbn [bind]. apply IH. lia.
  - apply Get_Err in E. subst e. discriminate.
Qed.

Lemma FindKey_fuel t ky : FindKey t ky <> Err OutOfFuel.
Proof.
  unfold FindKey.
  destruct (Get (elements t) (Hash t ky 0)) as [elem | e] eqn:E.
  - cbn [bind].
    pose proof (FindKey_loop_fuel (S (Z.to_nat (size t))) t ky 0
                  (Hash t ky 0) elem) as H.
    destruct (FindKey_loop _ t ky 0 (Hash t ky 0) elem)
      as [[[k hash] elem'] | e].
    + cbn [bind]. destruct elem'; [ | discriminate].
      destruct (k >=? size t); [discriminate | ].
      destruct (_ =? _); discriminate.
    + cbn [bind]. intros [= ->]. apply H; [ | reflexivity].
      rewrite Z.sub_0_r. lia.
  - apply Get_Err in E. subst e. discriminate.
Qed.

Lemma Insert_loop_fuel n t ky : forall k hash elem,
  (Z.to_nat (size t + 1 - k) < n)%nat ->
  Insert_loop n t ky k hash elem <> Err OutOfFuel.
Proof.
  induction n as [ | n IH]; intros k hash elem Hn; [lia | ].
  cbn [Insert_loop]. destruct elem as [c | ]; [ | discriminate].
  destruct (Z.leb_spec k (size t)); [ | discriminate].
  destruct (_ || _); [discriminate | ].
  destruct (Get (elements t) (Hash t ky (k + 1))) as [elem' | e] eqn:E.
  - cbn [bind]. apply IH. lia.
  - apply Get_Err in E. subst e. discriminate.
Qed.

Lemma tbl_inv_size t : tbl_inv t -> 7 <= size t.
Proof. intros (_ & _ & _ & [_ H] & _). exact H. Qed.

Lemma Hash_range t ky k :
  0 < size t -> 0 <= ky -> 0 <= k -> 0 <= Hash t ky k < size t.
Proof.
  intros Hs Hk Hk0. rewrite Hash_mod by assumption.
  apply Z.mod_pos_bound. exact Hs.
Qed.

Lemma tbl_inv_new p :
  Z.prime p -> 7 <= p ->
  tbl_inv {| elements := new_elements alloc p; size := p;
             total_elements := 0 |}.
Proof.
  intros Hp H7. split; [apply wf_New | ]. split; [reflexivity | ].
  split; [reflexivity | ]. split; [split; assumption | ].
  intros j c Hg. simpl in Hg. unfold new_elements in Hg.
  assert (Hr : 0 <= j < p \/ ~ 0 <= j < p) by lia. destruct Hr as [Hr | Hr].
  - rewrite Get_New in Hg by assumption. discriminate.
  - rewrite Get_out in Hg by assumption. discriminate.
Qed.

Lemma tbl_inv_Set t hash v tot :
  tbl_inv t -> 0 <= hash < size t ->
  match v with Some c => 0 <= key c | None => True end ->
  exists els,
    Set_ (elements t) hash v = Ok els /\
    tbl_inv {| elements := els; size := size t; total_elements := tot |}.
Proof.
  intros (Hwf & Hd & Hl & Hc & Hk) Hh Hv.
  destruct (Set_Get (elements t) hash v Hwf ltac:(lia))
    as (els & HS & Hwf' & Hl' & Hd' & Hg & Ho).
  exists els. split; [exact HS | ].
  split; [exact Hwf' | ]. split; [simpl; congruence | ].
  split; [simpl; congruence | ]. split; [exact Hc | ].
  intros j c Hj. simpl in Hj.
  destruct (Z.eq_dec j hash) as [-> | Hne].
  - rewrite Hg in Hj. injection Hj as ->. exact Hv.
  - rewrite (Ho j Hne) in Hj. exact (Hk j c Hj).
Qed.

(** The outcome of [FindKey] on a non-negative key: -1 or the index of a
    non-NULL slot. *)
Lemma FindKey_loop_ok n t ky : forall k hash elem,
  0 < size t -> length (elements t) = size t -> 0 <= ky -> 0 <= k ->
  (Z.to_nat (size t - k) < n)%nat ->
  0 <= hash < size t -> Get (elements t) hash = Ok elem ->
  exists k' hash' elem',
    FindKey_loop n t ky k hash elem = Ok (k', hash', elem') /\
    0 <= hash' < size t /\ Get (elements t) hash' = Ok elem'.
Proof.
  induction n as [ | n IH]; intros k hash elem Hs Hl Hky Hk Hn Hh Hg; [lia | ].
  cbn [FindKey_loop]. destruct elem as [c | ]; [ | eauto 6].
  destruct (Z.ltb_spec k (size t)); [ | eauto 6].
  destruct (GetKey c =? ky); [eauto 6 | ].
  pose proof (Hash_range t ky (k + 1) Hs Hky ltac:(lia)) as Hr.
  destruct (Get_in_range (elements t) (Hash t ky (k + 1)) ltac:(lia))
    as (elem' & He).
  rewrite He. cbn [bind]. apply IH; try assumption; lia.
Qed.

Lemma FindKey_ok t ky :
  0 < size t -> length (elements t) = size t -> 0 <= ky ->
  exists r,
    FindKey t ky = Ok r /\
    (r = -1 \/ 0 <= r < size t /\ exists c, Get (elements t) r = Ok (Some c)).
Proof.
  intros Hs Hl Hky. unfold FindKey.
  pose proof (Hash_range t ky 0 Hs Hky ltac:(lia)) as Hr.
  destruct (Get_in_range (elements t) (Hash t ky 0) ltac:(lia)) as (elem & He).
  rewrite He. cbn [bind].
  destruct (FindKey_loop_ok (S (Z.to_nat (size t))) t ky 0 (Hash t ky 0) elem
              Hs Hl Hky ltac:(lia) ltac:(lia) Hr He)
    as (k' & hash' & elem' & -> & Hh & Hg).
  cbn [bind]. destruct elem' as [c | ]; [ | eauto].
  destruct (k' >=? size t); [eauto | ].
  destruct (_ =? _); eauto 7.
Qed.

Lemma Insert_loop_ok n t ky : forall k hash elem,
  0 < size t -> length (elements t) = size t -> 0 <= ky -> 0 <= k ->
  (Z.to_nat (size t + 1 - k) < n)%nat ->
  0 <= hash < size t ->
  exists k' hash' elem',
    Insert_loop n t ky k hash elem = Ok (k', hash', elem') /\
    0 <= hash' < size t.
Proof.
  induction n as [ | n IH]; intros k hash elem Hs Hl Hky Hk Hn Hh; [lia | ].
  cbn [Insert_loop]. destruct elem as [c | ]; [ | eauto 6].
  destruct (Z.leb_spec k (size t)); [ | eauto 6].
  destruct (_ || _); [eauto 6 | ].
  pose proof (Hash_range t ky (k + 1) Hs Hky ltac:(lia)) as Hr.
  destruct (Get_in_range (elements t) (Hash t ky (k + 1)) ltac:(lia))
    as (elem' & He).
  rewrite He. cbn [bind]. apply IH; try assumption; lia.
Qed.

Lemma grow_test s x :
  Qle_bool (inject_Z s * MAX_RATIO) (inject_Z x) = (3 * s <=? 4 * x).
Proof.
  unfold Qle_bool, Qmult, inject_Z, MAX_RATIO. cbn [Qnum Qden].
  apply Bool.eq_true_iff_eq. rewrite !Z.leb_le.
  change (Z.pos (1 * 4)) with 4. lia.
Qed.

(** The part of [Insert] before [ReHash(UP)], on a table that satisfies
    the invariant and a non-negative key: either the update path returns,
    or [ReHash(UP)] is called on a table that satisfies the invariant, with
    the same capacity and at most one more in the count. *)
Lemma Insert_step t ky v :
  tbl_inv t -> 0 <= ky ->
  (exists t',
     (forall fuel, Insert alloc (S fuel) t ky v = Ok t') /\
     tbl_inv t' /\ size t' = size t /\
     total_elements t' = total_elements t) \/
  (exists t1,
     (forall fuel, Insert alloc (S fuel) t ky v =
                   ReHash_with alloc fuel (Insert alloc fuel) UP t1) /\
     tbl_inv t1 /\ size t1 = size t /\
     total_elements t1 <= total_elements t + 1).
Proof.
  intros Hinv Hky. pose proof (tbl_inv_size t Hinv) as H7.
  pose proof Hinv as (Hwf & Hd & Hl & Hc & Hk).
  destruct (FindKey_ok t ky ltac:(lia) Hl Hky) as (r & HF & Hr).
  destruct (Z.gtb_spec r 0) as [Hpos | Hneg].
  - left. destruct Hr as [-> | (Hr & c & Hg)]; [lia | ].
    destruct (tbl_inv_Set t r (Some (mkFull ky v)) (total_elements t)
                Hinv Hr Hky) as (els & HS & Hinv').
    eexists. split; [ | split; [exact Hinv' | split; reflexivity]].
    intros fuel. cbn [Insert]. rewrite HF. cbn [bind].
    destruct (Z.gtb_spec r 0); [ | lia].
    rewrite Hg. cbn [bind]. rewrite HS. reflexivity.
  - right.
    pose proof (Hash_range t ky 0 ltac:(lia) Hky ltac:(lia)) as Hh.
    destruct (Get_in_range (elements t) (Hash t ky 0) ltac:(lia))
      as (elem & He).
    destruct (Insert_loop_ok (S (S (Z.to_nat (size t)))) t ky 0
                (Hash t ky 0) elem ltac:(lia) Hl Hky ltac:(lia) ltac:(lia) Hh)
      as (k' & hash' & elem' & HL & Hh').
    destruct (tbl_inv_Set t hash' (Some (mkFull ky v))
                (match elem' with
                 | Some _ => total_elements t - 1
                 | None => total_elements t
                 end + 1) Hinv Hh' Hky) as (els & HS & Hinv').
    eexists. split; [ | split; [exact Hinv' | split; [reflexivity | ]]].
    + intros fuel. cbn [Insert]. rewrite HF. cbn [bind].
      destruct (Z.gtb_spec r 0); [lia | ].
      rewrite He. cbn [bind]. rewrite HL. cbn [bind]. rewrite HS.
      reflexivity.
    + simpl. destruct elem'; lia.
Qed.

(** Below the load limit [Insert] does not resize. *)
Lemma Insert_small t ky v :
  tbl_inv t -> 0 <= ky -> 4 * (total_elements t + 1) < 3 * size t ->
  exists t',
    (forall fuel, Insert alloc (S fuel) t ky v = Ok t') /\
    tbl_inv t' /\ size t' = size t /\
    total_elements t' <= total_elements t + 1.
Proof.
  intros Hinv Hky Hload.
  destruct (Insert_step t ky v Hinv Hky)
    as [(t' & Hi & Hinv' & Hs & Ht) | (t1 & Hi & Hinv' & Hs & Ht)].
  - exists t'. split; [exact Hi | ]. split; [exact Hinv' | ].
    split; [exact Hs | lia].
  - exists t1. split; [ | split; [exact Hinv' | split; [exact Hs | lia]]].
    intros fuel. rewrite Hi. unfold ReHash_with. rewrite grow_test.
    destruct (Z.leb_spec (3 * size t1) (4 * total_elements t1)); [lia | ].
    reflexivity.
Qed.

Lemma old_inv_clear a len i :
  old_inv a len -> 0 <= i < len ->
  exists a', Set_ a i None = Ok a' /\ old_inv a' len.
Proof.
  intros (Hwf & Hl & Hk) Hi.
  destruct (Set_Get a i None Hwf ltac:(lia))
    as (a' & HS & Hwf' & Hl' & _ & Hg & Ho).
  exists a'. split; [exact HS | ]. split; [exact Hwf' | ].
  split; [congruence | ]. intros j c Hj.
  destruct (Z.eq_dec j i) as [-> | Hne].
  - rewrite Hg in Hj. discriminate.
  - rewrite (Ho j Hne) in Hj. exact (Hk j c Hj).
Qed.

(** The rebuild after a growth: no insertion resizes again. *)
Lemma rebuild_small n : forall i old t len bound,
  tbl_inv t -> old_inv old len -> 0 <= i -> i + Z.of_nat n <= len ->
  total_elements t + Z.of_nat n <= bound -> 4 * bound < 3 * size t ->
  exists t',
    (forall fuel,
       ReHash_loop (Insert alloc (S fuel)) n i old t = Ok t') /\
    tbl_inv t'.
Proof.
  induction n as [ | n IH]; intros i old t len bound Hinv Hold Hi Hn Hb Hload.
  - exists t. split; [reflexivity | exact Hinv].
  - pose proof Hold as (Hwf & Hl & Hk).
    destruct (Get_in_range old i ltac:(lia)) as (elem & He).
    destruct elem as [c | ].
    + destruct (CELL_STATE_eqb (GetCellState c) EMPTY) eqn:Est.
      * destruct (old_inv_clear old len i Hold ltac:(lia))
          as (old' & HS & Hold').
        destruct (IH (i + 1) old' t len bound Hinv Hold') as (t' & Hr & Hinv');
          try lia.
        exists t'. split; [ | exact Hinv'].
        intros fuel. cbn [ReHash_loop]. rewrite He. cbn [bind].
        rewrite Est, HS. cbn [bind]. apply Hr.
      * destruct (Insert_small t (GetKey c) (GetValue c) Hinv (Hk i c He))
          as (t1 & Hins & Hinv1 & Hs1 & Ht1); [lia | ].
        destruct (IH (i + 1) old t1 len bound Hinv1 Hold) as (t' & Hr & Hinv');
          try lia.
        exists t'. split; [ | exact Hinv'].
        intros fuel. cbn [ReHash_loop]. rewrite He. cbn [bind].
        rewrite Est, Hins. cbn [bind]. apply Hr.
    + destruct (IH (i + 1) old t len bound Hinv Hold) as (t' & Hr & Hinv');
        try lia.
      exists t'. split; [ | exact Hinv'].
      intros fuel. cbn [ReHash_loop]. rewrite He. cbn [bind]. apply Hr.
Qed.

Lemma tbl_inv_old t : tbl_inv t -> old_inv (elements t) (size t).
Proof. intros (Hwf & _ & Hl & _ & Hk). now split. Qed.

(** [Insert] of a non-negative key returns, whatever fuel it is given
    above some bound, and keeps the invariant. *)
Lemma Insert_total t ky v :
  tbl_inv t -> 0 <= ky ->
  exists F t',
    (forall fuel, (F <= fuel)%nat -> Insert alloc fuel t ky v = Ok t') /\
    tbl_inv t'.
Proof.
  intros Hinv Hky.
  destruct (Insert_step t ky v Hinv Hky)
    as [(t' & Hi & Hinv' & Hs & Ht) | (t1 & Hi & Hinv1 & Hs & Ht)].
  - exists 1%nat, t'. split; [ | exact Hinv'].
    intros [ | fuel] Hf; [lia | apply Hi].
  - pose proof (tbl_inv_size t1 Hinv1) as H7.
    destruct (Z.leb_spec (3 * size t1) (4 * total_elements t1)) as [Hg | Hg].
    + destruct (FindNextPrime_total (2 * size t1) ltac:(lia))
        as (F1 & p & Hp).
      destruct (FindNextPrime_spec F1 (2 * size t1) p ltac:(lia)
                  (Hp F1 (le_n F1))) as (Hlt & Hpp & _).
      destruct (rebuild_small (Z.to_nat (size t1)) 0 (elements t1)
                  {| elements := new_elements alloc p; size := p;
                     total_elements := 0 |} (size t1) (size t1))
        as (t' & Hr & Hinv');
        [apply tbl_inv_new; [exact Hpp | lia] | now apply tbl_inv_old
         | lia | lia | cbn [total_elements]; lia | cbn [size]; lia | ].
      exists (S (S F1)), t'. split; [ | exact Hinv'].
      intros fuel Hf. destruct fuel as [ | [ | fuel]]; try lia.
      rewrite Hi. unfold ReHash_with. rewrite grow_test.
      destruct (Z.leb_spec (3 * size t1) (4 * total_elements t1)); [ | lia].
      cbn [DIRECTION_eqb andb]. rewrite Qfloor_expand, (Hp (S fuel)) by lia.
      cbn [bind]. apply Hr.
    + exists 1%nat, t1. split; [ | exact Hinv1].
      intros [ | fuel] Hf; [lia | ]. rewrite Hi.
      unfold ReHash_with. rewrite grow_test.
      destruct (Z.leb_spec (3 * size t1) (4 * total_elements t1)); [lia | ].
      reflexivity.
Qed.

(** A rebuild whose insertions may resize in turn, as after a shrink. *)
Lemma rebuild_total n : forall i old t len,
  tbl_inv t -> old_inv old len -> 0 <= i -> i + Z.of_nat n <= len ->
  exists F t',
    (forall fuel, (F <= fuel)%nat ->
       ReHash_loop (Insert alloc fuel) n i old t = Ok t') /\
    tbl_inv t'.
Proof.
  induction n as [ | n IH]; intros i old t len Hinv Hold Hi Hn.
  - exists 0%nat, t. split; [reflexivity | exact Hinv].
  - pose proof Hold as (Hwf & Hl & Hk).
    destruct (Get_in_range old i ltac:(lia)) as (elem & He).
    destruct elem as [c | ].
    + destruct (CELL_STATE_eqb (GetCellState c) EMPTY) eqn:Est.
      * destruct (old_inv_clear old len i Hold ltac:(lia))
          as (old' & HS & Hold').
        destruct (IH (i + 1) old' t len Hinv Hold') as (F & t' & Hr & Hinv');
          try lia.
        exists F, t'. split; [ | exact Hinv'].
        intros fuel Hf. cbn [ReHash_loop]. rewrite He. cbn [bind].
        rewrite Est, HS. cbn [bind]. now apply Hr.
      * destruct (Insert_total t (GetKey c) (GetValue c) Hinv (Hk i c He))
          as (F1 & t1 & Hins & Hinv1).
        destruct (IH (i + 1) old t1 len Hinv1 Hold) as (F & t' & Hr & Hinv');
          try lia.
        exists (Nat.max F1 F), t'. split; [ | exact Hinv'].
        intros fuel Hf. cbn [ReHash_loop]. rewrite He. cbn [bind].
        rewrite Est, Hins by lia. cbn [bind]. apply Hr. lia.
    + destruct (IH (i + 1) old t len Hinv Hold) as (F & t' & Hr & Hinv');
        try lia.
      exists F, t'. split; [ | exact Hinv'].
      intros fuel Hf. cbn [ReHash_loop]. rewrite He. cbn [bind]. now apply Hr.
Qed.

Lemma shrink_test s x :
  negb (Qle_bool (inject_Z s * MIN_RATIO) (inject_Z x)) = (4 * x <? s).
Proof.
  unfold Qle_bool, Qmult, inject_Z, MIN_RATIO. cbn [Qnum Qden].
  apply Bool.eq_true_iff_eq. rewrite negb_true_iff, Z.ltb_lt, Z.leb_gt.
  change (Z.pos (1 * 4)) with 4. lia.
Qed.

Lemma tbl_inv_poke t i c d tot :
  tbl_inv t -> Get (elements t) i = Ok (Some d) -> key c = key d ->
  tbl_inv {| elements := poke (elements t) i c; size := size t;
             total_elements := tot |}.
Proof.
  intros (Hwf & Hd & Hl & Hc & Hk) Hg Hkey.
  destruct (poke_Get (elements t) i c d Hwf Hd Hg) as (Hwf' & Hgi & Ho).
  split; [exact Hwf' | ]. split; [exact Hd | ]. split; [exact Hl | ].
  split; [exact Hc | ]. intros j c' Hj. cbn [elements] in Hj.
  destruct (Z.eq_dec j i) as [-> | Hne].
  - rewrite Hgi in Hj. injection Hj as <-. rewrite Hkey. exact (Hk i d Hg).
  - rewrite (Ho j Hne) in Hj. exact (Hk j c' Hj).
Qed.

(** [Remove] of a non-negative key returns and keeps the invariant. *)
Lemma Remove_total t ky :
  tbl_inv t -> 0 <= ky ->
  exists F t',
    (forall fuel, (F <= fuel)%nat -> Remove alloc fuel t ky = Ok t') /\
    tbl_inv t'.
Proof.
  intros Hinv Hky. pose proof (tbl_inv_size t Hinv) as H7.
  pose proof Hinv as (Hwf & Hd & Hl & Hc & Hk).
  destruct (FindKey_ok t ky ltac:(lia) Hl Hky) as (r & HF & Hr).
  unfold Remove. rewrite HF. cbn [bind].
  destruct (Z.ltb_spec r 0) as [Hneg | Hpos].
  { exists 0%nat, t. split; [reflexivity | exact Hinv]. }
  destruct Hr as [-> | (Hr & c & Hg)]; [lia | ].
  rewrite Hg. cbn [bind].
  destruct (CELL_STATE_eqb (GetCellState c) FULL);
    [ | exists 0%nat, t; split; [reflexivity | exact Hinv]].
  pose proof (tbl_inv_poke t r (SetCellState c EMPTY) c
                (total_elements t - 1) Hinv Hg eq_refl) as Hinv2.
  change {| values := upd (values (elements t)) r (Some (SetCellState c EMPTY));
            short_cuts := short_cuts (elements t);
            init_indexes := init_indexes (elements t);
            top := top (elements t);
            length := length (elements t);
            def := def (elements t) |}
    with (poke (elements t) r (SetCellState c EMPTY)).
  set (t2 := {| elements := poke (elements t) r (SetCellState c EMPTY);
                size := size t; total_elements := total_elements t - 1 |})
    in *.
  assert (Hs2 : size t2 = size t) by reflexivity.
  unfold ReHash, ReHash_with. cbn [DIRECTION_eqb andb].
  rewrite shrink_test.
  destruct ((size t2 >? INIT_SIZE) && (4 * total_elements t2 <? size t2))
    eqn:E; [ | exists 0%nat, t2; split; [reflexivity | exact Hinv2]].
  apply andb_prop in E as [E _]. unfold INIT_SIZE in E. apply Z.gtb_lt in E.
  pose proof (prime_above_7 _ (proj1 Hc) E) as H11.
  assert (H5 : 5 <= size t2 / 2) by (apply Z.div_le_lower_bound; lia).
  destruct (FindNextPrime_total (size t2 / 2) ltac:(lia)) as (F1 & p & Hp).
  destruct (FindNextPrime_spec F1 (size t2 / 2) p ltac:(lia)
              (Hp F1 (le_n F1))) as (Hlt & Hpp & _).
  pose proof (prime_above_5 p Hpp ltac:(lia)) as Hp7.
  destruct (rebuild_total (Z.to_nat (size t2)) 0 (elements t2)
              {| elements := new_elements alloc p; size := p;
                 total_elements := 0 |} (size t2))
    as (F2 & t' & Hrb & Hinv');
    [now apply tbl_inv_new | now apply tbl_inv_old | lia | lia | ].
  exists (Nat.max F1 F2), t'. split; [ | exact Hinv'].
  intros fuel Hf. rewrite Qfloor_reduce, (Hp fuel) by lia.
  cbn [bind]. apply Hrb. lia.
Qed.

Lemma Merge_loop_total n src : forall i t,
  tbl_inv t -> tbl_inv src -> 0 <= i -> i + Z.of_nat n <= size src ->
  exists F t',
    (forall fuel, (F <= fuel)%nat ->
       Merge_loop alloc fuel n i src t = Ok t') /\
    tbl_inv t'.
Proof.
  induction n as [ | n IH]; intros i t Hinv Hsrc Hi Hn.
  - exists 0%nat, t. split; [reflexivity | exact Hinv].
  - pose proof Hsrc as (Hwf & _ & Hl & _ & Hk).
    destruct (Get_in_range (elements src) i ltac:(lia)) as (elem & He).
    destruct elem as [c | ].
    + destruct (CELL_STATE_eqb (GetCellState c) EMPTY) eqn:Est.
      * destruct (IH (i + 1) t Hinv Hsrc) as (F & t' & Hr & Hinv'); try lia.
        exists F, t'. split; [ | exact Hinv'].
        intros fuel Hf. cbn [Merge_loop]. rewrite He. cbn [bind].
        rewrite Est. now apply Hr.
      * destruct (Insert_total t (GetKey c) (GetValue c) Hinv (Hk i c He))
          as (F1 & t1 & Hins & Hinv1).
        destruct (IH (i + 1) t1 Hinv1 Hsrc) as (F & t' & Hr & Hinv'); try lia.
        exists (Nat.max F1 F), t'. split; [ | exact Hinv'].
        intros fuel Hf. cbn [Merge_loop]. rewrite He. cbn [bind].
        rewrite Est, Hins by lia. cbn [bind]. apply Hr. lia.
    + destruct (IH (i + 1) t Hinv Hsrc) as (F & t' & Hr & Hinv'); try lia.
      exists F, t'. split; [ | exact Hinv'].
      intros fuel Hf. cbn [Merge_loop]. rewrite He. cbn [bind]. now apply Hr.
Qed.

(** The merging constructor returns and builds a table that satisfies the
    invariant. *)
Lemma Merge_total t1 t2 :
  tbl_inv t1 -> tbl_inv t2 ->
  exists F t',
    (forall fuel, (F <= fuel)%nat -> Merge alloc fuel t1 t2 = Ok t') /\
    tbl_inv t'.
Proof.
  intros H1 H2.
  pose proof (tbl_inv_size t1 H1) as Hs1.
  pose proof (tbl_inv_size t2 H2) as Hs2.
  destruct (FindNextPrime_total (2 * (size t1 + size t2)) ltac:(lia))
    as (F0 & p & Hp).
  destruct (FindNextPrime_spec F0 (2 * (size t1 + size t2)) p ltac:(lia)
              (Hp F0 (le_n F0)))
    as (Hlt & Hpp & _).
  destruct (Merge_loop_total (Z.to_nat (size t1)) t1 0
              {| elements := new_elements alloc p; size := p;
                 total_elements := 0 |})
    as (Fa & ta & Ha & Hinva);
    [apply tbl_inv_new; [exact Hpp | lia] | exact H1 | lia | lia | ].
  destruct (Merge_loop_total (Z.to_nat (size t2)) t2 0 ta)
    as (Fb & tb & Hb & Hinvb); [exact Hinva | exact H2 | lia | lia | ].
  exists (Nat.max F0 (Nat.max Fa Fb)), tb. split; [ | exact Hinvb].
  intros fuel Hf. unfold Merge. rewrite (Hp fuel) by lia. cbn [bind].
  rewrite Ha by lia. cbn [bind]. apply Hb. lia.
Qed.

Lemma tbl_inv_HashTable_new : tbl_inv (HashTable_new alloc).
Proof. apply (tbl_inv_new 7); [exact prime_7 | lia]. Qed.

Lemma run_total os : forall t,
  tbl_inv t -> Forall (fun o => 0 <= op_key o) os ->
  exists F t',
    (forall fuel, (F <= fuel)%nat -> run alloc fuel t os = Ok t') /\
    tbl_inv t'.
Proof.
  induction os as [ | o os IH]; intros t Hinv Hks.
  - exists 0%nat, t. split; [reflexivity | exact Hinv].
  - inversion Hks as [ | o' os' Hk Hks']; subst.
    assert (Hstep : exists F1 t1,
              (forall fuel, (F1 <= fuel)%nat ->
                            apply_op alloc fuel t o = Ok t1) /\ tbl_inv t1).
    { destruct o as [ky v | ky]; cbn [apply_op op_key] in *.
      - now apply Insert_total.
      - now apply Remove_total. }
    destruct Hstep as (F1 & t1 & H1 & Hinv1).
    destruct (IH t1 Hinv1 Hks') as (F & t' & Hr & Hinv').
    exists (Nat.max F1 F), t'. split; [ | exact Hinv'].
    intros fuel Hf. cbn [run]. rewrite H1 by lia. cbn [bind]. apply Hr. lia.
Qed.

End Totality.

(** X1 (the operations return).  Every sequence of insertions and
    removals of non-negative keys, issued
    on the empty table, returns once the fuel is above some bound, with the
    same table for every such fuel; the capacity of that table is a prime,
    at least 7. *)
Theorem operations_return :
  forall (Value : Type)
         (alloc : Z -> InitArr.RawMem (option (HTable.HTableCell Value)))
         (os : list (HTable.operation Value)),
    Forall (fun o => 0 <= op_key o) os ->
    exists F t,
      (forall fuel, (F <= fuel)%nat ->
         HTable.run alloc fuel (HTable.HashTable_new alloc) os = Ok t) /\
      Z.prime (HTable.GetSize t) /\ HTable.INIT_SIZE <= HTable.GetSize t.
Proof.
  intros Value alloc os Hks.
  destruct (run_total alloc os _ (tbl_inv_HashTable_new alloc) Hks)
    as (F & t & Hr & Hinv).
  exists F, t. split; [exact Hr | ]. apply Hinv.
Qed.

Lemma operations_return_witness :
  exists F t,
    (forall fuel, (F <= fuel)%nat ->
       HTable.run (zero_mem string) fuel
                  (HTable.HashTable_new (zero_mem string)) six_inserts
       = Ok t) /\
    Z.prime (HTable.GetSize t) /\ HTable.INIT_SIZE <= HTable.GetSize t.
Proof.
  apply (operations_return string (zero_mem string) six_inserts).
  unfold six_inserts. repeat (constructor; [cbn; lia | ]). constructor.
Defined.

(** * Further properties of the lazily initialised array *)

Section ArrayMore.
Import InitArr.
Context {Value : Type}.
Implicit Types (a : InitializedArray Value) (i j : Z) (v : Value).

Lemma Set_out a i v : ~ 0 <= i < length a -> Set_ a i v = Err OutOfRange.
Proof. intros H. unfold Set_. now rewrite IsInitialized_out. Qed.

Lemma wf_is_init_range a j : wf a -> is_init a j -> 0 <= j < length a.
Proof.
  intros [_ Hwf] [Hs He]. destruct (Hwf _ Hs) as [Hr _]. now rewrite He in Hr.
Qed.

(** What a history of [Set] calls leaves of the bookkeeping: the indices
    recorded as written are the indices of the history. *)
Lemma SetAll_is_init (ws : list (Z * Value)) : forall a,
  wf a -> (forall w, In w ws -> 0 <= fst w < length a) ->
  exists a',
    SetAll a ws = Ok a' /\ wf a' /\ length a' = length a /\
    forall j, is_init a' j <-> is_init a j \/ In j (map fst ws).
Proof.
  induction ws as [ | [i v] ws IH]; intros a Hwf Hr; cbn [SetAll].
  - exists a. split; [reflexivity | ]. split; [exact Hwf | ].
    split; [reflexivity | ]. intros j. cbn [map In]. tauto.
  - assert (Hi : 0 <= i < length a) by (apply (Hr (i, v)); now left).
    destruct (Set_spec a i v Hwf Hi)
      as (a1 & HS & Hwf1 & Hl1 & _ & Hii & _ & Ho).
    rewrite HS. cbn [bind].
    destruct (IH a1 Hwf1) as (a' & HA & Hwf' & Hl' & Hinit).
    { intros w Hw. rewrite Hl1. apply Hr. now right. }
    exists a'. split; [exact HA | ]. split; [exact Hwf' | ].
    split; [congruence | ]. intros j. rewrite Hinit. cbn [map fst In].
    destruct (Z.eq_dec j i) as [-> | Hne].
    + tauto.
    + destruct (Ho j Hne) as [Hiff _]. rewrite Hiff.
      assert (i <> j) by congruence. tauto.
Qed.

Lemma written_list_spec a :
  wf a ->
  NoDup (written_list a) /\
  Z.of_nat (Datatypes.length (written_list a)) = top a /\
  forall j, In j (written_list a) <-> is_init a j.
Proof.
  intros Hwf. pose proof Hwf as [Ht Hw]. unfold written_list.
  assert (Hin : forall n : nat, In n (seq 0 (Z.to_nat (top a))) ->
                                0 <= Z.of_nat n < top a).
  { intros n Hn. apply in_seq in Hn. lia. }
  split; [ | split].
  - apply NoDup_map_NoDup_ForallPairs; [ | apply seq_NoDup].
    intros p q Hp Hq Heq. apply Hin in Hp, Hq.
    destruct (Hw _ Hp) as [_ Hsp], (Hw _ Hq) as [_ Hsq].
    rewrite Heq in Hsp. rewrite Hsp in Hsq. lia.
  - rewrite length_map, length_seq. lia.
  - intros j. rewrite in_map_iff. split.
    + intros (n & <- & Hn). apply Hin in Hn.
      destruct (Hw _ Hn) as [_ Hs]. red. rewrite Hs. split; [lia | reflexivity].
    + intros [Hs He]. exists (Z.to_nat (short_cuts a j)).
      rewrite Z2Nat.id by lia. split; [exact He | ]. apply in_seq. lia.
Qed.

End ArrayMore.

(** X2 (bounds).  On every array built by the constructor and a history of
    in-range [Set] calls, [Get] and [Set] throw [out_of_range] exactly on
    the indices outside [0, length): inside they return, and no store ever
    leaves the buffers. *)
Theorem array_errors_exactly_out_of_range :
  forall (Value : Type) (m : InitArr.RawMem Value) (len : Z) (d : Value)
         (ws : list (Z * Value)),
    (forall w, In w ws -> 0 <= fst w < len) ->
    exists a,
      InitArr.SetAll (InitArr.New m len d) ws = Ok a /\
      InitArr.Length a = len /\
      forall i v,
        (0 <= i < len ->
           (exists x, InitArr.Get a i = Ok x) /\
           (exists a', InitArr.Set_ a i v = Ok a')) /\
        (~ 0 <= i < len ->
           InitArr.Get a i = Err OutOfRange /\
           InitArr.Set_ a i v = Err OutOfRange).
Proof.
  intros Value m len d ws Hr.
  destruct (SetAll_Get ws (InitArr.New m len d) (wf_New m len d) Hr)
    as (a & HS & Hwf & Hl & _ & _).
  cbn [InitArr.length InitArr.New] in Hl.
  exists a. split; [exact HS | ]. split; [exact Hl | ].
  intros i v. split; intros Hi.
  - split.
    + destruct (is_init_dec a i).
      * rewrite Get_init by (rewrite ?Hl; assumption). eauto.
      * rewrite Get_not_init by (rewrite ?Hl; assumption). eauto.
    + destruct (Set_Get a i v Hwf) as (a' & HS' & _); [now rewrite Hl | eauto].
  - split; [apply Get_out | apply Set_out]; now rewrite Hl.
Qed.

Lemma array_errors_exactly_out_of_range_witness :
  exists a,
    InitArr.SetAll (InitArr.New hostile_mem 5 (-1)) [(3, 42); (0, 7)] = Ok a /\
    InitArr.Get a 5 = Err OutOfRange /\
    InitArr.Set_ a (-1) 0 = Err OutOfRange /\
    exists x, InitArr.Get a 4 = Ok x.
Proof.
  destruct (array_errors_exactly_out_of_range Z hostile_mem 5 (-1)
              [(3, 42); (0, 7)]) as (a & HS & _ & H).
  { intros w [<- | [<- | []]]; simpl; lia. }
  exists a. split; [exact HS | ].
  split; [apply (proj2 (H 5 0)); lia | ].
  split; [apply (proj2 (H (-1) 0)); lia | ].
  apply (proj1 (H 4 0)). lia.
Defined.

(** X3 (last write wins).  After any history of in-range [Set] calls on a
    fresh array, [Get] on an in-range index returns the value of the last
    call on that index, whatever was written elsewhere in between, and the
    default when there was none. *)
Theorem array_get_returns_last_write :
  forall (Value : Type) (m : InitArr.RawMem Value) (len : Z) (d : Value)
         (ws : list (Z * Value)),
    (forall w, In w ws -> 0 <= fst w < len) ->
    exists a,
      InitArr.SetAll (InitArr.New m len d) ws = Ok a /\
      forall j, 0 <= j < len ->
        InitArr.Get a j = Ok (match last_write ws j with
                              | Some x => x
                              | None => d
                              end).
Proof.
  intros Value m len d ws Hr.
  destruct (SetAll_Get ws (InitArr.New m len d) (wf_New m len d) Hr)
    as (a & HS & _ & _ & _ & Hget).
  exists a. split; [exact HS | ]. intros j Hj. rewrite Hget.
  cbn [InitArr.length InitArr.New].
  destruct (last_write ws j).
  - destruct (Z.leb_spec 0 j), (Z.ltb_spec j len); try lia. reflexivity.
  - now apply Get_New.
Qed.

Lemma array_get_returns_last_write_witness :
  exists a,
    InitArr.SetAll (InitArr.New hostile_mem 5 (-1))
                   [(3, 42); (0, 7); (3, 43)] = Ok a /\
    InitArr.Get a 3 = Ok 43 /\ InitArr.Get a 0 = Ok 7 /\
    InitArr.Get a 1 = Ok (-1).
Proof.
  destruct (array_get_returns_last_write Z hostile_mem 5 (-1)
              [(3, 42); (0, 7); (3, 43)]) as (a & HS & H).
  { intros w [<- | [<- | [<- | []]]]; simpl; lia. }
  exists a. split; [exact HS | ].
  split; [exact (H 3 ltac:(lia)) | ].
  split; [exact (H 0 ltac:(lia)) | exact (H 1 ltac:(lia))].
Defined.

(** X4 (bookkeeping).  After any history of in-range [Set] calls on a fresh
    array, [top] is the number of distinct indices written: it is the
    length of every duplicate-free list of them, and it does not exceed
    the length of the array. *)
Theorem array_top_counts_written_indices :
  forall (Value : Type) (m : InitArr.RawMem Value) (len : Z) (d : Value)
         (ws : list (Z * Value)),
    (forall w, In w ws -> 0 <= fst w < len) ->
    exists a,
      InitArr.SetAll (InitArr.New m len d) ws = Ok a /\
      (forall l, NoDup l -> (forall j, In j l <-> In j (map fst ws)) ->
                 InitArr.top a = Z.of_nat (Datatypes.length l)) /\
      0 <= InitArr.top a <= Z.max 0 len.
Proof.
  intros Value m len d ws Hr.
  destruct (SetAll_is_init ws (InitArr.New m len d) (wf_New m len d) Hr)
    as (a & HS & Hwf & Hl & Hinit).
  cbn [InitArr.length InitArr.New] in Hl.
  destruct (written_list_spec a Hwf) as (Hnd & Hlen & Hin).
  assert (Hfresh : forall j, ~ is_init (InitArr.New m len d) j).
  { intros j [H _]. cbn in H. lia. }
  assert (Hsame : forall j, In j (written_list a) <-> In j (map fst ws)).
  { intros j. rewrite Hin, Hinit. specialize (Hfresh j). tauto. }
  exists a. split; [exact HS | ]. split.
  - intros l Hl' Hl''. rewrite <- Hlen. f_equal.
    apply Permutation_length.
    apply NoDup_Permutation; try assumption.
    intros j. rewrite Hsame, Hl''. tauto.
  - split; [apply Hwf | ].
    assert (Hincl : incl (map Z.to_nat (written_list a))
                         (seq 0 (Z.to_nat len))).
    { intros x Hx. apply in_map_iff in Hx as (j & <- & Hj).
      apply Hin in Hj. apply (wf_is_init_range a j Hwf) in Hj.
      apply in_seq. lia. }
    assert (Hnd' : NoDup (map Z.to_nat (written_list a))).
    { apply NoDup_map_NoDup_ForallPairs; [ | exact Hnd].
      intros x y Hx Hy Hxy. apply Hin in Hx, Hy.
      apply (wf_is_init_range a _ Hwf) in Hx, Hy. lia. }
    pose proof (NoDup_incl_length Hnd' Hincl) as Hle.
    rewrite length_map, length_seq in Hle. lia.
Qed.

Lemma array_top_counts_written_indices_witness :
  exists a,
    InitArr.SetAll (InitArr.New hostile_mem 5 (-1))
                   [(3, 42); (0, 7); (3, 43)] = Ok a /\
    InitArr.top a = 2.
Proof.
  destruct (array_top_counts_written_indices Z hostile_mem 5 (-1)
              [(3, 42); (0, 7); (3, 43)]) as (a & HS & H & _).
  { intros w [<- | [<- | [<- | []]]]; simpl; lia. }
  exists a. split; [exact HS | ].
  apply (H [3; 0]).
  - repeat constructor; simpl; intuition lia.
  - intros j. simpl. intuition lia.
Defined.

Section CopyFacts.
Import InitArr.
Context {Value : Type}.
Implicit Types (a src dst : InitializedArray Value) (i j : Z).

(** What the loop of the copy constructor leaves in the buffers. *)
Lemma copy_loop_fields n : forall i src dst,
  top (copy_loop Value n i src dst) = top dst /\
  length (copy_loop Value n i src dst) = length dst /\
  def (copy_loop Value n i src dst) = def dst /\
  forall j,
    let inside := (i <=? j) && (j <? i + Z.of_nat n) in
    values (copy_loop Value n i src dst) j =
      (if inside then values src j else values dst j) /\
    short_cuts (copy_loop Value n i src dst) j =
      (if inside then short_cuts src j else short_cuts dst j) /\
    init_indexes (copy_loop Value n i src dst) j =
      (if inside then init_indexes src j else init_indexes dst j).
Proof.
  induction n as [ | n IH]; intros i src dst.
  - cbn [copy_loop]. repeat split; zify_bool; try reflexivity; lia.
  - cbn [copy_loop]. destruct (IH (i + 1) src
      {| values := upd (values dst) i (values src i);
         short_cuts := upd (short_cuts dst) i (short_cuts src i);
         init_indexes := upd (init_indexes dst) i (init_indexes src i);
         top := top dst; length := length dst; def := def dst |})
      as (Ht & Hl & Hd & Hf).
    split; [exact Ht | ]. split; [exact Hl | ]. split; [exact Hd | ].
    intros j. destruct (Hf j) as (Hv & Hs & Hi). cbn zeta in *.
    rewrite Hv, Hs, Hi. cbn [values short_cuts init_indexes]. unfold upd.
    repeat split; zify_bool; cbn [andb]; try reflexivity; try lia;
      subst; reflexivity.
Qed.

End CopyFacts.

(** X5 (copy constructor).  The copy has the length, the default and the
    [top] of the source, and reads like the source on every in-range index
    that is below [top] or was never written; so it is a faithful copy
    exactly when no index from [top] on was written, as for a fresh array
    or one filled from index 0 upwards. *)
Theorem copy_reads_like_source_below_top :
  forall (Value : Type) (m : InitArr.RawMem Value)
         (a : InitArr.InitializedArray Value) (i : Z),
    wf a -> 0 <= i < InitArr.length a ->
    i < InitArr.top a \/ ~ is_init a i ->
    InitArr.Length (InitArr.Copy m a) = InitArr.Length a /\
    InitArr.Default (InitArr.Copy m a) = InitArr.Default a /\
    InitArr.Get (InitArr.Copy m a) i = InitArr.Get a i.
Proof.
  intros Value m a i Hwf Hi Hcase. pose proof Hwf as [Ht Hw].
  unfold InitArr.Copy.
  match goal with
  | |- context [InitArr.copy_loop Value ?n 0 a ?dst] =>
      destruct (copy_loop_fields n 0 a dst) as (Htop & Hlen & Hdef & Hf);
      set (c := InitArr.copy_loop Value n 0 a dst) in *
  end.
  cbn [InitArr.top InitArr.length InitArr.def] in Htop, Hlen, Hdef.
  split; [exact Hlen | ]. split; [exact Hdef | ].
  assert (Hin : forall j, 0 <= j < InitArr.top a ->
            InitArr.values c j = InitArr.values a j /\
            InitArr.short_cuts c j = InitArr.short_cuts a j /\
            InitArr.init_indexes c j = InitArr.init_indexes a j).
  { intros j Hj. destruct (Hf j) as (Hv & Hs & Hii). cbn zeta in *.
    rewrite Hv, Hs, Hii.
    destruct (Z.leb_spec 0 j); [ | lia].
    destruct (Z.ltb_spec j (0 + Z.of_nat (Z.to_nat (InitArr.top a))));
      [ | lia].
    repeat split. }
  assert (Hiff : is_init c i <-> is_init a i).
  { unfold is_init. rewrite Htop. destruct Hcase as [Hlt | Hn].
    - destruct (Hin i ltac:(lia)) as (_ & Hs & _). rewrite Hs.
      split; intros [H1 H2]; (split; [exact H1 | ]);
        destruct (Hin _ H1) as (_ & _ & Hii); congruence.
    - split; [ | intros H; contradiction].
      intros [H1 H2]. exfalso. apply Hn.
      destruct (Hin _ H1) as (_ & _ & Hii). rewrite Hii in H2.
      destruct (Hw _ H1) as [_ Hsc]. rewrite H2 in Hsc.
      red. rewrite Hsc. split; [exact H1 | exact H2]. }
  destruct (is_init_dec a i) as [Hy | Hn].
  - rewrite (Get_init a i Hi Hy).
    rewrite Get_init; [ | now rewrite Hlen | now apply Hiff].
    destruct Hcase as [Hlt | Hn]; [ | contradiction].
    destruct (Hin i ltac:(lia)) as (Hv & _). now rewrite Hv.
  - rewrite (Get_not_init a i Hi Hn).
    rewrite Get_not_init; [now rewrite Hdef | now rewrite Hlen | ].
    now rewrite Hiff.
Qed.

Lemma copy_reads_like_source_below_top_witness :
  exists a,
    InitArr.SetAll (InitArr.New hostile_mem 5 (-1)) [(1, 11); (0, 10)] = Ok a /\
    InitArr.Get (InitArr.Copy hostile_mem a) 1 = Ok 11 /\
    InitArr.Get (InitArr.Copy hostile_mem a) 3 = Ok (-1).
Proof.
  destruct (SetAll_is_init [(1, 11); (0, 10)] (InitArr.New hostile_mem 5 (-1))
              (wf_New hostile_mem 5 (-1))) as (a & HS & Hwf & Hl & Hinit).
  { intros w [<- | [<- | []]]; simpl; lia. }
  exists a. split; [exact HS | ].
  pose proof HS as HS'. cbv in HS'. injection HS' as Ha.
  split.
  - destruct (copy_reads_like_source_below_top Z hostile_mem a 1 Hwf)
      as (_ & _ & ->).
    + rewrite Hl. simpl. lia.
    + left. rewrite <- Ha. simpl. lia.
    + rewrite <- Ha. reflexivity.
  - destruct (copy_reads_like_source_below_top Z hostile_mem a 3 Hwf)
      as (_ & _ & ->).
    + rewrite Hl. simpl. lia.
    + right. rewrite Hinit. intros [[H _] | H]; cbn in H; intuition lia.
    + rewrite <- Ha. reflexivity.
Defined.

(** * Further properties of the table: lookups *)

Section LookupFacts.
Import InitArr HTable.
Context {Value : Type}.
Variable alloc : Z -> RawMem (option (HTableCell Value)).
Implicit Types (a : InitializedArray (option (HTableCell Value))).
Implicit Types (t : HashTable Value) (c : HTableCell Value).
Implicit Types (i j k ky hash : Z) (elem : option (HTableCell Value)).

Lemma Get_Ok_range {A : Type} (b : InitializedArray A) i x :
  Get b i = Ok x -> 0 <= i < length b.
Proof.
  intros H. unfold Get in H. apply bind_Ok in H as (y & Hy & _).
  now apply IsInitialized_inv in Hy.
Qed.

(** Where the probing loop of [FindKey] stops: on the slot it last read,
    and, when it stops on a cell before the probe limit, on a cell of the
    key it looks for. *)
Lemma FindKey_loop_inv n t ky : forall k hash elem k' hash' elem',
  FindKey_loop n t ky k hash elem = Ok (k', hash', elem') ->
  Get (elements t) hash = Ok elem ->
  Get (elements t) hash' = Ok elem' /\
  forall c, elem' = Some c -> k' < size t -> GetKey c = ky.
Proof.
  induction n as [ | n IH]; intros k hash elem k' hash' elem' H Hg;
    [discriminate | ].
  cbn [FindKey_loop] in H. destruct elem as [c | ].
  - destruct (Z.ltb_spec k (size t)).
    + destruct (Z.eqb_spec (GetKey c) ky).
      * injection H as <- <- <-. split; [exact Hg | ].
        intros c' [= <-] _. assumption.
      * apply bind_Ok in H as (elem1 & Hg1 & H). now apply (IH _ _ _ _ _ _ H).
    + injection H as <- <- <-. split; [exact Hg | ]. intros; lia.
  - injection H as <- <- <-. split; [exact Hg | ]. discriminate.
Qed.

(** What [FindKey] can return: -1, or the index of a slot that holds a
    cell of the key, and then the key is not 0. *)
Lemma FindKey_Ok_inv t ky r :
  FindKey t ky = Ok r ->
  r = -1 \/
  exists c, Get (elements t) r = Ok (Some c) /\ GetKey c = ky /\ ky <> 0.
Proof.
  unfold FindKey. intros H.
  apply bind_Ok in H as (elem & Hg & H).
  apply bind_Ok in H as ([[k' hash'] elem'] & HL & H).
  destruct (FindKey_loop_inv _ _ _ _ _ _ _ _ _ HL Hg) as (Hg' & Hkey).
  destruct elem' as [c | ]; [ | injection H as <-; now left].
  destruct (Z.geb_spec k' (size t)); [injection H as <-; now left | ].
  specialize (Hkey c eq_refl ltac:(lia)).
  destruct (Z.eqb_spec (GetKey c) (CELL_STATE_value EMPTY)) as [E | E];
    injection H as <-; [now left | right].
  exists c. split; [exact Hg' | ]. split; [exact Hkey | ].
  cbn [CELL_STATE_value] in E. congruence.
Qed.

Lemma Find_Ok_inv t ky x :
  Find t ky = Ok x ->
  exists r, FindKey t ky = Ok r /\
    (r = -1 /\ x = None \/
     0 <= r /\ exists c, x = Some c /\ Get (elements t) r = Ok x /\
                         GetKey c = ky /\ ky <> 0).
Proof.
  unfold Find. intros H. apply bind_Ok in H as (r & HF & H).
  exists r. split; [exact HF | ].
  destruct (FindKey_Ok_inv t ky r HF) as [-> | (c & Hg & Hk & Hz)].
  - left. cbn in H. now injection H as <-.
  - right. pose proof (Get_Ok_range _ _ _ Hg) as Hr.
    destruct (Z.ltb_spec r 0); [lia | ].
    rewrite Hg in H. cbn [bind] in H. injection H as <-.
    split; [lia | ]. exists c. auto.
Qed.

Lemma Hash_negative t ky :
  0 < size t -> ky < 0 -> Z.rem ky (size t) <> 0 -> Hash t ky 0 < 0.
Proof.
  intros Hs Hk Hr. unfold Hash.
  rewrite Z.mul_0_l, Z.add_0_r, Z.rem_rem by lia.
  pose proof (Z.rem_nonpos ky (size t) ltac:(lia) ltac:(lia)). lia.
Qed.

Lemma FindKey_negative t ky :
  0 < size t -> ky < 0 -> Z.rem ky (size t) <> 0 ->
  FindKey t ky = Err OutOfRange.
Proof.
  intros Hs Hk Hr. unfold FindKey.
  rewrite Get_out; [reflexivity | ].
  pose proof (Hash_negative t ky Hs Hk Hr). lia.
Qed.

End LookupFacts.

(** X6 (lookup is sound).  [Find] never returns the record of another key:
    a record it returns has the key asked for, and that key is not 0.
    [Exists] answers true only when [Find] returns a record. *)
Theorem find_returns_only_the_key_asked_for :
  forall (Value : Type) (t : HTable.HashTable Value) (ky : Z),
    (forall c, HTable.Find t ky = Ok (Some c) ->
               HTable.GetKey c = ky /\ ky <> 0) /\
    (HTable.Exists t ky = Ok true ->
     exists c, HTable.Find t ky = Ok (Some c) /\ HTable.GetKey c = ky).
Proof.
  intros Value t ky. split.
  - intros c H.
    destruct (Find_Ok_inv t ky _ H)
      as (r & _ & [[_ Hx] | (_ & c' & Hx & _ & Hk)]);
      [discriminate | ].
    injection Hx as <-. exact Hk.
  - unfold HTable.Exists. intros H. apply bind_Ok in H as (r & HF & H).
    injection H as H. apply Z.gtb_lt in H.
    destruct (FindKey_Ok_inv t ky r HF) as [-> | (c & Hg & Hk & _)]; [lia | ].
    exists c. split; [ | exact Hk]. unfold HTable.Find. rewrite HF. cbn [bind].
    destruct (Z.ltb_spec r 0); [lia | ]. now rewrite Hg.
Qed.

Lemma find_returns_only_the_key_asked_for_witness :
  exists t,
    HTable.run (zero_mem string) 1 (HTable.HashTable_new (zero_mem string))
               [HTable.OpInsert 8 "x"%string; HTable.OpInsert 1 "y"%string]
      = Ok t /\
    exists c, HTable.Find t 8 = Ok (Some c) /\ HTable.GetKey c = 8.
Proof.
  destruct (HTable.run (zero_mem string) 1
              (HTable.HashTable_new (zero_mem string))
              [HTable.OpInsert 8 "x"%string; HTable.OpInsert 1 "y"%string])
    as [t | e] eqn:E; [ | vm_compute in E; discriminate E].
  exists t. split; [reflexivity | ].
  assert (HF : HTable.Find t 8 = Ok (Some (HTable.mkFull 8 "x"%string)))
    by (apply (eval_at _ _ (fun x => HTable.Find x 8) _ E);
        vm_compute; reflexivity).
  exists (HTable.mkFull 8 "x"%string). split; [exact HF | ].
  exact (proj1 (proj1 (find_returns_only_the_key_asked_for string t 8) _ HF)).
Defined.

(** X7 (negative keys).  On every table of positive capacity, a negative
    key that is not a multiple of the capacity hashes to a negative index:
    [Find], [Exists], [Insert] and [Remove] all end in the array's
    [out_of_range]. *)
Theorem negative_key_is_out_of_range :
  forall (Value : Type)
         (alloc : Z -> InitArr.RawMem (option (HTable.HTableCell Value)))
         (t : HTable.HashTable Value) (ky : Z) (v : Value) (fuel : nat),
    0 < HTable.size t -> ky < 0 -> Z.rem ky (HTable.size t) <> 0 ->
    HTable.Find t ky = Err OutOfRange /\
    HTable.Exists t ky = Err OutOfRange /\
    HTable.Insert alloc (S fuel) t ky v = Err OutOfRange /\
    HTable.Remove alloc fuel t ky = Err OutOfRange.
Proof.
  intros Value alloc t ky v fuel Hs Hk Hr.
  pose proof (FindKey_negative t ky Hs Hk Hr) as HF.
  unfold HTable.Find, HTable.Exists, HTable.Remove. cbn [HTable.Insert].
  rewrite HF. repeat split.
Qed.

Lemma negative_key_is_out_of_range_witness :
  HTable.Find (HTable.HashTable_new (zero_mem string)) (-1) = Err OutOfRange /\
  HTable.Insert (zero_mem string) 1 (HTable.HashTable_new (zero_mem string))
                (-1) "x"%string = Err OutOfRange.
Proof.
  destruct (negative_key_is_out_of_range string (zero_mem string)
              (HTable.HashTable_new (zero_mem string)) (-1) "x"%string 0)
    as (H1 & _ & H3 & _); [reflexivity | reflexivity | discriminate | ].
  split; assumption.
Defined.

(** X8 (key 0).  On every table whose array has as many slots as the
    capacity, key 0 is never found, stored or not: [FindKey(0)] is -1,
    [Find(0)] is NULL, [Exists(0)] is false and [Remove(0)] changes
    nothing. *)
Theorem key_zero_is_never_found :
  forall (Value : Type)
         (alloc : Z -> InitArr.RawMem (option (HTable.HTableCell Value)))
         (t : HTable.HashTable Value) (fuel : nat),
    0 < HTable.size t ->
    InitArr.length (HTable.elements t) = HTable.size t ->
    HTable.FindKey t 0 = Ok (-1) /\
    HTable.Find t 0 = Ok None /\
    HTable.Exists t 0 = Ok false /\
    HTable.Remove alloc fuel t 0 = Ok t.
Proof.
  intros Value alloc t fuel Hs Hl.
  destruct (FindKey_ok t 0 Hs Hl ltac:(lia)) as (r & HF & _).
  destruct (FindKey_Ok_inv t 0 r HF) as [-> | (c & _ & _ & Hz)];
    [ | contradiction].
  unfold HTable.Find, HTable.Exists, HTable.Remove. rewrite HF.
  repeat split.
Qed.

Lemma key_zero_is_never_found_witness :
  exists t,
    HTable.Insert (zero_mem string) 1 (HTable.HashTable_new (zero_mem string))
                  0 "z"%string = Ok t /\
    InitArr.Get (HTable.elements t) 0
    = Ok (Some (HTable.mkFull 0 "z"%string)) /\
    HTable.Find t 0 = Ok None /\
    HTable.Remove (zero_mem string) 1 t 0 = Ok t.
Proof.
  eexists. split; [reflexivity | ]. split; [reflexivity | ].
  refine (let H := key_zero_is_never_found string (zero_mem string) _ 1 _ _ in
          conj (proj1 (proj2 H)) (proj2 (proj2 (proj2 H))));
    [reflexivity | reflexivity].
Defined.

(** X9 (removing an absent key).  When [Find] reports a key absent,
    [Remove] of that key returns the table as it is: same slots, same
    count, same capacity, and no resize. *)
Theorem remove_of_absent_key_changes_nothing :
  forall (Value : Type)
         (alloc : Z -> InitArr.RawMem (option (HTable.HTableCell Value)))
         (t : HTable.HashTable Value) (ky : Z) (fuel : nat),
    HTable.Find t ky = Ok None ->
    HTable.Remove alloc fuel t ky = Ok t.
Proof.
  intros Value alloc t ky fuel H.
  destruct (Find_Ok_inv t ky _ H) as (r & HF & [[-> _] | (_ & c & Hx & _)]);
    [ | discriminate].
  unfold HTable.Remove. rewrite HF. reflexivity.
Qed.

Lemma remove_of_absent_key_changes_nothing_witness :
  HTable.Remove (zero_mem string) 0 (HTable.HashTable_new (zero_mem string)) 3
  = Ok (HTable.HashTable_new (zero_mem string)).
Proof.
  apply remove_of_absent_key_changes_nothing. reflexivity.
Defined.

(** * Further properties of the table: the probe path *)

Section PathFacts.
Import InitArr HTable.
Context {Value : Type}.
Implicit Types (a : InitializedArray (option (HTableCell Value))).
Implicit Types (t : HashTable Value) (c : HTableCell Value).
Implicit Types (i j k ky hash s : Z) (elem : option (HTableCell Value)).

Lemma FindKey_loop_finds t ky j s c :
  finds t ky j s c ->
  forall n k elem,
    0 <= k <= j -> (Z.to_nat (j - k) < n)%nat ->
    Get (elements t) (Hash t ky k) = Ok elem ->
    FindKey_loop n t ky k (Hash t ky k) elem = Ok (j, s, Some c).
Proof.
  intros (Hj & Hs & Hg & Hk & Hp).
  induction n as [ | n IH]; intros k elem Hkj Hn He; [lia | ].
  cbn [FindKey_loop].
  destruct (Z.eq_dec k j) as [-> | Hne].
  - rewrite Hs in *. rewrite Hg in He. injection He as <-.
    destruct (Z.ltb_spec j (size t)); [ | lia].
    destruct (Z.eqb_spec (GetKey c) ky); [reflexivity | contradiction].
  - destruct (Hp k ltac:(lia)) as (c' & Hg' & Hk').
    rewrite Hg' in He. injection He as <-.
    destruct (Z.ltb_spec k (size t)); [ | lia].
    destruct (Z.eqb_spec (GetKey c') ky); [contradiction | ].
    assert (Hnext : exists e, Get (elements t) (Hash t ky (k + 1)) = Ok e).
    { destruct (Z.eq_dec (k + 1) j) as [E | E].
      - rewrite E, Hs. eauto.
      - destruct (Hp (k + 1) ltac:(lia)) as (c2 & Hg2 & _). eauto. }
    destruct Hnext as (e & Hge). rewrite Hge. cbn [bind].
    apply IH; [lia | lia | exact Hge].
Qed.

(** A key met on its probe path, and not 0, is what [FindKey] returns. *)
Lemma FindKey_finds t ky j s c :
  finds t ky j s c -> ky <> 0 -> FindKey t ky = Ok s.
Proof.
  intros Hf Hz. pose proof Hf as (Hj & Hs & Hg & Hk & Hp).
  assert (H0 : exists e, Get (elements t) (Hash t ky 0) = Ok e).
  { destruct (Z.eq_dec 0 j) as [<- | E].
    - rewrite Hs. eauto.
    - destruct (Hp 0 ltac:(lia)) as (c2 & Hg2 & _). eauto. }
  destruct H0 as (e & He). unfold FindKey. rewrite He. cbn [bind].
  rewrite (FindKey_loop_finds t ky j s c Hf _ 0 e) by (try assumption; lia).
  cbn [bind]. destruct (Z.geb_spec j (size t)); [lia | ].
  destruct (Z.eqb_spec (GetKey c) (CELL_STATE_value EMPTY)) as [E | E];
    [ | reflexivity].
  cbn [CELL_STATE_value] in E. congruence.
Qed.

Lemma Find_finds t ky j s c :
  finds t ky j s c -> ky <> 0 -> Find t ky = Ok (Some c).
Proof.
  intros Hf Hz. unfold Find. rewrite (FindKey_finds t ky j s c Hf Hz).
  cbn [bind]. destruct Hf as (_ & _ & Hg & _).
  pose proof (Get_Ok_range _ _ _ Hg).
  destruct (Z.ltb_spec s 0); [lia | ]. now rewrite Hg.
Qed.

(** The probe sequence of a non-negative key has period [size]. *)
Lemma Hash_period t ky k :
  0 < size t -> 0 <= ky -> 0 <= k ->
  Hash t ky (k + size t) = Hash t ky k.
Proof.
  intros Hs Hky Hk. rewrite !Hash_mod by lia.
  replace (ky mod size t + (k + size t) * step ky)
    with (ky mod size t + k * step ky + step ky * size t) by ring.
  apply Z.mod_add. lia.
Qed.

Lemma CELL_STATE_eqb_eq (x y : CELL_STATE) :
  CELL_STATE_eqb x y = true <-> x = y.
Proof. destruct x, y; cbn; split; congruence. Qed.

(** Where the probing loop of [Insert] stops, started at probe [k]: the
    probes before the stop read FULL cells of other keys; a stop within
    the probe limit is on a NULL slot, a cell of the key or a tombstone. *)
Lemma Insert_loop_inv n t ky : forall k elem k' hash' elem',
  Insert_loop n t ky k (Hash t ky k) elem = Ok (k', hash', elem') ->
  Get (elements t) (Hash t ky k) = Ok elem ->
  k <= k' /\ hash' = Hash t ky k' /\
  Get (elements t) hash' = Ok elem' /\
  passes_full t ky k k' /\
  (k' <= size t -> stops_here ky elem') /\
  (k <= size t + 1 -> k' <= size t + 1).
Proof.
  induction n as [ | n IH]; intros k elem k' hash' elem' H Hg;
    [discriminate | ].
  cbn [Insert_loop] in H.
  assert (Hstop : forall e, (k' <= size t -> stops_here ky e) ->
            (k, Hash t ky k, elem) = (k', hash', elem') -> elem = e ->
            k <= k' /\ hash' = Hash t ky k' /\
            Get (elements t) hash' = Ok elem' /\
            passes_full t ky k k' /\
            (k' <= size t -> stops_here ky elem') /\
            (k <= size t + 1 -> k' <= size t + 1)).
  { intros e He [= <- <- <-] ->. split; [lia | ]. split; [reflexivity | ].
    split; [exact Hg | ]. split; [intros i Hi; lia | ]. split; [exact He | ].
    auto. }
  destruct elem as [c | ].
  - destruct (Z.leb_spec k (size t)).
    + destruct ((GetKey c =? ky) || CELL_STATE_eqb (GetCellState c) EMPTY)
        eqn:E.
      * injection H as <- <- <-. apply (Hstop (Some c)); try reflexivity.
        intros _. cbn [stops_here]. apply orb_prop in E as [E | E].
        -- left. now apply Z.eqb_eq.
        -- right. now apply CELL_STATE_eqb_eq.
      * apply orb_false_elim in E as [E1 E2].
        apply bind_Ok in H as (elem1 & Hg1 & H).
        destruct (IH _ _ _ _ _ H Hg1) as (Hle & Hh & Hg' & Hp & Hst & Hb).
        split; [lia | ]. split; [exact Hh | ]. split; [exact Hg' | ].
        split; [ | split; [exact Hst | intros; apply Hb; lia]].
        intros i Hi. destruct (Z.eq_dec i k) as [-> | Hne].
        -- exists c. split; [exact Hg | ]. split.
           ++ now apply Z.eqb_neq.
           ++ destruct (GetCellState c); [discriminate | reflexivity].
        -- apply Hp. lia.
    + injection H as <- <- <-. apply (Hstop (Some c)); try reflexivity. lia.
  - injection H as <- <- <-. apply (Hstop None); try reflexivity.
Qed.

End PathFacts.

(** * Further properties of the table: one slot changes *)

Section SlotFacts.
Import InitArr HTable.
Context {Value : Type}.
Variable alloc : Z -> RawMem (option (HTableCell Value)).
Implicit Types (a : InitializedArray (option (HTableCell Value))).
Implicit Types (t u : HashTable Value) (c d : HTableCell Value).
Implicit Types (i j k ky hash s h : Z) (elem : option (HTableCell Value)).

Lemma same_keys_Get t u j :
  same_keys t u ->
  res_rel (fun e e' => option_map GetKey e = option_map GetKey e')
          (Get (elements t) j) (Get (elements u) j).
Proof.
  intros [_ H]. specialize (H j).
  destruct (Get (elements t) j) as [[c | ] | e],
           (Get (elements u) j) as [[c' | ] | e']; cbn in *; congruence.
Qed.

Lemma FindKey_loop_same_keys t u ky n :
  same_keys t u ->
  forall k hash elem elem',
    option_map GetKey elem = option_map GetKey elem' ->
    res_rel same_probe (FindKey_loop n t ky k hash elem)
                       (FindKey_loop n u ky k hash elem').
Proof.
  intros Hsk. pose proof Hsk as [Hs _].
  induction n as [ | n IH]; intros k hash elem elem' He;
    cbn [FindKey_loop]; [reflexivity | ].
  assert (Hsame : same_probe (k, hash, elem) (k, hash, elem'))
    by (repeat split; exact He).
  destruct elem as [c | ], elem' as [c' | ]; try discriminate;
    [ | exact Hsame].
  assert (Hk : GetKey c = GetKey c') by (cbn in He; congruence).
  rewrite <- Hs, <- Hk.
  destruct (k <? size t); [ | exact Hsame].
  destruct (GetKey c =? ky); [exact Hsame | ].
  rewrite (Hash_eq t u Hs).
  eapply res_rel_bind; [apply same_keys_Get; exact Hsk | ].
  intros e e' Hee. now apply IH.
Qed.

(** [FindKey] looks at nothing but the keys in the slots. *)
Lemma FindKey_same_keys t u ky :
  same_keys t u -> FindKey t ky = FindKey u ky.
Proof.
  intros Hsk. pose proof Hsk as [Hs _]. unfold FindKey.
  rewrite (Hash_eq t u Hs).
  pose proof (same_keys_Get t u (Hash u ky 0) Hsk) as Hg.
  destruct (Get (elements t) (Hash u ky 0)) as [e | x],
           (Get (elements u) (Hash u ky 0)) as [e' | x'];
    cbn in Hg; try contradiction; [ | cbn [bind]; congruence].
  cbn [bind].
  pose proof (FindKey_loop_same_keys t u ky (S (Z.to_nat (size t))) Hsk
                0 (Hash u ky 0) e e' Hg) as HL.
  rewrite <- Hs.
  destruct (FindKey_loop (S (Z.to_nat (size t))) t ky 0 (Hash u ky 0) e)
    as [[[k1 h1] e1] | x],
    (FindKey_loop (S (Z.to_nat (size t))) u ky 0 (Hash u ky 0) e')
    as [[[k2 h2] e2] | x']; cbn in HL; try contradiction;
    [ | cbn [bind]; congruence].
  destruct HL as (Hk & Hh & He). cbn in Hk, Hh, He. subst k2 h2.
  cbn [bind]. destruct e1 as [c1 | ], e2 as [c2 | ]; try discriminate;
    [ | reflexivity].
  cbn in He. injection He as He. now rewrite He.
Qed.

Lemma slot_set_same_keys t u h c d :
  slot_set t u h c -> Get (elements t) h = Ok (Some d) ->
  GetKey c = GetKey d -> same_keys u t.
Proof.
  intros (Hs & Hg & Ho & _) Hd Hk. split; [exact Hs | ].
  intros j. destruct (Z.eq_dec j h) as [-> | Hne].
  - rewrite Hg, Hd. cbn. now rewrite Hk.
  - now rewrite Ho.
Qed.

(** Replacing a cell by a cell of the same key moves no lookup: the key
    of the slot reads the new cell where it read the old one, every other
    key reads what it read. *)
Lemma slot_set_Find_other t u h c d ky :
  slot_set t u h c -> Get (elements t) h = Ok (Some d) ->
  GetKey c = GetKey d -> ky <> GetKey d ->
  Find u ky = Find t ky.
Proof.
  intros Hss Hd Hk Hne.
  pose proof (FindKey_same_keys u t ky (slot_set_same_keys _ _ _ _ _ Hss Hd Hk))
    as HF.
  destruct Hss as (Hs & Hg & Ho & _).
  unfold Find. rewrite HF.
  destruct (FindKey t ky) as [r | e] eqn:HFt; [ | reflexivity].
  cbn [bind]. destruct (r <? 0); [reflexivity | ].
  destruct (FindKey_Ok_inv t ky r HFt) as [-> | (x & Hx & Hkx & Hz)].
  - now rewrite !Get_out by lia.
  - rewrite Ho; [reflexivity | ]. intros ->. rewrite Hd in Hx. congruence.
Qed.

Lemma slot_set_Find_same t u h c d :
  slot_set t u h c -> Get (elements t) h = Ok (Some d) ->
  GetKey c = GetKey d -> FindKey t (GetKey d) = Ok h ->
  Find u (GetKey d) = Ok (Some c).
Proof.
  intros Hss Hd Hk HFt.
  pose proof (FindKey_same_keys u t (GetKey d)
                (slot_set_same_keys _ _ _ _ _ Hss Hd Hk)) as HF.
  destruct Hss as (Hs & Hg & Ho & _).
  unfold Find. rewrite HF, HFt. cbn [bind].
  pose proof (Get_Ok_range _ _ _ Hg) as Hr.
  destruct (Z.ltb_spec h 0); [lia | ]. now rewrite Hg.
Qed.

End SlotFacts.

(** * Further properties of the table: what every reachable table keeps *)

Section ReachableFacts.
Import InitArr HTable.
Context {Value : Type}.
Variable alloc : Z -> RawMem (option (HTableCell Value)).
Implicit Types (a : InitializedArray (option (HTableCell Value))).
Implicit Types (t u : HashTable Value) (c d : HTableCell Value).
Implicit Types (i j k ky hash s h : Z) (elem : option (HTableCell Value)).

Lemma Set_Ok_inv {A : Type} (b b' : InitializedArray A) i (x : A) :
  wf b -> Set_ b i x = Ok b' ->
  0 <= i < length b /\ wf b' /\ length b' = length b /\ def b' = def b /\
  Get b' i = Ok x /\ forall j, j <> i -> Get b' j = Get b j.
Proof.
  intros Hwf HS.
  assert (Hr : 0 <= i < length b).
  { destruct (Z_lt_le_dec i 0); [rewrite Set_out in HS by lia; discriminate | ].
    destruct (Z_lt_le_dec i (length b)); [lia | ].
    rewrite Set_out in HS by lia. discriminate. }
  destruct (Set_Get b i x Hwf Hr) as (b2 & HS2 & H).
  rewrite HS in HS2. injection HS2 as <-. split; [exact Hr | exact H].
Qed.

Lemma shape_ok_new p :
  Z.prime p -> 7 <= p ->
  shape_ok {| elements := new_elements alloc p; size := p;
              total_elements := 0 |}.
Proof.
  intros Hp H7. split; [apply wf_New | ]. split; [reflexivity | ].
  split; [reflexivity | ]. split; assumption.
Qed.

Lemma shape_ok_Set t h x els tot :
  shape_ok t -> Set_ (elements t) h x = Ok els ->
  shape_ok {| elements := els; size := size t; total_elements := tot |}.
Proof.
  intros (Hwf & Hd & Hl & Hc) HS.
  destruct (Set_Ok_inv _ _ _ _ Hwf HS) as (_ & Hwf' & Hl' & Hd' & _).
  split; [exact Hwf' | ]. split; [cbn; congruence | ].
  split; [cbn; congruence | exact Hc].
Qed.

Lemma ReHash_loop_load ins n :
  ins_load ins ->
  forall i old t t',
    load_ok t -> ReHash_loop ins n i old t = Ok t' -> load_ok t'.
Proof.
  intros Hins. induction n as [ | n IH]; intros i old t t' Ht H;
    cbn [ReHash_loop] in H.
  - now injection H as <-.
  - apply bind_Ok in H as (elem & _ & H). destruct elem as [c | ].
    + destruct (CELL_STATE_eqb (GetCellState c) EMPTY).
      * apply bind_Ok in H as (old' & _ & H). now apply (IH _ _ _ _ Ht H).
      * apply bind_Ok in H as (t1 & H1 & H).
        apply (IH _ _ _ _ (Hins _ _ _ _ Ht H1) H).
    + now apply (IH _ _ _ _ Ht H).
Qed.

Lemma load_ok_new p :
  Z.prime p -> 7 <= p ->
  load_ok {| elements := new_elements alloc p; size := p;
             total_elements := 0 |}.
Proof.
  intros Hp H7. split; [now apply shape_ok_new | ].
  cbn [total_elements size]. lia.
Qed.

(** [ReHash(UP)] establishes the load bound, [ReHash(DOWN)] keeps it. *)
Lemma ReHash_with_load fuel ins dir t t' :
  ins_load ins -> shape_ok t ->
  (dir = DOWN -> 4 * total_elements t < 3 * size t) ->
  ReHash_with alloc fuel ins dir t = Ok t' -> load_ok t'.
Proof.
  intros Hins Hsh Hdown H. pose proof Hsh as (_ & _ & _ & Hp & H7).
  unfold INIT_SIZE in H7. unfold ReHash_with in H.
  rewrite grow_test in H.
  destruct (DIRECTION_eqb dir UP && (3 * size t <=? 4 * total_elements t))
    eqn:E1.
  - apply bind_Ok in H as (p & Hfp & H). rewrite Qfloor_expand in Hfp.
    apply FindNextPrime_spec in Hfp as (Hlt & Hpp & _); [ | lia].
    apply (ReHash_loop_load _ _ Hins _ _ _ _) in H; [exact H | ].
    apply load_ok_new; [exact Hpp | lia].
  - destruct (DIRECTION_eqb dir DOWN && (size t >? INIT_SIZE) && _) eqn:E2.
    + apply andb_prop in E2 as [E2 _]. apply andb_prop in E2 as [_ E2].
      unfold INIT_SIZE in E2. apply Z.gtb_lt in E2.
      pose proof (prime_above_7 _ Hp E2) as H11.
      apply bind_Ok in H as (p & Hfp & H). rewrite Qfloor_reduce in Hfp.
      assert (H5 : 5 <= size t / 2) by (apply Z.div_le_lower_bound; lia).
      apply FindNextPrime_spec in Hfp as (Hlt & Hpp & _); [ | lia].
      pose proof (prime_above_5 p Hpp ltac:(lia)) as Hp7.
      apply (ReHash_loop_load _ _ Hins _ _ _ _) in H; [exact H | ].
      now apply load_ok_new.
    + injection H as <-. split; [exact Hsh | ].
      destruct dir; [now apply Hdown | ].
      cbn [DIRECTION_eqb andb] in E1. apply Z.leb_gt in E1. exact E1.
Qed.

Lemma Insert_load fuel : ins_load (Insert alloc fuel).
Proof.
  induction fuel as [ | fuel IH]; intros t ky v t' [Hsh Hload] H;
    [discriminate | ].
  cbn [Insert] in H.
  apply bind_Ok in H as (is_exist & _ & H).
  destruct (is_exist >? 0).
  - apply bind_Ok in H as (? & _ & H). apply bind_Ok in H as (els & HS & H).
    injection H as <-. split; [ | exact Hload].
    apply (shape_ok_Set t _ _ _ _ Hsh HS).
  - apply bind_Ok in H as (elem & _ & H).
    apply bind_Ok in H as ([[k hash] elem'] & _ & H).
    apply bind_Ok in H as (els & HS & H).
    apply (ReHash_with_load _ _ _ _ _ IH) in H; [exact H | | discriminate].
    apply (shape_ok_Set t _ _ _ _ Hsh HS).
Qed.

Lemma shape_ok_poke t i c d tot :
  shape_ok t -> Get (elements t) i = Ok (Some d) ->
  shape_ok {| elements := poke (elements t) i c; size := size t;
              total_elements := tot |}.
Proof.
  intros (Hwf & Hd & Hl & Hc) Hg.
  destruct (poke_Get (elements t) i c d Hwf Hd Hg) as (Hwf' & _).
  split; [exact Hwf' | ]. split; [exact Hd | ]. split; [exact Hl | exact Hc].
Qed.

Lemma Remove_load fuel t ky t' :
  load_ok t -> Remove alloc fuel t ky = Ok t' -> load_ok t'.
Proof.
  intros [Hsh Hload] H. unfold Remove in H.
  apply bind_Ok in H as (is_exist & _ & H).
  destruct (is_exist <? 0); [injection H as <-; now split | ].
  apply bind_Ok in H as (elem & Hg & H).
  destruct elem as [c | ]; [ | discriminate].
  destruct (CELL_STATE_eqb (GetCellState c) FULL);
    [ | injection H as <-; now split].
  apply (ReHash_with_load _ _ _ _ _ (Insert_load fuel)) in H;
    [exact H | | intros _; cbn [total_elements size]; lia].
  exact (shape_ok_poke t is_exist (SetCellState c EMPTY) c _ Hsh Hg).
Qed.

Lemma Merge_loop_load fuel n src : forall i t t',
  load_ok t -> Merge_loop alloc fuel n i src t = Ok t' -> load_ok t'.
Proof.
  induction n as [ | n IH]; intros i t t' Ht H; cbn [Merge_loop] in H.
  - now injection H as <-.
  - apply bind_Ok in H as (elem & _ & H). destruct elem as [c | ].
    + destruct (CELL_STATE_eqb (GetCellState c) EMPTY).
      * now apply (IH _ _ _ Ht H).
      * apply bind_Ok in H as (t1 & H1 & H).
        apply (IH _ _ _ (Insert_load fuel _ _ _ _ Ht H1) H).
    + now apply (IH _ _ _ Ht H).
Qed.

Lemma Merge_load fuel t1 t2 t' :
  load_ok t1 -> load_ok t2 -> Merge alloc fuel t1 t2 = Ok t' -> load_ok t'.
Proof.
  intros [(_ & _ & _ & _ & H1) _] [(_ & _ & _ & _ & H2) _] H.
  unfold INIT_SIZE in *. unfold Merge in H.
  apply bind_Ok in H as (p & Hfp & H).
  apply FindNextPrime_spec in Hfp as (Hlt & Hpp & _); [ | lia].
  apply bind_Ok in H as (t & Ht & H).
  apply (Merge_loop_load _ _ _ _ _ _) in Ht;
    [ | apply load_ok_new; [exact Hpp | lia]].
  now apply (Merge_loop_load _ _ _ _ _ _ Ht H).
Qed.

Lemma reachable_load_ok t : reachable alloc t -> load_ok t.
Proof.
  intros Hr.
  induction Hr as [ | fuel t ky v t' _ IH H | fuel t ky t' _ IH H
                    | fuel t1 t2 t' _ IH1 _ IH2 H].
  - apply (load_ok_new 7); [exact prime_7 | lia].
  - exact (Insert_load fuel _ _ _ _ IH H).
  - exact (Remove_load fuel _ _ _ IH H).
  - exact (Merge_load fuel _ _ _ IH1 IH2 H).
Qed.

End ReachableFacts.

(** X10 (load factor).  After construction and after every [Insert],
    [Remove] and merging construction, the count [GetTotalElements()] is
    strictly below three quarters of the capacity [GetSize()]. *)
Theorem load_factor_below_max_ratio :
  forall (Value : Type)
         (alloc : Z -> InitArr.RawMem (option (HTable.HTableCell Value)))
         (t : HTable.HashTable Value),
    reachable alloc t ->
    4 * HTable.GetTotalElements t < 3 * HTable.GetSize t.
Proof. intros Value alloc t Hr. apply (reachable_load_ok alloc t Hr). Qed.

Lemma load_factor_below_max_ratio_witness :
  exists t,
    HTable.run (zero_mem string) 4 (HTable.HashTable_new (zero_mem string))
               six_inserts = Ok t /\
    HTable.GetTotalElements t = 6 /\ HTable.GetSize t = 17 /\
    4 * HTable.GetTotalElements t < 3 * HTable.GetSize t.
Proof.
  destruct (HTable.run (zero_mem string) 4
              (HTable.HashTable_new (zero_mem string)) six_inserts)
    as [t | e] eqn:E; [ | vm_compute in E; discriminate E].
  exists t. split; [reflexivity | ].
  split; [apply (eval_at _ _ HTable.GetTotalElements _ E);
          vm_compute; reflexivity | ].
  split; [apply (eval_at _ _ HTable.GetSize _ E); vm_compute; reflexivity | ].
  apply (load_factor_below_max_ratio string (zero_mem string) t).
  exact (run_reachable _ _ _ _ _ (reach_new _) E).
Defined.

Section SlotSetFacts.
Import InitArr HTable.
Context {Value : Type}.
Implicit Types (t u : HashTable Value) (c d : HTableCell Value).

Lemma Set_slot_set t h c tot :
  wf (elements t) -> 0 <= h < length (elements t) ->
  exists els,
    Set_ (elements t) h (Some c) = Ok els /\
    slot_set t {| elements := els; size := size t; total_elements := tot |}
             h c.
Proof.
  intros Hwf Hr.
  destruct (Set_Get (elements t) h (Some c) Hwf Hr)
    as (els & HS & Hwf' & Hl & Hd & Hg & Ho).
  exists els. split; [exact HS | ].
  split; [reflexivity | ]. split; [exact Hg | ]. split; [exact Ho | ].
  split; [exact Hwf' | ]. split; [exact Hd | exact Hl].
Qed.

Lemma poke_slot_set t h c d tot :
  wf (elements t) -> def (elements t) = None ->
  Get (elements t) h = Ok (Some d) ->
  slot_set t {| elements := poke (elements t) h c; size := size t;
                total_elements := tot |} h c.
Proof.
  intros Hwf Hd Hg.
  destruct (poke_Get (elements t) h c d Hwf Hd Hg) as (Hwf' & Hgi & Ho).
  split; [reflexivity | ]. split; [exact Hgi | ]. split; [exact Ho | ].
  split; [exact Hwf' | ]. split; reflexivity.
Qed.

End SlotSetFacts.

(** X11 (update in place).  On a reachable table, [Insert(k, v)] of a key
    for which [Exists] answers true replaces the record of [k] and nothing
    else: capacity and count stay, [Find(k)] returns (k, v, FULL), and
    [Find] of every other key returns what it returned before. *)
Theorem insert_of_existing_key_updates_in_place :
  forall (Value : Type)
         (alloc : Z -> InitArr.RawMem (option (HTable.HTableCell Value)))
         (t : HTable.HashTable Value) (ky : Z) (v : Value) (fuel : nat),
    reachable alloc t ->
    HTable.Exists t ky = Ok true ->
    exists t',
      HTable.Insert alloc (S fuel) t ky v = Ok t' /\
      HTable.GetSize t' = HTable.GetSize t /\
      HTable.GetTotalElements t' = HTable.GetTotalElements t /\
      HTable.Find t' ky = Ok (Some (HTable.mkFull ky v)) /\
      forall k1, k1 <> ky -> HTable.Find t' k1 = HTable.Find t k1.
Proof.
  intros Value alloc t ky v fuel Hr Hex.
  destruct (reachable_load_ok alloc t Hr) as [(Hwf & _) _].
  unfold HTable.Exists in Hex. apply bind_Ok in Hex as (h & HF & Hh).
  injection Hh as Hh.
  destruct (FindKey_Ok_inv t ky h HF) as [-> | (d & Hg & Hk & _)];
    [discriminate | ].
  destruct (Set_slot_set t h (HTable.mkFull ky v) (HTable.total_elements t)
              Hwf (Get_Ok_range _ _ _ Hg)) as (els & HS & Hss).
  eexists. split.
  { cbn [HTable.Insert]. rewrite HF. cbn [bind]. rewrite Hh, Hg. cbn [bind].
    rewrite HS. reflexivity. }
  split; [reflexivity | ]. split; [reflexivity | ]. split.
  - rewrite <- Hk at 1.
    apply (slot_set_Find_same t _ h _ d Hss Hg); [now rewrite Hk | ].
    now rewrite Hk.
  - intros k1 Hne.
    apply (slot_set_Find_other t _ h _ d k1 Hss Hg); [now rewrite Hk | ].
    now rewrite Hk.
Qed.

Lemma insert_of_existing_key_updates_in_place_witness :
  exists t t',
    HTable.run (zero_mem string) 1 (HTable.HashTable_new (zero_mem string))
               [HTable.OpInsert 1 "a"%string; HTable.OpInsert 8 "b"%string]
      = Ok t /\
    HTable.Insert (zero_mem string) 1 t 8 "c"%string = Ok t' /\
    HTable.GetTotalElements t' = HTable.GetTotalElements t /\
    HTable.Find t' 8 = Ok (Some (HTable.mkFull 8 "c"%string)) /\
    HTable.Find t' 1 = HTable.Find t 1.
Proof.
  destruct (HTable.run (zero_mem string) 1
              (HTable.HashTable_new (zero_mem string))
              [HTable.OpInsert 1 "a"%string; HTable.OpInsert 8 "b"%string])
    as [t | e] eqn:E; [ | vm_compute in E; discriminate E].
  destruct (insert_of_existing_key_updates_in_place string (zero_mem string)
              t 8 "c"%string 0) as (t' & HI & _ & Htot & Hf & Ho).
  - exact (run_reachable _ _ _ _ _ (reach_new _) E).
  - apply (eval_at _ _ (fun x => HTable.Exists x 8) _ E).
    vm_compute. reflexivity.
  - exists t, t'. split; [reflexivity | ]. split; [exact HI | ].
    split; [exact Htot | ]. split; [exact Hf | ]. apply Ho. lia.
Defined.

(** X12 (removing a live key).  On a reachable table, [Remove(k)] of a key
    whose record [Find] returns with state FULL, when the table does not
    shrink (capacity 7, or a count that stays at a quarter of the capacity
    or more), marks that record EMPTY and touches nothing else: the
    capacity stays, the count drops by one, [Find] of every other key
    returns what it returned before, and a second [Remove(k)] changes
    nothing. *)
Theorem remove_of_live_key_marks_its_cell_only :
  forall (Value : Type)
         (alloc : Z -> InitArr.RawMem (option (HTable.HTableCell Value)))
         (t : HTable.HashTable Value) (ky : Z) (c : HTable.HTableCell Value)
         (fuel : nat),
    reachable alloc t ->
    HTable.Find t ky = Ok (Some c) ->
    HTable.GetCellState c = HTable.FULL ->
    HTable.GetSize t = 7 \/
    HTable.GetSize t <= 4 * (HTable.GetTotalElements t - 1) ->
    exists t',
      HTable.Remove alloc fuel t ky = Ok t' /\
      HTable.GetSize t' = HTable.GetSize t /\
      HTable.GetTotalElements t' = HTable.GetTotalElements t - 1 /\
      HTable.Find t' ky = Ok (Some (HTable.SetCellState c HTable.EMPTY)) /\
      (forall k1, k1 <> ky -> HTable.Find t' k1 = HTable.Find t k1) /\
      HTable.Remove alloc fuel t' ky = Ok t'.
Proof.
  intros Value alloc t ky c fuel Hr Hfind Hfull Hkeep.
  destruct (reachable_load_ok alloc t Hr) as [(Hwf & Hd & _) _].
  destruct (Find_Ok_inv t ky _ Hfind)
    as (h & HF & [[_ Hx] | (Hh & c' & Hx & Hg & Hk & Hz)]); [discriminate | ].
  injection Hx as <-.
  set (c1 := HTable.SetCellState c HTable.EMPTY).
  set (t' := {| HTable.elements := poke (HTable.elements t) h c1;
                HTable.size := HTable.size t;
                HTable.total_elements := HTable.total_elements t - 1 |}).
  assert (Hss : slot_set t t' h c1) by now apply (poke_slot_set t h c1 c).
  assert (Hkeys : HTable.FindKey t' ky = Ok h).
  { rewrite <- HF. apply FindKey_same_keys.
    apply (slot_set_same_keys t t' h c1 c Hss Hg eq_refl). }
  assert (Hrem : HTable.Remove alloc fuel t ky = Ok t').
  { unfold HTable.Remove. rewrite HF. cbn [bind].
    destruct (Z.ltb_spec h 0); [lia | ]. rewrite Hg. cbn [bind].
    rewrite Hfull. cbn [HTable.CELL_STATE_eqb].
    unfold HTable.ReHash, HTable.ReHash_with.
    cbn [HTable.DIRECTION_eqb andb]. rewrite shrink_test.
    cbn [HTable.size HTable.total_elements]. unfold HTable.INIT_SIZE.
    unfold HTable.GetSize, HTable.GetTotalElements in Hkeep.
    destruct (Z.gtb_spec (HTable.size t) 7); cbn [andb]; [ | reflexivity].
    destruct (Z.ltb_spec (4 * (HTable.total_elements t - 1)) (HTable.size t));
      [lia | reflexivity]. }
  exists t'. split; [exact Hrem | ]. split; [reflexivity | ].
  split; [reflexivity | ].
  destruct Hss as (Hs' & Hg' & Ho & Hrest).
  split; [ | split].
  - unfold HTable.Find. rewrite Hkeys. cbn [bind].
    destruct (Z.ltb_spec h 0); [lia | ]. now rewrite Hg'.
  - intros k1 Hne. rewrite <- Hk in Hne.
    apply (slot_set_Find_other t t' h c1 c k1
             (conj Hs' (conj Hg' (conj Ho Hrest))) Hg eq_refl Hne).
  - unfold HTable.Remove. rewrite Hkeys. cbn [bind].
    destruct (Z.ltb_spec h 0); [lia | ]. rewrite Hg'. reflexivity.
Qed.

Lemma remove_of_live_key_marks_its_cell_only_witness :
  exists t t',
    HTable.run (zero_mem string) 1 (HTable.HashTable_new (zero_mem string))
               [HTable.OpInsert 1 "a"%string; HTable.OpInsert 8 "b"%string]
      = Ok t /\
    HTable.Remove (zero_mem string) 1 t 8 = Ok t' /\
    HTable.GetTotalElements t' = HTable.GetTotalElements t - 1 /\
    HTable.Find t' 1 = HTable.Find t 1 /\
    HTable.Remove (zero_mem string) 1 t' 8 = Ok t'.
Proof.
  destruct (HTable.run (zero_mem string) 1
              (HTable.HashTable_new (zero_mem string))
              [HTable.OpInsert 1 "a"%string; HTable.OpInsert 8 "b"%string])
    as [t | e] eqn:E; [ | vm_compute in E; discriminate E].
  destruct (remove_of_live_key_marks_its_cell_only string (zero_mem string)
              t 8 (HTable.mkFull 8 "b"%string) 1)
    as (t' & HR & _ & Htot & _ & Ho & HR2).
  - exact (run_reachable _ _ _ _ _ (reach_new _) E).
  - apply (eval_at _ _ (fun x => HTable.Find x 8) _ E).
    vm_compute. reflexivity.
  - reflexivity.
  - left. apply (eval_at _ _ HTable.GetSize _ E). vm_compute. reflexivity.
  - exists t, t'. split; [reflexivity | ]. split; [exact HR | ].
    split; [exact Htot | ]. split; [apply Ho; lia | exact HR2].
Defined.

(** * Further properties of the table: what one insertion writes *)

Section InsertFacts.
Import InitArr HTable.
Context {Value : Type}.
Variable alloc : Z -> RawMem (option (HTableCell Value)).
Implicit Types (a : InitializedArray (option (HTableCell Value))).
Implicit Types (t u : HashTable Value) (c d : HTableCell Value).
Implicit Types (i j k ky hash s h : Z) (elem : option (HTableCell Value)).

(** The path the probing loop of [FindKey] has walked when it stops. *)
Lemma FindKey_loop_path n t ky : forall k elem k' hash' elem',
  FindKey_loop n t ky k (Hash t ky k) elem = Ok (k', hash', elem') ->
  Get (elements t) (Hash t ky k) = Ok elem ->
  k <= k' /\ hash' = Hash t ky k' /\ passes t ky k k'.
Proof.
  induction n as [ | n IH]; intros k elem k' hash' elem' H Hg;
    [discriminate | ].
  cbn [FindKey_loop] in H.
  assert (Hstop : (k, Hash t ky k, elem) = (k', hash', elem') ->
                  k <= k' /\ hash' = Hash t ky k' /\ passes t ky k k').
  { intros [= <- <- <-]. split; [lia | ]. split; [reflexivity | ].
    intros i Hi. lia. }
  destruct elem as [c | ]; [ | injection H as <- <- <-; now apply Hstop].
  destruct (Z.ltb_spec k (size t));
    [ | injection H as <- <- <-; now apply Hstop].
  destruct (Z.eqb_spec (GetKey c) ky);
    [injection H as <- <- <-; now apply Hstop | ].
  apply bind_Ok in H as (elem1 & Hg1 & H).
  destruct (IH _ _ _ _ _ H Hg1) as (Hle & Hh & Hp).
  split; [lia | ]. split; [exact Hh | ].
  intros i Hi. destruct (Z.eq_dec i k) as [-> | Hne].
  - exists c. now split.
  - apply Hp. lia.
Qed.

(** A slot that [FindKey] returns is where the key is first met on its
    probe path. *)
Lemma FindKey_found t ky r :
  FindKey t ky = Ok r -> r <> -1 ->
  exists j c, finds t ky j r c /\ ky <> 0.
Proof.
  unfold FindKey. intros H Hr.
  apply bind_Ok in H as (elem & Hg & H).
  apply bind_Ok in H as ([[k' hash'] elem'] & HL & H).
  destruct (FindKey_loop_inv _ _ _ _ _ _ _ _ _ HL Hg) as (Hg' & Hkey).
  destruct (FindKey_loop_path _ _ _ _ _ _ _ _ HL Hg) as (Hle & Hh & Hp).
  destruct elem' as [c | ]; [ | injection H as <-; contradiction].
  destruct (Z.geb_spec k' (size t)); [injection H as <-; contradiction | ].
  destruct (Z.eqb_spec (GetKey c) (CELL_STATE_value EMPTY)) as [E | E];
    injection H as <-; [contradiction | ].
  specialize (Hkey c eq_refl ltac:(lia)).
  exists k', c. split.
  - split; [lia | ]. split; [now rewrite Hh | ]. split; [exact Hg' | ].
    split; [exact Hkey | exact Hp].
  - cbn [CELL_STATE_value] in E. congruence.
Qed.

(** What [Insert] did when it returned: either it replaced the record of
    the key in the slot [FindKey] gave, or it wrote the record in the slot
    where its probing loop stopped and called [ReHash(UP)]. *)
Lemma Insert_inv fuel t ky v t' :
  shape_ok t -> Insert alloc fuel t ky v = Ok t' ->
  Insert_updated t ky v t' \/
  exists fuel', fuel = S fuel' /\ Insert_wrote alloc t ky v fuel' t'.
Proof.
  intros (Hwf & _ & _ & _ & H7) H. unfold INIT_SIZE in H7.
  destruct fuel as [ | fuel]; [discriminate | ].
  cbn [Insert] in H. apply bind_Ok in H as (r & HF & H).
  destruct (Z.gtb_spec r 0) as [Hpos | Hneg].
  - left. apply bind_Ok in H as (x & Hg & H).
    apply bind_Ok in H as (els & HS & H). injection H as <-.
    destruct (FindKey_Ok_inv t ky r HF) as [-> | (d & Hd & Hk & _)]; [lia | ].
    destruct (Set_slot_set t r (mkFull ky v) (total_elements t) Hwf
                (Get_Ok_range _ _ _ Hd)) as (els' & HS' & Hss).
    rewrite HS in HS'. injection HS' as <-.
    exists r, d. repeat (split; [assumption || reflexivity | ]). reflexivity.
  - right. exists fuel. split; [reflexivity | ].
    apply bind_Ok in H as (elem & Hg & H).
    apply bind_Ok in H as ([[k' hash'] elem'] & HL & H).
    apply bind_Ok in H as (els & HS & H).
    destruct (Insert_loop_inv _ _ _ _ _ _ _ _ HL Hg)
      as (Hle & Hh & Hg' & Hp & Hst & Hb).
    subst hash'.
    destruct (Set_slot_set t (Hash t ky k') (mkFull ky v)
                (match elem' with
                 | Some _ => total_elements t - 1
                 | None => total_elements t
                 end + 1) Hwf (Get_Ok_range _ _ _ Hg'))
      as (els' & HS' & Hss).
    rewrite HS in HS'. injection HS' as <-.
    exists r, k', elem'. eexists. split; [exact HF | ]. split; [lia | ].
    split; [ | split; [exact Hg' | ]].
    { split; [lia | ]. apply Hb. lia. }
    split; [exact Hp | ]. split; [exact Hst | ]. split; [exact Hss | ].
    split; [reflexivity | exact H].
Qed.

Lemma Hash_size t u ky k : size u = size t -> Hash u ky k = Hash t ky k.
Proof. intros H. unfold Hash. now rewrite H. Qed.

(** After the write of [Insert], the key is met on its probe path in the
    slot that was written. *)
Lemma wrote_finds t ky v k' elem' u :
  1 < size t -> 0 <= ky ->
  0 <= k' <= size t + 1 ->
  Get (elements t) (Hash t ky k') = Ok elem' ->
  passes_full t ky 0 k' ->
  (k' <= size t -> stops_here ky elem') ->
  slot_set t u (Hash t ky k') (mkFull ky v) ->
  exists j, finds u ky j (Hash t ky k') (mkFull ky v).
Proof.
  intros Hs Hky Hk Hg Hp Hst (Hsz & Hgu & Ho & _).
  remember (Hash t ky k') as h eqn:Hh.
  assert (Hstop : forall i, 0 <= i < k' -> k' <= size t -> Hash t ky i <> h).
  { intros i Hi Hle E. destruct (Hp i Hi) as (c & Hc & Hne & Hfull).
    rewrite E, Hg in Hc. injection Hc as ->. specialize (Hst Hle).
    cbn [stops_here] in Hst. destruct Hst; congruence. }
  assert (Hpass : forall j, j <= k' ->
            (forall i, 0 <= i < j -> Hash t ky i <> h) -> passes u ky 0 j).
  { intros j Hj Hne i Hi. destruct (Hp i ltac:(lia)) as (c & Hc & Hk' & _).
    exists c. rewrite (Hash_size t u) by assumption.
    rewrite Ho by now apply Hne. now split. }
  assert (Hper : Hash t ky (size t) = Hash t ky 0)
    by apply (Hash_period t ky 0 ltac:(lia) Hky ltac:(lia)).
  assert (Hper1 : Hash t ky (size t + 1) = Hash t ky 1).
  { rewrite Z.add_comm. apply (Hash_period t ky 1); lia. }
  destruct (Z_lt_le_dec k' (size t)) as [Hlt | Hge].
  - exists k'. split; [lia | ].
    split; [rewrite Hh; now apply Hash_size | ]. split; [exact Hgu | ].
    split; [reflexivity | ].
    apply (Hpass k'); [lia | ]. intros i Hi. apply Hstop; lia.
  - destruct (Z.eq_dec k' (size t)) as [E | Hne].
    + exfalso. apply (Hstop 0); [lia | lia | ].
      now rewrite Hh, E, Hper.
    + assert (Hk1 : k' = size t + 1) by lia.
      rewrite Hk1, Hper1 in Hh.
      destruct (Z.eq_dec (Hash t ky 0) h) as [E | E].
      * exists 0. split; [lia | ].
        split; [now rewrite (Hash_size t u) | ]. split; [exact Hgu | ].
        split; [reflexivity | ]. intros i Hi. lia.
      * exists 1. split; [lia | ].
        split; [rewrite Hh; now apply Hash_size | ]. split; [exact Hgu | ].
        split; [reflexivity | ].
        apply (Hpass 1); [lia | ]. intros i Hi.
        replace i with 0 by lia. exact E.
Qed.

(** A write of [Insert] that stopped within the probe limit leaves the
    live record of every other key where [Find] meets it. *)
Lemma wrote_keeps t ky v k' elem' u k1 c1 :
  k' <= size t ->
  Get (elements t) (Hash t ky k') = Ok elem' ->
  stops_here ky elem' ->
  slot_set t u (Hash t ky k') (mkFull ky v) ->
  k1 <> ky -> Find t k1 = Ok (Some c1) -> GetCellState c1 = FULL ->
  Find u k1 = Ok (Some c1).
Proof.
  intros Hle Hg Hst (Hsz & Hgu & Ho & _) Hne Hfind Hfull.
  destruct (Find_Ok_inv t k1 _ Hfind)
    as (r & HF & [[_ Hx] | (Hr & c' & Hx & Hgr & Hk & Hz)]); [discriminate | ].
  injection Hx as <-.
  destruct (FindKey_found t k1 r HF ltac:(lia)) as (j & c2 & Hf & _).
  destruct Hf as (Hj & Hh & Hg2 & Hk2 & Hp).
  rewrite Hgr in Hg2. injection Hg2 as <-.
  assert (Hrh : r <> Hash t ky k').
  { intros ->. rewrite Hg in Hgr. injection Hgr as ->.
    cbn [stops_here] in Hst. destruct Hst; congruence. }
  apply (Find_finds u k1 j r c1); [ | exact Hz].
  split; [lia | ]. split; [now rewrite (Hash_size t u) | ].
  split; [now rewrite Ho | ]. split; [exact Hk | ].
  intros i Hi. rewrite (Hash_size t u) by assumption.
  destruct (Z.eq_dec (Hash t k1 i) (Hash t ky k')) as [E | E].
  - exists (mkFull ky v). rewrite E. split; [exact Hgu | ].
    cbn. congruence.
  - rewrite Ho by exact E. apply Hp. exact Hi.
Qed.

(** [ReHash(UP)] either returns its table, or rebuilds it in a table of
    the least prime capacity above twice the old one. *)
Lemma ReHash_up_inv fuel ins t t' :
  ReHash_with alloc fuel ins UP t = Ok t' ->
  (4 * total_elements t < 3 * size t /\ t' = t) \/
  (3 * size t <= 4 * total_elements t /\
   exists p,
     FindNextPrime fuel (2 * size t) = Ok p /\
     ReHash_loop ins (Z.to_nat (size t)) 0 (elements t)
       {| elements := new_elements alloc p; size := p;
          total_elements := 0 |} = Ok t').
Proof.
  unfold ReHash_with. rewrite grow_test. cbn [DIRECTION_eqb andb].
  destruct (Z.leb_spec (3 * size t) (4 * total_elements t)) as [Hle | Hgt].
  - intros H. right. split; [exact Hle | ].
    apply bind_Ok in H as (p & Hfp & H). rewrite Qfloor_expand in Hfp.
    exists p. split; [exact Hfp | exact H].
  - intros [= <-]. left. split; [lia | reflexivity].
Qed.

End InsertFacts.

(** * Further properties of the table: records are met first on their path *)

Section SoundFacts.
Import InitArr HTable.
Context {Value : Type}.
Variable alloc : Z -> RawMem (option (HTableCell Value)).
Implicit Types (a : InitializedArray (option (HTableCell Value))).
Implicit Types (t u : HashTable Value) (c d : HTableCell Value).
Implicit Types (i j k ky hash s h : Z) (elem : option (HTableCell Value)).

Lemma slot_set_tbl_inv t u h c :
  tbl_inv t -> slot_set t u h c -> 0 <= GetKey c -> tbl_inv u.
Proof.
  intros (Hwf & Hd & Hl & Hc & Hk) (Hsz & Hg & Ho & Hwf' & Hd' & Hl') Hkey.
  split; [exact Hwf' | ]. split; [congruence | ]. split; [congruence | ].
  split; [unfold cap_ok in *; now rewrite Hsz | ].
  intros j x Hx. destruct (Z.eq_dec j h) as [-> | Hne].
  - rewrite Hg in Hx. injection Hx as <-. exact Hkey.
  - rewrite Ho in Hx by exact Hne. now apply (Hk j).
Qed.

(** A slot that takes a record of key [kc] is still passed by the probes
    of every other key. *)
Lemma slot_set_finds t u h c ky j s x :
  slot_set t u h c -> GetKey c <> ky -> s <> h ->
  finds t ky j s x -> finds u ky j s x.
Proof.
  intros (Hsz & Hg & Ho & _) Hne Hsh (Hj & Hh & Hx & Hk & Hp).
  split; [lia | ]. split; [now rewrite (Hash_size t u) | ].
  split; [now rewrite Ho | ]. split; [exact Hk | ].
  intros i Hi. rewrite (Hash_size t u) by assumption.
  destruct (Z.eq_dec (Hash t ky i) h) as [E | E].
  - exists c. rewrite E. now split.
  - rewrite Ho by exact E. now apply Hp.
Qed.

(** Replacing a record by one of the same key. *)
Lemma slot_set_finds_same t u h c d ky j s x :
  slot_set t u h c -> Get (elements t) h = Ok (Some d) ->
  GetKey c = GetKey d ->
  finds t ky j s x ->
  exists y, Get (elements u) s = Ok (Some y) /\ GetKey y = ky /\
            finds u ky j s y.
Proof.
  intros (Hsz & Hg & Ho & _) Hd Hcd (Hj & Hh & Hx & Hk & Hp).
  assert (Hpass : passes u ky 0 j).
  { intros i Hi. rewrite (Hash_size t u) by assumption.
    destruct (Hp i Hi) as (z & Hz & Hkz).
    destruct (Z.eq_dec (Hash t ky i) h) as [E | E].
    - exists c. rewrite E in *. split; [exact Hg | ]. congruence.
    - exists z. rewrite Ho by exact E. now split. }
  assert (Hy : exists y, Get (elements u) s = Ok (Some y) /\ GetKey y = ky).
  { destruct (Z.eq_dec s h) as [-> | E].
    - exists c. split; [exact Hg | ]. congruence.
    - exists x. rewrite Ho by exact E. now split. }
  destruct Hy as (y & Hy & Hky). exists y. split; [exact Hy | ].
  split; [exact Hky | ]. split; [lia | ].
  split; [now rewrite (Hash_size t u) | ]. split; [exact Hy | ].
  split; [exact Hky | exact Hpass].
Qed.

Lemma slot_set_first_ok_same t u h c d :
  first_ok t -> slot_set t u h c -> Get (elements t) h = Ok (Some d) ->
  GetKey c = GetKey d -> first_ok u.
Proof.
  intros Hf Hss Hd Hcd s y Hs Hy Hy0. pose proof Hss as (_ & Hg & Ho & _).
  assert (Hx : exists x, Get (elements t) s = Ok (Some x) /\
                         GetKey x = GetKey y).
  { destruct (Z.eq_dec s h) as [-> | E].
    - exists d. split; [exact Hd | ]. rewrite Hg in Hy. injection Hy as <-.
      now symmetry.
    - exists y. rewrite <- (Ho s E). now split. }
  destruct Hx as (x & Hx & Hkx).
  destruct (Hf s x Hs Hx ltac:(congruence)) as (j & Hfx).
  destruct (slot_set_finds_same t u h c d _ j s x Hss Hd Hcd Hfx)
    as (y' & Hy' & _ & Hfy).
  rewrite Hy in Hy'. injection Hy' as <-. exists j. now rewrite <- Hkx.
Qed.

(** When [FindKey] answers -1 or 0 for a key other than 0, no slot but
    slot 0 holds a record of the key. *)
Lemma only_in_slot_0 t ky r s c :
  first_ok t -> FindKey t ky = Ok r -> r <= 0 -> ky <> 0 ->
  0 < s -> Get (elements t) s = Ok (Some c) -> GetKey c <> ky.
Proof.
  intros Hf HF Hr Hz Hs Hc Hk.
  destruct (Hf s c Hs Hc ltac:(congruence)) as (j & Hj).
  rewrite Hk in Hj. rewrite (FindKey_finds t ky j s c Hj Hz) in HF.
  injection HF as <-. lia.
Qed.

Lemma wrote_first_ok t u ky v r h :
  first_ok t -> FindKey t ky = Ok r -> r <= 0 ->
  slot_set t u h (mkFull ky v) ->
  (exists j, finds u ky j h (mkFull ky v)) ->
  first_ok u.
Proof.
  intros Hf HF Hr Hss Hnew s y Hs Hy Hy0.
  pose proof Hss as (_ & Hg & Ho & _).
  destruct (Z.eq_dec s h) as [-> | E].
  - rewrite Hg in Hy. injection Hy as <-. exact Hnew.
  - rewrite (Ho s E) in Hy.
    destruct (Hf s y Hs Hy Hy0) as (j & Hj). exists j.
    apply (slot_set_finds t u h (mkFull ky v)); [exact Hss | | exact E
                                                  | exact Hj].
    cbn [GetKey key mkFull]. intros ->.
    now apply (only_in_slot_0 t (GetKey y) r s y Hf HF Hr Hy0 Hs Hy).
Qed.

Lemma sound_new p :
  Z.prime p -> 7 <= p ->
  sound {| elements := new_elements alloc p; size := p;
           total_elements := 0 |}.
Proof.
  intros Hp H7. split; [now apply tbl_inv_new | ].
  intros s c _ Hc. cbn [elements] in Hc. unfold new_elements in Hc.
  pose proof (Get_Ok_range _ _ _ Hc) as Hr. cbn [length New] in Hr.
  rewrite Get_New in Hc by exact Hr. discriminate.
Qed.

Lemma sound_shape t : sound t -> shape_ok t.
Proof.
  intros [(Hwf & Hd & Hl & Hc & _) _].
  split; [exact Hwf | ]. split; [exact Hd | ]. split; [exact Hl | exact Hc].
Qed.

Lemma ReHash_loop_sound ins n :
  ins_sound ins ->
  forall i old t t',
    sound t -> wf old -> keys_nonneg old ->
    ReHash_loop ins n i old t = Ok t' -> sound t'.
Proof.
  intros Hins. induction n as [ | n IH]; intros i old t t' Ht Hwf Hk H;
    cbn [ReHash_loop] in H.
  - now injection H as <-.
  - apply bind_Ok in H as (elem & Hg & H). destruct elem as [c | ].
    + destruct (CELL_STATE_eqb (GetCellState c) EMPTY).
      * apply bind_Ok in H as (old' & HS & H).
        destruct (Set_Ok_inv _ _ _ _ Hwf HS)
          as (_ & Hwf' & _ & _ & Hgi & Ho).
        apply (IH _ _ _ _ Ht Hwf') in H; [exact H | ].
        intros j x Hx. destruct (Z.eq_dec j i) as [-> | Hne].
        -- rewrite Hgi in Hx. discriminate.
        -- rewrite Ho in Hx by exact Hne. now apply (Hk j).
      * apply bind_Ok in H as (t1 & H1 & H).
        apply (IH _ _ _ _ (Hins _ _ _ _ Ht (Hk _ _ Hg) H1) Hwf Hk H).
    + now apply (IH _ _ _ _ Ht Hwf Hk H).
Qed.

Lemma ReHash_with_sound fuel ins dir t t' :
  ins_sound ins -> sound t ->
  ReHash_with alloc fuel ins dir t = Ok t' -> sound t'.
Proof.
  intros Hins Hs H. pose proof Hs as [(Hwf & _ & _ & (Hp & H7) & Hk) _].
  unfold INIT_SIZE in H7. unfold ReHash_with in H.
  destruct (DIRECTION_eqb dir UP && _) eqn:E1.
  - apply bind_Ok in H as (p & Hfp & H). rewrite Qfloor_expand in Hfp.
    apply FindNextPrime_spec in Hfp as (Hlt & Hpp & _); [ | lia].
    apply (ReHash_loop_sound _ _ Hins _ _ _ _) in H;
      [exact H | | exact Hwf | exact Hk].
    apply sound_new; [exact Hpp | lia].
  - destruct (DIRECTION_eqb dir DOWN && (size t >? INIT_SIZE) && _) eqn:E2.
    + apply andb_prop in E2 as [E2 _]. apply andb_prop in E2 as [_ E2].
      unfold INIT_SIZE in E2. apply Z.gtb_lt in E2.
      pose proof (prime_above_7 _ Hp E2) as H11.
      apply bind_Ok in H as (p & Hfp & H). rewrite Qfloor_reduce in Hfp.
      assert (H5 : 5 <= size t / 2) by (apply Z.div_le_lower_bound; lia).
      apply FindNextPrime_spec in Hfp as (Hlt & Hpp & _); [ | lia].
      pose proof (prime_above_5 p Hpp ltac:(lia)) as Hp7.
      apply (ReHash_loop_sound _ _ Hins _ _ _ _) in H;
        [exact H | | exact Hwf | exact Hk].
      now apply sound_new.
    + now injection H as <-.
Qed.

Lemma Insert_sound fuel : ins_sound (Insert alloc fuel).
Proof.
  induction fuel as [ | fuel IH]; intros t ky v t' Hs Hky H;
    [discriminate | ].
  pose proof Hs as [Hinv Hf].
  pose proof (sound_shape t Hs) as Hsh.
  pose proof Hsh as (_ & _ & _ & _ & H7). unfold INIT_SIZE in H7.
  destruct (Insert_inv alloc _ _ _ _ _ Hsh H)
    as [(h & d & _ & _ & Hd & Hk & Hss & _)
       | (fuel' & [= <-] & r & k' & elem' & t1 & HF & Hr & Hk' & Hg & Hp
          & Hst & Hss & _ & HR)].
  - split; [now apply (slot_set_tbl_inv t t' h _ Hinv Hss) | ].
    apply (slot_set_first_ok_same t t' h _ d Hf Hss Hd). now rewrite Hk.
  - apply (ReHash_with_sound _ _ _ _ _ IH) in HR; [exact HR | ].
    split; [now apply (slot_set_tbl_inv t t1 _ _ Hinv Hss) | ].
    apply (wrote_first_ok t t1 ky v r _ Hf HF Hr Hss).
    apply (wrote_finds t ky v k' elem' t1); try assumption. lia.
Qed.

Lemma Remove_sound fuel t ky t' :
  sound t -> Remove alloc fuel t ky = Ok t' -> sound t'.
Proof.
  intros Hs H. pose proof Hs as [Hinv Hf].
  pose proof Hinv as (Hwf & Hd & _ & _ & Hk).
  unfold Remove in H. apply bind_Ok in H as (h & _ & H).
  destruct (h <? 0); [now injection H as <- | ].
  apply bind_Ok in H as (elem & Hg & H).
  destruct elem as [c | ]; [ | discriminate].
  destruct (CELL_STATE_eqb (GetCellState c) FULL);
    [ | now injection H as <-].
  apply (ReHash_with_sound _ _ _ _ _ (Insert_sound fuel)) in H; [exact H | ].
  pose proof (poke_slot_set t h (SetCellState c EMPTY) c
                (total_elements t - 1) Hwf Hd Hg) as Hss.
  split.
  - apply (slot_set_tbl_inv t _ h _ Hinv Hss). exact (Hk h c Hg).
  - apply (slot_set_first_ok_same t _ h _ c Hf Hss Hg). reflexivity.
Qed.

Lemma run_sound fuel os : forall t t',
  sound t -> Forall (fun o => 0 <= op_key o) os ->
  run alloc fuel t os = Ok t' -> sound t'.
Proof.
  induction os as [ | o os IH]; intros t t' Hs Hos H; cbn [run] in H.
  - now injection H as <-.
  - apply bind_Ok in H as (t1 & H1 & H).
    apply Forall_cons_iff in Hos as [Ho Hos].
    apply (IH t1 t'); [ | exact Hos | exact H].
    destruct o as [ky v | ky]; cbn [apply_op op_key] in *.
    + now apply (Insert_sound fuel t ky v).
    + now apply (Remove_sound fuel t ky).
Qed.

End SoundFacts.

(** * Further properties of the table: the rebuilt table *)

Section FreshFacts.
Import InitArr HTable.
Context {Value : Type}.
Variable alloc : Z -> RawMem (option (HTableCell Value)).
Implicit Types (a : InitializedArray (option (HTableCell Value))).
Implicit Types (t u : HashTable Value) (c d : HTableCell Value).
Implicit Types (i j k ky hash s h : Z) (elem : option (HTableCell Value)).

Lemma slots_In n s : In s (slots n) <-> 0 <= s < Z.of_nat n.
Proof.
  unfold slots. rewrite in_map_iff. split.
  - intros (m & <- & Hm). apply in_seq in Hm. lia.
  - intros Hs. exists (Z.to_nat s). split; [lia | ]. apply in_seq. lia.
Qed.

Lemma slots_NoDup n : NoDup (slots n).
Proof.
  unfold slots. apply NoDup_map_NoDup_ForallPairs; [ | apply seq_NoDup].
  intros p q _ _ E. lia.
Qed.

Lemma slots_length n : List.length (slots n) = n.
Proof. unfold slots. now rewrite length_map, length_seq. Qed.

(** In a table of prime capacity above 7, the first [size] probes of a
    non-negative key visit every slot. *)
Lemma Hash_onto t ky s :
  Z.prime (size t) -> 7 < size t -> 0 <= ky -> 0 <= s < size t ->
  exists k, 0 <= k < size t /\ Hash t ky k = s.
Proof.
  intros Hp H7 Hky Hs.
  destruct (Hash_probes_distinct t ky Hp H7 Hky) as (_ & Hr & Hinj).
  set (n := Z.to_nat (size t)).
  set (l := map (Hash t ky) (slots n)).
  assert (Hnd : NoDup l).
  { apply NoDup_map_NoDup_ForallPairs; [ | apply slots_NoDup].
    intros p q Hin1 Hin2 E. apply slots_In in Hin1, Hin2.
    apply Hinj; [lia | lia | exact E]. }
  assert (Hincl : incl l (slots n)).
  { intros x Hx. apply in_map_iff in Hx as (q & <- & Hq).
    apply slots_In in Hq. apply slots_In.
    specialize (Hr q ltac:(lia)). lia. }
  assert (Hlen : (List.length (slots n) <= List.length l)%nat).
  { unfold l. now rewrite length_map. }
  pose proof (NoDup_length_incl Hnd Hlen Hincl) as Hback.
  assert (Hin : In s l) by (apply Hback, slots_In; lia).
  apply in_map_iff in Hin as (q & Hq & Hqs). apply slots_In in Hqs.
  exists q. split; [lia | exact Hq].
Qed.

Lemma scan_slots a (n : nat) :
  Z.of_nat n <= length a ->
  (exists s, 0 <= s < Z.of_nat n /\ Get a s = Ok None) \/
  (forall s, 0 <= s < Z.of_nat n -> exists c, Get a s = Ok (Some c)).
Proof.
  induction n as [ | n IH]; intros Hn; [right; intros s Hs; lia | ].
  destruct (IH ltac:(lia)) as [(s & Hs & Hg) | Hall].
  - left. exists s. split; [lia | exact Hg].
  - destruct (Get_in_range a (Z.of_nat n) ltac:(lia)) as ([c | ] & Hg).
    + right. intros s Hs. destruct (Z.eq_dec s (Z.of_nat n)) as [-> | E].
      * now exists c.
      * apply Hall. lia.
    + left. exists (Z.of_nat n). split; [lia | exact Hg].
Qed.

Lemma free_slot t :
  shape_ok t -> counted t -> total_elements t < size t ->
  exists s, 0 <= s < size t /\ Get (elements t) s = Ok None.
Proof.
  intros (_ & _ & Hl & _ & H7) (l & Hin & Hlen) Hlt. unfold INIT_SIZE in H7.
  destruct (scan_slots (elements t) (Z.to_nat (size t)) ltac:(lia))
    as [(s & Hs & Hg) | Hall].
  - exists s. split; [lia | exact Hg].
  - exfalso.
    assert (Hincl : incl (slots (Z.to_nat (size t))) l).
    { intros s Hs. apply slots_In in Hs. destruct (Hall s Hs) as (c & Hc).
      apply (Hin s c Hc). }
    pose proof (NoDup_incl_length (slots_NoDup _) Hincl) as Hle.
    rewrite slots_length in Hle. lia.
Qed.

(** In such a table the probing loop of [Insert] stops before the probe
    limit. *)
Lemma fresh_lands t ky k' :
  fresh t -> total_elements t < size t -> 0 <= ky -> 0 <= k' ->
  passes_full t ky 0 k' -> k' < size t.
Proof.
  intros (Hsh & H7 & Hc) Hlt Hky Hk' Hp.
  destruct (free_slot t Hsh Hc Hlt) as (s & Hs & Hg).
  pose proof Hsh as (_ & _ & _ & Hpr & _).
  destruct (Hash_onto t ky s Hpr H7 Hky Hs) as (k & Hk & Hh).
  destruct (Z_lt_le_dec k k') as [Hlt' | Hge]; [ | lia].
  destruct (Hp k ltac:(lia)) as (c & Hgc & _). congruence.
Qed.

Lemma slot_set_shape_ok t u h c : shape_ok t -> slot_set t u h c -> shape_ok u.
Proof.
  intros (Hwf & Hd & Hl & Hc) (Hsz & _ & _ & Hwf' & Hd' & Hl').
  split; [exact Hwf' | ]. split; [congruence | ]. split; [congruence | ].
  unfold cap_ok in *. now rewrite Hsz.
Qed.

Lemma slot_set_counted t u h c elem :
  counted t -> slot_set t u h c -> Get (elements t) h = Ok elem ->
  total_elements u = match elem with
                     | Some _ => total_elements t
                     | None => total_elements t + 1
                     end ->
  counted u.
Proof.
  intros (l & Hin & Hlen) (_ & Hg & Ho & _) He Htot.
  destruct elem as [d | ].
  - exists l. split; [ | lia]. intros s x Hx.
    destruct (Z.eq_dec s h) as [-> | E]; [now apply (Hin h d) | ].
    rewrite (Ho s E) in Hx. now apply (Hin s x).
  - exists (h :: l). split; [ | cbn [List.length]; lia]. intros s x Hx.
    destruct (Z.eq_dec s h) as [-> | E]; [now left | right].
    rewrite (Ho s E) in Hx. now apply (Hin s x).
Qed.

(** [Insert] into a table as [ReHash] builds it, with room for one more
    record: no resize, the key is found with the value, and the live
    records of the other keys are found as before. *)
Lemma Insert_fresh fuel t ky v t' :
  fresh t -> 4 * (total_elements t + 1) < 3 * size t -> 0 <= ky ->
  Insert alloc fuel t ky v = Ok t' ->
  fresh t' /\ size t' = size t /\
  total_elements t' <= total_elements t + 1 /\
  (ky <> 0 -> Find t' ky = Ok (Some (mkFull ky v))) /\
  (forall k1 c1, k1 <> ky -> Find t k1 = Ok (Some c1) ->
                 GetCellState c1 = FULL -> Find t' k1 = Ok (Some c1)).
Proof.
  intros Hfr Hload Hky H. pose proof Hfr as (Hsh & H7 & Hc).
  destruct (Insert_inv alloc _ _ _ _ _ Hsh H)
    as [(h & d & HF & _ & Hd & Hk & Hss & Htot)
       | (fuel' & _ & r & k' & elem' & t1 & HF & Hr & Hk' & Hg & Hp
          & Hst & Hss & Htot & HR)].
  - pose proof Hss as (Hsz & _). split; [ | split; [exact Hsz | ]].
    { split; [apply (slot_set_shape_ok t t' h _ Hsh Hss) | ].
      split; [lia | ].
      apply (slot_set_counted t t' h _ (Some d) Hc Hss Hd Htot). }
    split; [lia | ]. split.
    + intros _. rewrite <- Hk at 1.
      apply (slot_set_Find_same t t' h _ d Hss Hd); [now rewrite Hk | ].
      now rewrite Hk.
    + intros k1 c1 Hne Hfind _. rewrite <- Hfind.
      apply (slot_set_Find_other t t' h _ d k1 Hss Hd); [now rewrite Hk | ].
      now rewrite Hk.
  - pose proof Hss as (Hsz & _).
    assert (Hlt : k' < size t)
      by (apply (fresh_lands t ky k' Hfr); try assumption; lia).
    assert (Htot1 : total_elements t1 <= total_elements t + 1)
      by (destruct elem'; lia).
    destruct (ReHash_up_inv alloc _ _ _ _ HR) as [[_ ->] | [Hgrow _]];
      [ | lia].
    split; [ | split; [exact Hsz | ]].
    { split; [apply (slot_set_shape_ok t t1 _ _ Hsh Hss) | ].
      split; [lia | ].
      apply (slot_set_counted t t1 _ _ elem' Hc Hss Hg).
      destruct elem'; lia. }
    split; [exact Htot1 | ]. split.
    + intros Hz.
      destruct (wrote_finds t ky v k' elem' t1) as (j & Hj);
        try assumption; try lia.
      apply (Find_finds t1 ky j _ _ Hj Hz).
    + intros k1 c1 Hne Hfind Hfull.
      apply (wrote_keeps t ky v k' elem' t1 k1 c1); try assumption; try lia.
      apply Hst. lia.
Qed.

Lemma pending_skip a t ky v i n elem :
  pending a t ky v i (S n) -> Get a i = Ok elem ->
  match elem with
  | Some c => GetCellState c = EMPTY
  | None => True
  end ->
  pending a t ky v (i + 1) n.
Proof.
  intros [[Hf Hl] | (h & c & Hh & Hg & Hfull & Hk & Hl)] He Hskip.
  - left. split; [exact Hf | ]. intros s x Hs. apply Hl. lia.
  - right. exists h, c. split; [ | now repeat split].
    destruct (Z.eq_dec h i) as [-> | E]; [ | lia].
    rewrite He in Hg. injection Hg as ->. congruence.
Qed.

Lemma pending_step fuel a t ky v i n c t1 :
  0 < ky -> fresh t -> 4 * (total_elements t + 1) < 3 * size t ->
  pending a t ky v i (S n) -> Get a i = Ok (Some c) ->
  GetCellState c = FULL -> 0 <= GetKey c ->
  Insert alloc fuel t (GetKey c) (GetValue c) = Ok t1 ->
  pending a t1 ky v (i + 1) n.
Proof.
  intros Hky Hfr Hload Hpend Hc Hfull Hkc H1.
  destruct (Insert_fresh fuel t _ _ t1 Hfr Hload Hkc H1)
    as (_ & _ & _ & Hround & Hframe).
  assert (Hhit : GetKey c = ky -> later_same a ky v i ->
                 pending a t1 ky v (i + 1) n).
  { intros Hk Hl. left. split.
    - rewrite <- (Hl i c ltac:(lia) Hc Hfull Hk), <- Hk.
      apply Hround. lia.
    - intros s x Hs. apply Hl. lia. }
  destruct Hpend as [[Hf Hl] | (h & x & Hh & Hg & Hfx & Hk & Hl)].
  - destruct (Z.eq_dec (GetKey c) ky) as [E | E]; [now apply Hhit | ].
    left. split.
    + apply Hframe; [congruence | exact Hf | reflexivity].
    + intros s y Hs. apply Hl. lia.
  - destruct (Z.eq_dec h i) as [-> | E].
    + rewrite Hc in Hg. injection Hg as <-. now apply Hhit.
    + right. exists h, x. split; [lia | ]. now repeat split.
Qed.

(** The rebuild loop of [ReHash], run on a table with room for all the
    records to come: a key with a live record in the old array is found in
    the result, with the value of its last live record. *)
Lemma ReHash_loop_find fuel ky v n : forall i old t t' bound,
  0 < ky -> fresh t -> wf old -> keys_nonneg old ->
  total_elements t + Z.of_nat n <= bound -> 4 * bound < 3 * size t ->
  pending old t ky v i n ->
  ReHash_loop (Insert alloc fuel) n i old t = Ok t' ->
  Find t' ky = Ok (Some (mkFull ky v)).
Proof.
  induction n as [ | n IH]; intros i old t t' bound Hky Hfr Hwf Hk Hb Hload
                                   Hpend H; cbn [ReHash_loop] in H.
  - injection H as <-.
    destruct Hpend as [[Hf _] | (h & c & Hh & _)]; [exact Hf | lia].
  - apply bind_Ok in H as (elem & Hg & H). destruct elem as [c | ].
    + destruct (GetCellState c) eqn:Est; cbn [CELL_STATE_eqb] in H.
      * apply bind_Ok in H as (old' & HS & H).
        destruct (Set_Ok_inv _ _ _ _ Hwf HS)
          as (_ & Hwf' & _ & _ & Hgi & Ho).
        assert (Hsub : forall s x, Get old' s = Ok (Some x) ->
                                   Get old s = Ok (Some x)).
        { intros s x Hx. destruct (Z.eq_dec s i) as [-> | E].
          - rewrite Hgi in Hx. discriminate.
          - now rewrite <- (Ho s E). }
        apply (IH (i + 1) old' t t' bound); try assumption; try lia.
        -- intros s x Hx. apply (Hk s). now apply Hsub.
        -- pose proof (pending_skip old t ky v i n _ Hpend Hg Est) as Hp.
           destruct Hp as [[Hf Hl] | (h & x & Hh & Hx & Hfx & Hkx & Hl)].
           ++ left. split; [exact Hf | ]. intros s y Hs Hy.
              apply (Hl s y Hs). now apply Hsub.
           ++ right. exists h, x. split; [lia | ].
              split; [rewrite Ho; [exact Hx | lia] | ].
              split; [exact Hfx | ]. split; [exact Hkx | ].
              intros s y Hs Hy. apply (Hl s y Hs). now apply Hsub.
      * apply bind_Ok in H as (t1 & H1 & H).
        pose proof (Hk i c Hg) as Hkc.
        destruct (Insert_fresh fuel t _ _ t1 Hfr ltac:(lia) Hkc H1)
          as (Hfr1 & Hsz1 & Htot1 & _).
        apply (IH (i + 1) old t1 t' bound); try assumption; try lia.
        apply (pending_step fuel old t ky v i n c t1); try assumption. lia.
    + apply (IH (i + 1) old t t' bound); try assumption; try lia.
      now apply (pending_skip old t ky v i n None Hpend Hg).
Qed.

Lemma fresh_new p :
  Z.prime p -> 7 < p ->
  fresh {| elements := new_elements alloc p; size := p;
           total_elements := 0 |}.
Proof.
  intros Hp H7. split; [apply shape_ok_new; [exact Hp | lia] | ].
  split; [exact H7 | ]. exists []. split; [ | cbn; lia].
  intros s c Hc. cbn [elements] in Hc. unfold new_elements in Hc.
  pose proof (Get_Ok_range _ _ _ Hc) as Hr. cbn [length New] in Hr.
  rewrite Get_New in Hc by exact Hr. discriminate.
Qed.

(** [Insert] then [Find], resize included. *)
Lemma Insert_Find fuel t ky v t' :
  sound t -> 0 < ky -> Insert alloc fuel t ky v = Ok t' ->
  Find t' ky = Ok (Some (mkFull ky v)).
Proof.
  intros Hs Hky H. pose proof Hs as [Hinv Hf].
  pose proof (sound_shape t Hs) as Hsh.
  pose proof Hsh as (_ & _ & _ & _ & H7). unfold INIT_SIZE in H7.
  destruct (Insert_inv alloc _ _ _ _ _ Hsh H)
    as [(h & d & HF & _ & Hd & Hk & Hss & _)
       | (fuel' & _ & r & k' & elem' & t1 & HF & Hr & Hk' & Hg & Hp
          & Hst & Hss & _ & HR)].
  - rewrite <- Hk at 1.
    apply (slot_set_Find_same t t' h _ d Hss Hd); [now rewrite Hk | ].
    now rewrite Hk.
  - destruct (wrote_finds t ky v k' elem' t1) as (j & Hj);
      try assumption; try lia.
    destruct (ReHash_up_inv alloc _ _ _ _ HR)
      as [[_ ->] | (_ & p & Hfp & Hloop)].
    + apply (Find_finds t1 ky j _ _ Hj). lia.
    + pose proof Hss as (Hsz & Hgu & Ho & Hwf1 & _).
      rewrite Hsz in Hfp, Hloop.
      apply FindNextPrime_spec in Hfp as (Hlt & Hpp & _); [ | lia].
      assert (Hinv1 : tbl_inv t1)
        by (apply (slot_set_tbl_inv t t1 _ _ Hinv Hss); cbn; lia).
      apply (ReHash_loop_find _ ky v _ _ _ _ _ (size t)) in Hloop;
        try assumption.
      * apply fresh_new; [exact Hpp | lia].
      * apply Hinv1.
      * cbn [total_elements]. lia.
      * cbn [size]. lia.
      * right. exists (Hash t ky k'), (mkFull ky v).
        pose proof (Get_Ok_range _ _ _ Hg) as Hrange.
        destruct Hsh as (_ & _ & Hl & _).
        split; [lia | ]. split; [exact Hgu | ]. split; [reflexivity | ].
        split; [reflexivity | ].
        intros s c Hsge Hc _ Hkc.
        destruct (Z.eq_dec s (Hash t ky k')) as [-> | E].
        -- rewrite Hgu in Hc. now injection Hc as <-.
        -- exfalso. rewrite (Ho s E) in Hc.
           apply (only_in_slot_0 t ky r s c Hf HF Hr ltac:(lia)
                    ltac:(lia) Hc Hkc).
Qed.

(** The loops of the merging constructor, run on a table with room for
    all the records to come. *)
Lemma Merge_loop_find fuel src n : forall i t t' bound,
  fresh t -> keys_nonneg (elements src) ->
  total_elements t + Z.of_nat n <= bound -> 4 * bound < 3 * size t ->
  Merge_loop alloc fuel n i src t = Ok t' ->
  fresh t' /\ size t' = size t /\ total_elements t' <= bound /\
  forall ky v, 0 < ky -> pending (elements src) t ky v i n ->
               Find t' ky = Ok (Some (mkFull ky v)).
Proof.
  induction n as [ | n IH]; intros i t t' bound Hfr Hk Hb Hload H;
    cbn [Merge_loop] in H.
  - injection H as <-. split; [exact Hfr | ]. split; [reflexivity | ].
    split; [lia | ].
    intros ky v _ [[Hf _] | (h & c & Hh & _)]; [exact Hf | lia].
  - apply bind_Ok in H as (elem & Hg & H). destruct elem as [c | ].
    + destruct (GetCellState c) eqn:Est; cbn [CELL_STATE_eqb] in H.
      * destruct (IH (i + 1) t t' bound Hfr Hk ltac:(lia) Hload H)
          as (Hfr' & Hsz & Htot & Hfind).
        split; [exact Hfr' | ]. split; [exact Hsz | ]. split; [exact Htot | ].
        intros ky v Hky Hpend. apply (Hfind ky v Hky).
        now apply (pending_skip _ t ky v i n _ Hpend Hg).
      * apply bind_Ok in H as (t1 & H1 & H).
        pose proof (Hk i c Hg) as Hkc.
        destruct (Insert_fresh fuel t _ _ t1 Hfr ltac:(lia) Hkc H1)
          as (Hfr1 & Hsz1 & Htot1 & _).
        destruct (IH (i + 1) t1 t' bound Hfr1 Hk ltac:(lia) ltac:(lia) H)
          as (Hfr' & Hsz & Htot & Hfind).
        split; [exact Hfr' | ]. split; [lia | ]. split; [exact Htot | ].
        intros ky v Hky Hpend. apply (Hfind ky v Hky).
        apply (pending_step fuel _ t ky v i n c t1); try assumption. lia.
    + destruct (IH (i + 1) t t' bound Hfr Hk ltac:(lia) Hload H)
        as (Hfr' & Hsz & Htot & Hfind).
      split; [exact Hfr' | ]. split; [exact Hsz | ]. split; [exact Htot | ].
      intros ky v Hky Hpend. apply (Hfind ky v Hky).
      now apply (pending_skip _ t ky v i n None Hpend Hg).
Qed.

(** A live record that [Find] returns is the last live record of its key
    in slot order. *)
Lemma Find_last t ky c :
  sound t -> 0 < ky -> Find t ky = Ok (Some c) -> GetCellState c = FULL ->
  c = mkFull ky (GetValue c) /\
  exists r, 0 <= r < size t /\ Get (elements t) r = Ok (Some c) /\
            later_same (elements t) ky (GetValue c) r.
Proof.
  intros [Hinv Hf] Hky Hfind Hfull.
  destruct (Find_Ok_inv t ky _ Hfind)
    as (r & HF & [[_ Hx] | (Hr & c' & Hx & Hg & Hk & Hz)]); [discriminate | ].
  injection Hx as <-. split.
  { destruct c as [kc vc sc]. cbn in Hk, Hfull. subst kc sc. reflexivity. }
  exists r. pose proof (Get_Ok_range _ _ _ Hg) as Hrange.
  destruct Hinv as (_ & _ & Hl & _).
  split; [lia | ]. split; [exact Hg | ]. intros s x Hs Hx _ Hkx.
  destruct (Z.eq_dec s r) as [-> | E]; [congruence | ].
  exfalso. destruct (Hf s x ltac:(lia) Hx ltac:(lia)) as (j & Hj).
  rewrite Hkx in Hj. rewrite (FindKey_finds t ky j s x Hj Hz) in HF.
  injection HF as HF. lia.
Qed.

Lemma Find_pending t u ky c :
  sound t -> 0 < ky -> Find t ky = Ok (Some c) -> GetCellState c = FULL ->
  c = mkFull ky (GetValue c) /\
  pending (elements t) u ky (GetValue c) 0 (Z.to_nat (size t)).
Proof.
  intros Hs Hky Hfind Hfull.
  destruct (Find_last t ky c Hs Hky Hfind Hfull) as (Hc & r & Hr & Hg & Hl).
  split; [exact Hc | ]. right. exists r, c. split; [lia | ].
  split; [exact Hg | ]. split; [exact Hfull | ]. split; [ | exact Hl].
  rewrite Hc. reflexivity.
Qed.

(** [Insert], resize included, when one of the probes reads NULL: the
    live records of the other keys are found as before. *)
Lemma Insert_keeps fuel t ky v t' :
  sound t -> 0 <= ky ->
  (exists k, 0 <= k <= size t /\
             Get (elements t) (Hash t ky k) = Ok None) ->
  Insert alloc fuel t ky v = Ok t' ->
  forall k1 c1, k1 <> ky -> Find t k1 = Ok (Some c1) ->
                GetCellState c1 = FULL -> Find t' k1 = Ok (Some c1).
Proof.
  intros Hs Hky (k & Hk & Hnull) H k1 c1 Hne Hfind Hfull.
  pose proof Hs as [Hinv Hf]. pose proof (sound_shape t Hs) as Hsh.
  pose proof Hsh as (_ & _ & _ & _ & H7). unfold INIT_SIZE in H7.
  destruct (Insert_inv alloc _ _ _ _ _ Hsh H)
    as [(h & d & HF & _ & Hd & Hkd & Hss & Htot)
       | (fuel' & _ & r' & k' & elem' & t1 & HF & Hr' & Hk' & Hg & Hp
          & Hst & Hss & Htot & HR)].
  - rewrite <- Hfind.
    apply (slot_set_Find_other t t' h _ d k1 Hss Hd); [now rewrite Hkd | ].
    now rewrite Hkd.
  - assert (Hle : k' <= size t).
    { destruct (Z_lt_le_dec k k') as [Hlt | Hge]; [ | lia].
      destruct (Hp k ltac:(lia)) as (c & Hc & _). congruence. }
    specialize (Hst Hle).
    destruct (ReHash_up_inv alloc _ _ _ _ HR)
      as [[_ ->] | (_ & p & Hfp & Hloop)].
    + now apply (wrote_keeps t ky v k' elem' t1 k1 c1).
    + assert (Hk1 : 0 < k1).
      { destruct (Find_Ok_inv t k1 _ Hfind)
          as (r & _ & [[_ Hx] | (_ & c' & Hx & Hgr & Hkc & Hz)]);
          [discriminate | ].
        injection Hx as <-. destruct Hinv as (_ & _ & _ & _ & Hkeys).
        specialize (Hkeys r c1 Hgr). unfold GetKey in Hkc. lia. }
      destruct (Find_last t k1 c1 Hs Hk1 Hfind Hfull)
        as (Hc1 & r & Hr & Hgr & Hlast).
      pose proof Hss as (Hsz & Hgu & Ho & Hwf1 & _).
      rewrite Hsz in Hfp, Hloop.
      apply FindNextPrime_spec in Hfp as (Hlt & Hpp & _); [ | lia].
      assert (Hinv1 : tbl_inv t1)
        by (apply (slot_set_tbl_inv t t1 _ _ Hinv Hss); exact Hky).
      assert (Hkc1 : GetKey c1 = k1) by (rewrite Hc1; reflexivity).
      assert (Hrh : r <> Hash t ky k').
      { intros ->. rewrite Hg in Hgr. injection Hgr as ->.
        cbn [stops_here] in Hst. destruct Hst; congruence. }
      rewrite Hc1.
      apply (ReHash_loop_find _ k1 (GetValue c1) _ _ _ _ _ (size t)) in Hloop;
        try assumption.
      * apply fresh_new; [exact Hpp | lia].
      * apply Hinv1.
      * cbn [total_elements]. lia.
      * cbn [size]. lia.
      * right. exists r, c1. split; [lia | ].
        split; [now rewrite Ho | ]. split; [exact Hfull | ].
        split; [rewrite Hc1; reflexivity | ].
        intros s x Hsge Hx Hfx Hkx.
        destruct (Z.eq_dec s (Hash t ky k')) as [-> | E].
        -- rewrite Hgu in Hx. injection Hx as <-. cbn in Hkx. congruence.
        -- rewrite (Ho s E) in Hx. now apply (Hlast s x).
Qed.

(** What the merging constructor builds. *)
Lemma Merge_find fuel t1 t2 t' :
  sound t1 -> sound t2 -> Merge alloc fuel t1 t2 = Ok t' ->
  (2 * (size t1 + size t2) < size t' /\ Z.prime (size t') /\
   forall q, 2 * (size t1 + size t2) < q < size t' -> ~ Z.prime q) /\
  total_elements t' <= size t1 + size t2 /\
  (forall ky c, 0 < ky -> Find t2 ky = Ok (Some c) ->
                GetCellState c = FULL -> Find t' ky = Ok (Some c)) /\
  (forall ky c, 0 < ky -> Find t1 ky = Ok (Some c) ->
                GetCellState c = FULL ->
                (forall s x, Get (elements t2) s = Ok (Some x) ->
                             GetKey x <> ky) ->
                Find t' ky = Ok (Some c)).
Proof.
  intros Hs1 Hs2 H.
  pose proof Hs1 as [(_ & _ & _ & (_ & H71) & Hk1) _].
  pose proof Hs2 as [(_ & _ & _ & (_ & H72) & Hk2) _].
  unfold INIT_SIZE in *. unfold Merge in H.
  apply bind_Ok in H as (p & Hfp & H).
  apply FindNextPrime_spec in Hfp as (Hlt & Hpp & Hleast); [ | lia].
  apply bind_Ok in H as (t & Ht & H).
  assert (H7p : 7 < p) by lia.
  apply (Merge_loop_find fuel t1 _ _ _ _ (size t1) (fresh_new p Hpp H7p) Hk1)
    in Ht as (Hfr & Hsz & Htot & Hfind1);
    [ | cbn [total_elements]; lia | cbn [size]; lia].
  cbn [size] in Hsz.
  apply (Merge_loop_find fuel t2 _ _ _ _ (size t1 + size t2) Hfr Hk2)
    in H as (Hfr' & Hsz' & Htot' & Hfind2); [ | lia | lia].
  rewrite Hsz', Hsz.
  split; [split; [exact Hlt | split; [exact Hpp | exact Hleast]] | ].
  split; [exact Htot' | ]. split.
  - intros ky c Hky Hfind Hfull.
    destruct (Find_pending t2 t ky c Hs2 Hky Hfind Hfull) as (Hc & Hpend).
    rewrite Hc. now apply Hfind2.
  - intros ky c Hky Hfind Hfull Habs.
    destruct (Find_pending t1 {| elements := new_elements alloc p;
                                 size := p; total_elements := 0 |}
                ky c Hs1 Hky Hfind Hfull) as (Hc & Hpend).
    rewrite Hc. apply Hfind2; [exact Hky | ].
    left. split; [now apply Hfind1 | ].
    intros s x _ Hx _ Hkx. exfalso. now apply (Habs s x).
Qed.

Lemma Merge_loop_sound fuel src n : forall i t t',
  sound t -> keys_nonneg (elements src) ->
  Merge_loop alloc fuel n i src t = Ok t' -> sound t'.
Proof.
  induction n as [ | n IH]; intros i t t' Hs Hk H; cbn [Merge_loop] in H.
  - now injection H as <-.
  - apply bind_Ok in H as (elem & Hg & H). destruct elem as [c | ].
    + destruct (CELL_STATE_eqb (GetCellState c) EMPTY).
      * now apply (IH _ _ _ Hs Hk H).
      * apply bind_Ok in H as (t1 & H1 & H).
        apply (IH _ _ _ (Insert_sound alloc fuel _ _ _ _ Hs (Hk _ _ Hg) H1)
                 Hk H).
    + now apply (IH _ _ _ Hs Hk H).
Qed.

Lemma Merge_sound fuel t1 t2 t' :
  sound t1 -> sound t2 -> Merge alloc fuel t1 t2 = Ok t' -> sound t'.
Proof.
  intros [(_ & _ & _ & (_ & H71) & Hk1) _] [(_ & _ & _ & (_ & H72) & Hk2) _] H.
  unfold INIT_SIZE in *. unfold Merge in H.
  apply bind_Ok in H as (p & Hfp & H).
  apply FindNextPrime_spec in Hfp as (Hlt & Hpp & _); [ | lia].
  apply bind_Ok in H as (t & Ht & H).
  apply (Merge_loop_sound _ _ _ _ _ _) in Ht;
    [ | apply sound_new; [exact Hpp | lia] | exact Hk1].
  now apply (Merge_loop_sound _ _ _ _ _ _ Ht Hk2 H).
Qed.

End FreshFacts.

Section BuiltFacts.
Import InitArr HTable.
Context {Value : Type}.
Variable alloc : Z -> RawMem (option (HTableCell Value)).
Implicit Types (t u : HashTable Value) (c d : HTableCell Value).

Lemma built_sound t : built alloc t -> sound t.
Proof.
  intros Hb.
  induction Hb as [ | fuel t ky v t' _ IH Hky H | fuel t ky t' _ IH H
                    | fuel t1 t2 t' _ IH1 _ IH2 H].
  - apply (sound_new alloc 7); [exact prime_7 | lia].
  - exact (Insert_sound alloc fuel _ _ _ _ IH Hky H).
  - exact (Remove_sound alloc fuel _ _ _ IH H).
  - exact (Merge_sound alloc fuel _ _ _ IH1 IH2 H).
Qed.

Lemma built_reachable t : built alloc t -> reachable alloc t.
Proof.
  intros Hb.
  induction Hb as [ | fuel t ky v t' _ IH Hky H | fuel t ky t' _ IH H
                    | fuel t1 t2 t' _ IH1 _ IH2 H].
  - apply reach_new.
  - exact (reach_insert alloc fuel _ _ _ _ IH H).
  - exact (reach_remove alloc fuel _ _ _ IH H).
  - exact (reach_merge alloc fuel _ _ _ IH1 IH2 H).
Qed.

Lemma run_built fuel os : forall t t',
  built alloc t -> Forall (fun o => 0 <= op_key o) os ->
  run alloc fuel t os = Ok t' -> built alloc t'.
Proof.
  induction os as [ | o os IH]; intros t t' Hb Hos H; cbn [run] in H.
  - now injection H as <-.
  - apply bind_Ok in H as (t1 & H1 & H).
    apply Forall_cons_iff in Hos as [Ho Hos].
    apply (IH t1 t'); [ | exact Hos | exact H].
    destruct o as [ky v | ky]; cbn [apply_op op_key] in *.
    + exact (built_insert alloc fuel _ _ _ _ Hb Ho H1).
    + exact (built_remove alloc fuel _ _ _ Hb H1).
Qed.

End BuiltFacts.

(** X13 (insert, then find).  On a table built with non-negative keys,
    [Insert(k, v)] of a key k > 0 returns once the fuel is above some
    bound, and whenever it returns, with or without a resize, [Find(k)] on
    the table it leaves returns the record (k, v, FULL). *)
Theorem insert_then_find_returns_the_record :
  forall (Value : Type)
         (alloc : Z -> InitArr.RawMem (option (HTable.HTableCell Value)))
         (t : HTable.HashTable Value) (ky : Z) (v : Value),
    built alloc t -> 0 < ky ->
    (exists F t', forall fuel, (F <= fuel)%nat ->
                    HTable.Insert alloc fuel t ky v = Ok t') /\
    (forall fuel t',
       HTable.Insert alloc fuel t ky v = Ok t' ->
       HTable.Find t' ky = Ok (Some (HTable.mkFull ky v))).
Proof.
  intros Value alloc t ky v Hb Hky.
  pose proof (built_sound alloc t Hb) as Hs. split.
  - destruct (Insert_total alloc t ky v (proj1 Hs) ltac:(lia))
      as (F & t' & HI & _).
    now exists F, t'.
  - intros fuel t' HI. exact (Insert_Find alloc fuel t ky v t' Hs Hky HI).
Qed.

Lemma insert_then_find_returns_the_record_witness :
  exists t F t',
    HTable.run (zero_mem string) 1 (HTable.HashTable_new (zero_mem string))
               [HTable.OpInsert 1 "a"%string; HTable.OpInsert 2 "b"%string;
                HTable.OpInsert 3 "c"%string; HTable.OpInsert 4 "d"%string;
                HTable.OpInsert 5 "e"%string] = Ok t /\
    (forall fuel, (F <= fuel)%nat ->
       HTable.Insert (zero_mem string) fuel t 6 "f"%string = Ok t') /\
    HTable.Find t' 6 = Ok (Some (HTable.mkFull 6 "f"%string)).
Proof.
  destruct (HTable.run (zero_mem string) 1
              (HTable.HashTable_new (zero_mem string))
              [HTable.OpInsert 1 "a"%string; HTable.OpInsert 2 "b"%string;
               HTable.OpInsert 3 "c"%string; HTable.OpInsert 4 "d"%string;
               HTable.OpInsert 5 "e"%string])
    as [t | e] eqn:E; [ | vm_compute in E; discriminate E].
  destruct (insert_then_find_returns_the_record string (zero_mem string)
              t 6 "f"%string) as ((F & t' & HI) & HF).
  - apply (run_built _ _ _ _ _ (built_new _)) in E; [exact E | ].
    repeat (constructor; [cbn; lia | ]). constructor.
  - lia.
  - exists t, F, t'. split; [reflexivity | ]. split; [exact HI | ].
    apply (HF F t'). apply HI. lia.
Defined.

(** X14 (insert keeps the other records).  On a table built with
    non-negative keys, take a non-negative key k one of whose first
    [size + 1] probes reads a NULL slot.  [Insert(k, v)] returns once the
    fuel is above some bound, and whenever it returns, with or without a
    resize, every live record of another key that [Find] returned before
    is returned by [Find] on the table it leaves. *)
Theorem insert_keeps_live_records_of_other_keys :
  forall (Value : Type)
         (alloc : Z -> InitArr.RawMem (option (HTable.HTableCell Value)))
         (t : HTable.HashTable Value) (ky : Z) (v : Value),
    built alloc t -> 0 <= ky ->
    (exists k, 0 <= k <= HTable.GetSize t /\
               InitArr.Get (HTable.elements t) (HTable.Hash t ky k)
               = Ok None) ->
    (exists F t', forall fuel, (F <= fuel)%nat ->
                    HTable.Insert alloc fuel t ky v = Ok t') /\
    (forall fuel t' k1 c1,
       HTable.Insert alloc fuel t ky v = Ok t' ->
       k1 <> ky -> HTable.Find t k1 = Ok (Some c1) ->
       HTable.GetCellState c1 = HTable.FULL ->
       HTable.Find t' k1 = Ok (Some c1)).
Proof.
  intros Value alloc t ky v Hb Hky Hnull.
  pose proof (built_sound alloc t Hb) as Hs. split.
  - destruct (Insert_total alloc t ky v (proj1 Hs) Hky) as (F & t' & HI & _).
    now exists F, t'.
  - intros fuel t' k1 c1 HI.
    exact (Insert_keeps alloc fuel t ky v t' Hs Hky Hnull HI k1 c1).
Qed.

Lemma insert_keeps_live_records_of_other_keys_witness :
  exists t F t',
    HTable.run (zero_mem string) 1 (HTable.HashTable_new (zero_mem string))
               [HTable.OpInsert 1 "a"%string; HTable.OpInsert 2 "b"%string;
                HTable.OpInsert 3 "c"%string; HTable.OpInsert 4 "d"%string;
                HTable.OpInsert 5 "e"%string] = Ok t /\
    (forall fuel, (F <= fuel)%nat ->
       HTable.Insert (zero_mem string) fuel t 6 "f"%string = Ok t') /\
    HTable.Find t' 1 = Ok (Some (HTable.mkFull 1 "a"%string)) /\
    HTable.Find t' 5 = Ok (Some (HTable.mkFull 5 "e"%string)).
Proof.
  destruct (HTable.run (zero_mem string) 1
              (HTable.HashTable_new (zero_mem string))
              [HTable.OpInsert 1 "a"%string; HTable.OpInsert 2 "b"%string;
               HTable.OpInsert 3 "c"%string; HTable.OpInsert 4 "d"%string;
               HTable.OpInsert 5 "e"%string])
    as [t | e] eqn:E; [ | vm_compute in E; discriminate E].
  destruct (insert_keeps_live_records_of_other_keys string (zero_mem string)
              t 6 "f"%string) as ((F & t' & HI) & Hkeep).
  - apply (run_built _ _ _ _ _ (built_new _)) in E; [exact E | ].
    repeat (constructor; [cbn; lia | ]). constructor.
  - lia.
  - exists 0. split.
    + assert (Hsz : HTable.GetSize t = 7)
        by (apply (eval_at _ _ HTable.GetSize _ E); vm_compute; reflexivity).
      rewrite Hsz. lia.
    + apply (eval_at _ _ (fun x => InitArr.Get (HTable.elements x)
                                     (HTable.Hash x 6 0)) _ E).
      vm_compute. reflexivity.
  - exists t, F, t'. split; [reflexivity | ]. split; [exact HI | ].
    specialize (HI F (Nat.le_refl F)). split.
    + apply (Hkeep F t' 1 _ HI); [lia | | reflexivity].
      apply (eval_at _ _ (fun x => HTable.Find x 1) _ E).
      vm_compute. reflexivity.
    + apply (Hkeep F t' 5 _ HI); [lia | | reflexivity].
      apply (eval_at _ _ (fun x => HTable.Find x 5) _ E).
      vm_compute. reflexivity.
Defined.

(** X15 (merging constructor).  For two tables built with non-negative
    keys, [HashTable(ht1, ht2)] returns once the fuel is above some bound.
    Whenever it returns, the capacity of the new table is the least prime
    above twice the sum of the two capacities, its count is at most the sum
    of the two capacities, every live record that [Find] returns on [ht2]
    for a key k > 0 is returned by [Find] on the new table, and so is every
    live record that [Find] returns on [ht1] for a key k > 0 of which
    [ht2] holds no record. *)
Theorem merge_keeps_the_records_of_the_second_table :
  forall (Value : Type)
         (alloc : Z -> InitArr.RawMem (option (HTable.HTableCell Value)))
         (t1 t2 : HTable.HashTable Value),
    built alloc t1 -> built alloc t2 ->
    (exists F t', forall fuel, (F <= fuel)%nat ->
                    HTable.Merge alloc fuel t1 t2 = Ok t') /\
    (forall fuel t',
       HTable.Merge alloc fuel t1 t2 = Ok t' ->
       (2 * (HTable.GetSize t1 + HTable.GetSize t2) < HTable.GetSize t' /\
        Z.prime (HTable.GetSize t') /\
        forall q, 2 * (HTable.GetSize t1 + HTable.GetSize t2) < q
                  < HTable.GetSize t' -> ~ Z.prime q) /\
       HTable.GetTotalElements t'
         <= HTable.GetSize t1 + HTable.GetSize t2 /\
       (forall ky c,
          0 < ky -> HTable.Find t2 ky = Ok (Some c) ->
          HTable.GetCellState c = HTable.FULL ->
          HTable.Find t' ky = Ok (Some c)) /\
       (forall ky c,
          0 < ky -> HTable.Find t1 ky = Ok (Some c) ->
          HTable.GetCellState c = HTable.FULL ->
          (forall s x, InitArr.Get (HTable.elements t2) s = Ok (Some x) ->
                       HTable.GetKey x <> ky) ->
          HTable.Find t' ky = Ok (Some c))).
Proof.
  intros Value alloc t1 t2 Hb1 Hb2.
  pose proof (built_sound alloc t1 Hb1) as Hs1.
  pose proof (built_sound alloc t2 Hb2) as Hs2. split.
  - destruct (Merge_total alloc t1 t2 (proj1 Hs1) (proj1 Hs2))
      as (F & t' & HM & _).
    now exists F, t'.
  - intros fuel t' HM. exact (Merge_find alloc fuel t1 t2 t' Hs1 Hs2 HM).
Qed.

Lemma merge_keeps_the_records_of_the_second_table_witness :
  exists t1 t2 F t',
    HTable.run (zero_mem string) 1 (HTable.HashTable_new (zero_mem string))
               [HTable.OpInsert 1 "x"%string] = Ok t1 /\
    HTable.run (zero_mem string) 1 (HTable.HashTable_new (zero_mem string))
               [HTable.OpInsert 1 "y"%string; HTable.OpInsert 8 "z"%string]
      = Ok t2 /\
    (forall fuel, (F <= fuel)%nat ->
       HTable.Merge (zero_mem string) fuel t1 t2 = Ok t') /\
    28 < HTable.GetSize t' /\
    HTable.Find t' 1 = Ok (Some (HTable.mkFull 1 "y"%string)) /\
    HTable.Find t' 8 = Ok (Some (HTable.mkFull 8 "z"%string)).
Proof.
  destruct (HTable.run (zero_mem string) 1
              (HTable.HashTable_new (zero_mem string))
              [HTable.OpInsert 1 "x"%string])
    as [t1 | e] eqn:E1; [ | vm_compute in E1; discriminate E1].
  destruct (HTable.run (zero_mem string) 1
              (HTable.HashTable_new (zero_mem string))
              [HTable.OpInsert 1 "y"%string; HTable.OpInsert 8 "z"%string])
    as [t2 | e] eqn:E2; [ | vm_compute in E2; discriminate E2].
  destruct (merge_keeps_the_records_of_the_second_table string
              (zero_mem string) t1 t2) as ((F & t' & HM) & Hall).
  - apply (run_built _ _ _ _ _ (built_new _)) in E1; [exact E1 | ].
    repeat (constructor; [cbn; lia | ]). constructor.
  - apply (run_built _ _ _ _ _ (built_new _)) in E2; [exact E2 | ].
    repeat (constructor; [cbn; lia | ]). constructor.
  - destruct (Hall F t' (HM F (Nat.le_refl F)))
      as ((Hlt & _) & _ & Hsecond & _).
    assert (Hsz1 : HTable.GetSize t1 = 7)
      by (apply (eval_at _ _ HTable.GetSize _ E1); vm_compute; reflexivity).
    assert (Hsz2 : HTable.GetSize t2 = 7)
      by (apply (eval_at _ _ HTable.GetSize _ E2); vm_compute; reflexivity).
    exists t1, t2, F, t'. split; [reflexivity | ]. split; [reflexivity | ].
    split; [exact HM | ]. split; [rewrite Hsz1, Hsz2 in Hlt; exact Hlt | ].
    split.
    + apply Hsecond; [lia | | reflexivity].
      apply (eval_at _ _ (fun x => HTable.Find x 1) _ E2).
      vm_compute. reflexivity.
    + apply Hsecond; [lia | | reflexivity].
      apply (eval_at _ _ (fun x => HTable.Find x 8) _ E2).
      vm_compute. reflexivity.
Defined.




(** * Further properties of the table: the count without removals *)

Section CountFacts.
Import InitArr HTable.
Context {Value : Type}.
Variable alloc : Z -> RawMem (option (HTableCell Value)).
Implicit Types (a : InitializedArray (option (HTableCell Value))).
Implicit Types (t u : HashTable Value) (c d : HTableCell Value).
Implicit Types (i j k ky hash s h : Z) (elem : option (HTableCell Value)).

(** The number of FULL slots after one slot takes a FULL record, in an
    array without tombstones. *)
Lemma count_full_set a b h c elem (n : nat) : forall i x,
  Get b h = Ok (Some c) -> GetCellState c = FULL ->
  (forall j, j <> h -> Get b j = Get a j) ->
  Get a h = Ok elem ->
  (forall d, elem = Some d -> GetCellState d = FULL) ->
  count_full n i a = Ok x ->
  count_full n i b =
    Ok (x + if (i <=? h) && (h <? i + Z.of_nat n)
            then match elem with Some _ => 0 | None => 1 end
            else 0).
Proof.
  induction n as [ | n IH]; intros i x Hb Hc Ho Ha Hfull H.
  - injection H as <-. change (count_full 0 i b) with (@Ok Z 0).
    apply f_equal.
    destruct (Z.leb_spec i h), (Z.ltb_spec h (i + Z.of_nat 0));
      cbn [andb]; lia.
  - change (count_full (S n) i a)
      with (e <- Get a i ;; r <- count_full n (i + 1) a ;;
            match e with
            | Some d => if CELL_STATE_eqb (GetCellState d) FULL
                        then Ok (1 + r) else Ok r
            | None => Ok r
            end) in H.
    change (count_full (S n) i b)
      with (e <- Get b i ;; r <- count_full n (i + 1) b ;;
            match e with
            | Some d => if CELL_STATE_eqb (GetCellState d) FULL
                        then Ok (1 + r) else Ok r
            | None => Ok r
            end).
    apply bind_Ok in H as (e & He & H). apply bind_Ok in H as (r & Hr & H).
    rewrite (IH (i + 1) r Hb Hc Ho Ha Hfull Hr).
    set (dl := match elem with Some _ => 0 | None => 1 end).
    destruct (Z.eq_dec i h) as [-> | Hne].
    + rewrite Hb. unfold bind. rewrite Hc.
      change (CELL_STATE_eqb FULL FULL) with true. cbv iota.
      rewrite Ha in He. injection He as <-.
      assert (E1 : (h + 1 <=? h) && (h <? h + 1 + Z.of_nat n) = false).
      { destruct (Z.leb_spec (h + 1) h); [lia | reflexivity]. }
      assert (E2 : (h <=? h) && (h <? h + Z.of_nat (S n)) = true).
      { destruct (Z.leb_spec h h); [ | lia].
        destruct (Z.ltb_spec h (h + Z.of_nat (S n))); [reflexivity | lia]. }
      rewrite E1, E2. cbv iota. apply f_equal. unfold dl.
      destruct elem as [d | ].
      * rewrite (Hfull d eq_refl) in H.
        change (CELL_STATE_eqb FULL FULL) with true in H. cbv iota in H.
        assert (Hx : 1 + r = x) by congruence. lia.
      * assert (Hx : r = x) by congruence. lia.
    + rewrite (Ho i Hne), He. unfold bind.
      assert (E : (i + 1 <=? h) && (h <? i + 1 + Z.of_nat n)
                  = (i <=? h) && (h <? i + Z.of_nat (S n))).
      { destruct (Z.leb_spec (i + 1) h), (Z.leb_spec i h),
          (Z.ltb_spec h (i + 1 + Z.of_nat n)),
          (Z.ltb_spec h (i + Z.of_nat (S n))); cbn [andb]; try reflexivity;
          lia. }
      rewrite E.
      set (dd := if (i <=? h) && (h <? i + Z.of_nat (S n)) then dl else 0).
      destruct e as [d | ].
      * destruct (CELL_STATE_eqb (GetCellState d) FULL).
        -- assert (Hx : 1 + r = x) by congruence. apply f_equal. lia.
        -- assert (Hx : r = x) by congruence. apply f_equal. lia.
      * assert (Hx : r = x) by congruence. apply f_equal. lia.
Qed.

Lemma count_full_new p (n : nat) : forall i,
  0 <= i -> i + Z.of_nat n <= p ->
  count_full n i (new_elements alloc p) = Ok 0.
Proof.
  induction n as [ | n IH]; intros i Hi Hn; cbn [count_full];
    [reflexivity | ].
  unfold new_elements at 1. rewrite Get_New by lia. cbn [bind].
  rewrite IH by lia. reflexivity.
Qed.

Lemma count_ok_new p :
  Z.prime p -> 7 <= p ->
  count_ok {| elements := new_elements alloc p; size := p;
              total_elements := 0 |}.
Proof.
  intros Hp H7. split; [now apply shape_ok_new | ]. split.
  - intros s c Hc. cbn [elements] in Hc. unfold new_elements in Hc.
    pose proof (Get_Ok_range _ _ _ Hc) as Hr. cbn [length New] in Hr.
    rewrite Get_New in Hc by exact Hr. discriminate.
  - unfold full_slots. cbn [elements size total_elements].
    apply count_full_new; lia.
Qed.

(** One slot takes a FULL record and the count follows. *)
Lemma slot_set_count_ok t u h v ky elem :
  count_ok t -> slot_set t u h (mkFull ky v) ->
  Get (elements t) h = Ok elem ->
  total_elements u = total_elements t
                     + match elem with Some _ => 0 | None => 1 end ->
  count_ok u.
Proof.
  intros (Hsh & Hfull & Hcnt) Hss Hg Htot.
  pose proof Hss as (Hsz & Hgu & Ho & _).
  split; [apply (slot_set_shape_ok t u h _ Hsh Hss) | ]. split.
  - intros s c Hc. destruct (Z.eq_dec s h) as [-> | E].
    + rewrite Hgu in Hc. now injection Hc as <-.
    + rewrite (Ho s E) in Hc. now apply (Hfull s).
  - unfold full_slots in *. rewrite Hsz.
    rewrite (count_full_set (elements t) (elements u) h (mkFull ky v) elem
               _ 0 (total_elements t) Hgu eq_refl Ho Hg); [ | | exact Hcnt].
    + pose proof (Get_Ok_range _ _ _ Hg) as Hr.
      destruct Hsh as (_ & _ & Hl & _).
      destruct (Z.leb_spec 0 h); [ | lia].
      destruct (Z.ltb_spec h (0 + Z.of_nat (Z.to_nat (size t)))); [ | lia].
      cbn [andb]. now rewrite Htot.
    + intros d ->. now apply (Hfull h).
Qed.

Lemma ReHash_loop_count ins n :
  ins_count ins ->
  forall i old t t',
    count_ok t -> ReHash_loop ins n i old t = Ok t' -> count_ok t'.
Proof.
  intros Hins. induction n as [ | n IH]; intros i old t t' Ht H;
    cbn [ReHash_loop] in H.
  - now injection H as <-.
  - apply bind_Ok in H as (elem & _ & H). destruct elem as [c | ].
    + destruct (CELL_STATE_eqb (GetCellState c) EMPTY).
      * apply bind_Ok in H as (old' & _ & H). now apply (IH _ _ _ _ Ht H).
      * apply bind_Ok in H as (t1 & H1 & H).
        apply (IH _ _ _ _ (Hins _ _ _ _ Ht H1) H).
    + now apply (IH _ _ _ _ Ht H).
Qed.

Lemma Insert_count fuel : ins_count (Insert alloc fuel).
Proof.
  induction fuel as [ | fuel IH]; intros t ky v t' Hc H; [discriminate | ].
  pose proof Hc as (Hsh & Hfull & Hcnt).
  pose proof Hsh as (_ & _ & _ & Hp & H7). unfold INIT_SIZE in H7.
  destruct (Insert_inv alloc _ _ _ _ _ Hsh H)
    as [(h & d & _ & _ & Hd & _ & Hss & Htot)
       | (fuel' & [= <-] & r & k' & elem' & t1 & _ & _ & _ & Hg & _ & _
          & Hss & Htot & HR)].
  - apply (slot_set_count_ok t t' h v ky (Some d) Hc Hss Hd). lia.
  - assert (Hc1 : count_ok t1).
    { apply (slot_set_count_ok t t1 _ v ky elem' Hc Hss Hg).
      destruct elem'; lia. }
    destruct (ReHash_up_inv alloc _ _ _ _ HR)
      as [[_ ->] | (_ & p & Hfp & Hloop)]; [exact Hc1 | ].
    destruct Hss as (Hsz & _). rewrite Hsz in Hfp.
    apply FindNextPrime_spec in Hfp as (Hlt & Hpp & _); [ | lia].
    apply (ReHash_loop_count _ _ IH _ _ _ _) in Hloop; [exact Hloop | ].
    apply count_ok_new; [exact Hpp | lia].
Qed.

Lemma inserted_count_ok t : inserted alloc t -> count_ok t.
Proof.
  intros Hi. induction Hi as [ | fuel t ky v t' _ IH H].
  - apply (count_ok_new 7); [exact prime_7 | lia].
  - exact (Insert_count fuel _ _ _ _ IH H).
Qed.

End CountFacts.

(** X18 (the count without removals).  On a table built by insertions
    alone, of any keys, resizes included, [GetTotalElements()] is the
    number of slots that hold a FULL record, and no slot holds a
    tombstone. *)
Theorem count_is_exact_without_removals :
  forall (Value : Type)
         (alloc : Z -> InitArr.RawMem (option (HTable.HTableCell Value)))
         (t : HTable.HashTable Value),
    inserted alloc t ->
    HTable.full_slots t = Ok (HTable.GetTotalElements t) /\
    forall s c, InitArr.Get (HTable.elements t) s = Ok (Some c) ->
                HTable.GetCellState c = HTable.FULL.
Proof.
  intros Value alloc t Hi.
  destruct (inserted_count_ok alloc t Hi) as (_ & Hfull & Hcnt).
  split; [exact Hcnt | exact Hfull].
Qed.

Lemma count_is_exact_without_removals_witness :
  exists t1 t2,
    HTable.Insert (zero_mem string) 1
                  (HTable.HashTable_new (zero_mem string)) 7 "a"%string
      = Ok t1 /\
    HTable.Insert (zero_mem string) 1 t1 7 "b"%string = Ok t2 /\
    HTable.GetTotalElements t2 = 1 /\
    HTable.full_slots t2 = Ok (HTable.GetTotalElements t2).
Proof.
  destruct (HTable.Insert (zero_mem string) 1
              (HTable.HashTable_new (zero_mem string)) 7 "a"%string)
    as [t1 | e] eqn:E1; [ | vm_compute in E1; discriminate E1].
  destruct (HTable.Insert (zero_mem string) 1 t1 7 "b"%string)
    as [t2 | e] eqn:E2.
  - exists t1, t2. split; [reflexivity | ]. split; [exact E2 | ]. split.
    + vm_compute in E1. injection E1 as <-. vm_compute in E2.
      injection E2 as <-. reflexivity.
    + apply (count_is_exact_without_removals string (zero_mem string) t2).
      exact (inserted_insert _ _ _ _ _ _
               (inserted_insert _ _ _ _ _ _ (inserted_new _) E1) E2).
  - exfalso. vm_compute in E1. injection E1 as <-. vm_compute in E2.
    discriminate E2.
Defined.
